(** * Rollout engine, corrector and packer of spherical-dyffusion

    A shallow embedding of
      - [src/utilities/packer.py]                         (Packer, _pack, _unpack)
      - [src/evaluation/metrics.py]                       (weighted_mean, vertical_integral, ...)
      - [src/ace_inference/core/aggregator/climate_data.py] (ClimateData)
      - [src/ace_inference/core/corrector.py]             (the three corrector stages)
      - [src/ace_inference/core/stepper.py]               (run_on_batch)
    together with the properties the specification states about them.

    Conventions.  Python exceptions are values of [exn]; a fallible
    computation returns [result]; a function compiled by [torch.jit.script]
    reports every failure of its body as a [RuntimeError].  A Python [dict]
    is an association list in insertion order.  A torch tensor is its shape
    together with its element accessor; two tensors are equal ([teq]) when
    their shapes coincide and they agree at every in-bounds index, which is
    what [torch.equal] tests.
    Floating-point numbers are idealised as real numbers: every equality
    "to floating tolerance" is proved as an exact equality over [R], under
    explicit hypotheses that the divisors involved are non-zero. *)

From Stdlib Require Import List String Ascii ZArith Arith Bool Lia.
From Stdlib Require Import DecimalString.
From Stdlib Require Import Reals Lra.
From Stdlib Require Import Permutation Sorted DecimalNat FinFun.
Import ListNotations.

Set Implicit Arguments.
Local Open Scope string_scope.
Local Open Scope list_scope.
Local Open Scope nat_scope.

(* ================================================================== *)
(** ** Python exceptions and fallible computations *)

Module Py.

Inductive exn : Type :=
| KeyError (key : string)
| ValueError (msg : string)
| IndexError (msg : string)
| RuntimeError (msg : string)
| AttributeError (attr : string)
| AssertionError (msg : string)
| TypeError (msg : string).

Inductive result (A : Type) : Type :=
| Ok (a : A)
| Raise (e : exn).
Arguments Ok {A} a.
Arguments Raise {A} e.

Definition bind {A B} (c : result A) (k : A -> result B) : result B :=
  match c with
  | Ok a => k a
  | Raise e => Raise e
  end.

Definition is_ValueError (e : exn) : bool :=
  match e with ValueError _ => true | _ => false end.

Definition is_KeyError (e : exn) : bool :=
  match e with KeyError _ => true | _ => false end.

(** [[f(x) for x in xs]] where [f] can raise: the first exception wins. *)
Fixpoint mapM {A B} (f : A -> result B) (xs : list A) : result (list B) :=
  match xs with
  | [] => Ok []
  | x :: xs' =>
      bind (f x) (fun y => bind (mapM f xs') (fun ys => Ok (y :: ys)))
  end.

(** The computation [r] returns, or raises something else than [e0]. *)
Definition other_than {A} (e0 : exn) (r : result A) : Prop :=
  match r with
  | Ok _ => True
  | Raise e => e <> e0
  end.

(** [enumerate(xs)], counting from [i]. *)
Fixpoint enumerate_from {A} (i : nat) (xs : list A) : list (nat * A) :=
  match xs with
  | [] => []
  | x :: xs' => (i, x) :: enumerate_from (S i) xs'
  end.

Definition enumerate {A} (xs : list A) : list (nat * A) := enumerate_from 0 xs.

End Py.
Export Py.

Declare Scope py_scope.
Delimit Scope py_scope with py.
Notation "x <- c ;; k" := (bind c (fun x => k))
  (at level 61, c at next level, right associativity) : py_scope.
Local Open Scope py_scope.

(* ================================================================== *)
(** ** Python dictionaries keyed by strings *)

Module Dict.
Section WithValues.
Variable V : Type.

(** Keys in insertion order; every operation below keeps them distinct. *)
Definition dict := list (string * V).

Fixpoint lookup (k : string) (d : dict) : option V :=
  match d with
  | [] => None
  | (k', v) :: d' => if String.eqb k k' then Some v else lookup k d'
  end.

(** [k in d] *)
Definition contains (k : string) (d : dict) : bool :=
  match lookup k d with Some _ => true | None => false end.

(** [d[k]] *)
Definition getitem (k : string) (d : dict) : result V :=
  match lookup k d with
  | Some v => Ok v
  | None => Raise (KeyError k)
  end.

(** [d[k] = v]: an existing key keeps its position, a new key goes last. *)
Fixpoint setitem (k : string) (v : V) (d : dict) : dict :=
  match d with
  | [] => [(k, v)]
  | (k', v') :: d' =>
      if String.eqb k k' then (k', v) :: d' else (k', v') :: setitem k v d'
  end.

Definition keys (d : dict) : list string := map fst d.

(** [dict(items)], also the dict comprehension [{k: v for ...}]. *)
Definition of_items (items : list (string * V)) : dict :=
  fold_left (fun acc kv => setitem (fst kv) (snd kv) acc) items [].

(** [{**a, **b}] *)
Definition merge (a b : dict) : dict :=
  fold_left (fun acc kv => setitem (fst kv) (snd kv) acc) b a.

End WithValues.
End Dict.

(* ================================================================== *)
(** ** Tensors: a shape and an element accessor *)

Module Tensor.
Section WithElements.
Variable T : Type.

Record tensor : Type := mkTensor {
  shape : list nat;
  item : list nat -> T
}.

Definition rank (t : tensor) : nat := List.length (shape t).

(** [idx] addresses an element of a tensor of shape [sh]. *)
Fixpoint in_bounds (sh idx : list nat) : bool :=
  match sh, idx with
  | [], [] => true
  | n :: sh', i :: idx' => (i <? n) && in_bounds sh' idx'
  | _, _ => false
  end.

(** [torch.equal]: same shape, same elements. *)
Definition teq (t u : tensor) : Prop :=
  shape t = shape u /\
  forall idx, in_bounds (shape t) idx = true -> item t idx = item u idx.

(** Two mappings are equal: the same keys, bound to equal tensors. *)
Definition dict_teq (d1 d2 : Dict.dict tensor) : Prop :=
  forall k, match Dict.lookup k d1, Dict.lookup k d2 with
            | Some t, Some u => teq t u
            | None, None => True
            | _, _ => False
            end.

Definition insert_at {A} (n : nat) (x : A) (l : list A) : list A :=
  firstn n l ++ x :: skipn n l.

Definition remove_at {A} (n : nat) (l : list A) : list A :=
  firstn n l ++ skipn (S n) l.

(** Python/torch index wrapping: [i] is accepted for a sequence of
    length [n] when [-n <= i < n], negative values count from the end. *)
Definition wrap_index (n : nat) (i : Z) : option nat :=
  if ((- Z.of_nat n <=? i) && (i <? Z.of_nat n))%Z
  then Some (Z.to_nat (if (i <? 0)%Z then i + Z.of_nat n else i))
  else None.

Definition shape_eqb (a b : list nat) : bool :=
  if list_eq_dec Nat.eq_dec a b then true else false.

(** [torch.stack(ts, dim)]: a new axis of size [len(ts)] at position
    [dim] of the result, which has one axis more than each operand. *)
Definition stack (ts : list tensor) (dim : Z) : result tensor :=
  match ts with
  | [] => Raise (RuntimeError "stack expects a non-empty TensorList")
  | t0 :: _ =>
      match wrap_index (S (rank t0)) dim with
      | None => Raise (IndexError "Dimension out of range")
      | Some a =>
          if forallb (fun t => shape_eqb (shape t) (shape t0)) ts
          then Ok {| shape := insert_at a (List.length ts) (shape t0);
                     item := fun idx =>
                       item (nth (nth a idx 0) ts t0) (remove_at a idx) |}
          else Raise (RuntimeError "stack expects each tensor to be equal size")
      end
  end.

(** [t.select(dim, index)]: the slice at [index] along [dim]; that axis
    disappears from the result. *)
Definition select (t : tensor) (dim : Z) (index : Z) : result tensor :=
  match wrap_index (rank t) dim with
  | None => Raise (IndexError "Dimension out of range")
  | Some a =>
      match wrap_index (nth a (shape t) 0) index with
      | None => Raise (IndexError "select(): index out of range")
      | Some i =>
          Ok {| shape := remove_at a (shape t);
                item := fun idx => item t (insert_at a i idx) |}
      end
  end.

(** An elementwise map, e.g. [t.to(dtype)] or a per-field transform. *)
Definition tmap (f : T -> T) (t : tensor) : tensor :=
  {| shape := shape t; item := fun idx => f (item t idx) |}.

End WithElements.
Arguments insert_at {A} n x l.
Arguments remove_at {A} n l.
End Tensor.
Export Tensor.

(* ================================================================== *)
(** ** src/utilities/packer.py *)

Module Packer.
Section WithElements.
Variable T : Type.
Local Abbreviation tensor := (Tensor.tensor T).
Local Abbreviation dict := (Dict.dict tensor).

(** The instance attributes [__init__] assigns. *)
Record Packer : Type := mkPacker {
  names : list string;
  axis_pack : Z;
  axis_unpack : Z
}.

(** [Packer.__init__(names, axis=None, axis_pack=None, axis_unpack=None)] *)
Definition __init__ (names : list string) (axis axis_pack axis_unpack : option Z)
  : result Packer :=
  match axis with
  | Some ax =>
      match axis_pack with
      | Some _ => Raise (AssertionError "Cannot specify both axis and axis_pack")
      | None =>
          match axis_unpack with
          | Some _ => Raise (AssertionError "Cannot specify both axis and axis_unpack")
          | None => Ok (mkPacker names ax ax)
          end
      end
  | None =>
      match axis_pack with
      | None => Raise (AssertionError "Must specify either axis or axis_pack")
      | Some ap =>
          match axis_unpack with
          | None => Raise (AssertionError "Must specify either axis or axis_unpack")
          | Some au => Ok (mkPacker names ap au)
          end
      end
  end.

(** [@torch.jit.script]: the function runs in the TorchScript interpreter,
    which reports every failure of its body (a missing key, an axis or an
    index out of range) as a [RuntimeError]. *)
Definition scripted (A : Type) (body : result A) : result A :=
  match body with
  | Ok a => Ok a
  | Raise _ =>
      Raise (RuntimeError "The following operation failed in the TorchScript interpreter.")
  end.

(** [_pack], scripted: [torch.stack([tensors[n] for n in names], dim=axis)] *)
Definition _pack (tensors : dict) (names : list string) (axis : Z) : result tensor :=
  scripted (ts <- mapM (fun n => Dict.getitem n tensors) names ;;
            stack ts axis).

(** [_unpack], scripted:
    [{n: tensor.select(axis, index=i) for i, n in enumerate(names)}] *)
Definition _unpack (t : tensor) (names : list string) (axis : Z) : result dict :=
  scripted (items <- mapM (fun '(i, n) =>
                             s <- select t axis (Z.of_nat i) ;; Ok (n, s))
                          (enumerate names) ;;
            Ok (Dict.of_items items)).

Definition pack (self : Packer) (tensors : dict) (axis : option Z) : result tensor :=
  let axis := match axis with Some a => a | None => axis_pack self end in
  _pack tensors (names self) axis.

(** A [TensorDict]: the mapping and its declared batch size. *)
Record TensorDict : Type := mkTensorDict {
  td_items : dict;
  batch_size : list nat
}.

(** [packed_shape = list(tensor.shape); packed_shape.pop(axis)] *)
Definition pop_shape (sh : list nat) (axis : Z) : result (list nat) :=
  match wrap_index (List.length sh) axis with
  | Some a => Ok (remove_at a sh)
  | None => Raise (IndexError "pop index out of range")
  end.

Definition unpack (self : Packer) (t : tensor) (axis : option Z) : result TensorDict :=
  let axis := match axis with Some a => a | None => axis_unpack self end in
  packed_shape <- pop_shape (shape t) axis ;;
  items <- _unpack t (names self) axis ;;
  Ok (mkTensorDict items packed_shape).

Definition unpack_simple (self : Packer) (t : tensor) (axis : option Z) : result dict :=
  let axis := match axis with Some a => a | None => axis_unpack self end in
  _unpack t (names self) axis.

(** Values a serialised state can hold. *)
Inductive pyval : Type :=
| PyNames (ns : list string)
| PyInt (z : Z).

(** [getattr(self, name)] for the data attributes of an instance: exactly
    those [__init__] assigned. *)
Definition getattr (self : Packer) (name : string) : result pyval :=
  if String.eqb name "names" then Ok (PyNames (names self))
  else if String.eqb name "axis_pack" then Ok (PyInt (axis_pack self))
  else if String.eqb name "axis_unpack" then Ok (PyInt (axis_unpack self))
  else Raise (AttributeError name).

(** [get_state]: [{"names": self.names, "axis": self.axis}] *)
Definition get_state (self : Packer) : result (Dict.dict pyval) :=
  ns <- getattr self "names" ;;
  ax <- getattr self "axis" ;;
  Ok (Dict.of_items [("names", ns); ("axis", ax)]).

(** [from_state]: [Packer(state["names"], state["axis"])] *)
Definition from_state (state : Dict.dict pyval) : result Packer :=
  ns <- Dict.getitem "names" state ;;
  ax <- Dict.getitem "axis" state ;;
  match ns, ax with
  | PyNames ns, PyInt ax => __init__ ns (Some ax) None None
  | _, _ => Raise (RuntimeError "ill-typed state")
  end.

End WithElements.
End Packer.

(* ================================================================== *)
(** ** Real-valued tensor operations (the part of torch the code uses) *)

Module Torch.

Local Abbreviation rtensor := (tensor R).
Local Open Scope R_scope.

(** Broadcasting aligns shapes at their last axis; it is computed on the
    reversed shapes.  Two sizes are compatible when equal or when one is 1. *)
Fixpoint broadcast_rev (a b : list nat) : option (list nat) :=
  match a, b with
  | [], _ => Some b
  | _, [] => Some a
  | x :: a', y :: b' =>
      match broadcast_rev a' b' with
      | None => None
      | Some r =>
          if (x =? y)%nat then Some (x :: r)
          else if (x =? 1)%nat then Some (y :: r)
          else if (y =? 1)%nat then Some (x :: r)
          else None
      end
  end.

Definition broadcast_shapes (s1 s2 : list nat) : option (list nat) :=
  option_map (@rev nat) (broadcast_rev (rev s1) (rev s2)).

(** The index at which an operand of shape [s] is read for the result
    index [idx]: the trailing [len(s)] components, 0 along axes of size 1. *)
Definition bindex (s idx : list nat) : list nat :=
  map (fun '(n, i) => if (n =? 1)%nat then 0%nat else i)
      (combine s (skipn (List.length idx - List.length s) idx)).

(** An elementwise binary operation with broadcasting. *)
Definition binop (f : R -> R -> R) (t u : rtensor) : result rtensor :=
  match broadcast_shapes (shape t) (shape u) with
  | Some sh =>
      Ok {| shape := sh;
            item := fun idx => f (item t (bindex (shape t) idx))
                                 (item u (bindex (shape u) idx)) |}
  | None => Raise (RuntimeError "The size of tensor a must match the size of tensor b")
  end.

Definition add := binop Rplus.
Definition sub := binop Rminus.
Definition mul := binop Rmult.
Definition div := binop Rdiv.

(** [f 0 + f 1 + ... + f (n-1)] *)
Fixpoint rsum (f : nat -> R) (n : nat) : R :=
  match n with
  | O => 0
  | S m => rsum f m + f m
  end.

(** The double sum over [i < n], [j < m]. *)
Definition rsum2 (f : nat -> nat -> R) (n m : nat) : R :=
  rsum (fun i => rsum (fun j => f i j) m) n.

(** [t.sum(-1)]; a 0-dim tensor is its own sum. *)
Definition sum_last (t : rtensor) : rtensor :=
  match shape t with
  | [] => t
  | _ => {| shape := removelast (shape t);
            item := fun idx => rsum (fun k => item t (idx ++ [k])) (last (shape t) 0%nat) |}
  end.

(** [t.sum(dim=(-2, -1))] *)
Definition sum_last2 (t : rtensor) : result rtensor :=
  if (rank t <? 2)%nat
  then Raise (IndexError "Dimension out of range")
  else Ok (sum_last (sum_last t)).

(** [t.mean(dim=(-2, -1))] *)
Definition mean_last2 (t : rtensor) : result rtensor :=
  s <- sum_last2 t ;;
  let n := last (removelast (shape t)) 0%nat in
  let m := last (shape t) 0%nat in
  Ok (tmap (fun x => x / INR (n * m)) s).

(** [w.expand(sh)] *)
Definition expand (w : rtensor) (sh : list nat) : result rtensor :=
  match broadcast_shapes (shape w) sh with
  | Some r =>
      if shape_eqb r sh
      then Ok {| shape := sh; item := fun idx => item w (bindex (shape w) idx) |}
      else Raise (RuntimeError "The expanded size of the tensor must match the existing size")
  | None => Raise (RuntimeError "The expanded size of the tensor must match the existing size")
  end.

(** [t.unsqueeze(-1)] *)
Definition unsqueeze_last (t : rtensor) : rtensor :=
  {| shape := shape t ++ [1%nat]; item := fun idx => item t (removelast idx) |}.

(** [t[..., None, None]] *)
Definition index_none2 (t : rtensor) : rtensor :=
  {| shape := shape t ++ [1%nat; 1%nat];
     item := fun idx => item t (removelast (removelast idx)) |}.

(** [t.diff(dim=-1)], also [t.diff()]: first differences along the last axis. *)
Definition diff_last (t : rtensor) : result rtensor :=
  match shape t with
  | [] => Raise (RuntimeError "diff expects input to be at least one-dimensional")
  | _ =>
      Ok {| shape := removelast (shape t) ++ [(last (shape t) 0 - 1)%nat];
            item := fun idx =>
              item t (removelast idx ++ [S (last idx 0%nat)]) - item t idx |}
  end.

(** [len(t)] *)
Definition len (t : rtensor) : result Z :=
  match shape t with
  | [] => Raise (TypeError "len() of a 0-d tensor")
  | n :: _ => Ok (Z.of_nat n)
  end.

(** [t.shape[-1]] *)
Definition shape_last (t : rtensor) : result Z :=
  match shape t with
  | [] => Raise (IndexError "tuple index out of range")
  | _ => Ok (Z.of_nat (last (shape t) 0%nat))
  end.

End Torch.

(* ================================================================== *)
(** ** src/evaluation/metrics.py *)

Module Metrics.

Local Abbreviation rtensor := (tensor R).
Local Open Scope R_scope.

(** [GRAVITY = 9.80665] *)
Definition GRAVITY : R := 980665 / 100000.

(** [weighted_mean(tensor, weights, dim=(-2, -1))], with [keepdim] left at
    its default: every call of the corrector has this form.  A
    [RuntimeError] of the computation is raised again with the shapes in
    its message. *)
Definition weighted_mean (t : rtensor) (weights : option rtensor) : result rtensor :=
  match weights with
  | None => Torch.mean_last2 t
  | Some w =>
      match (tw <- Torch.mul t w ;;
             num <- Torch.sum_last2 tw ;;
             we <- Torch.expand w (shape t) ;;
             den <- Torch.sum_last2 we ;;
             Torch.div num den) with
      | Raise (RuntimeError _) => Raise (RuntimeError "Error computing weighted mean")
      | r => r
      end
  end.

(** [vertical_integral]: [(1 / g) * sum_k (dp_k * x_k)] with
    [dp = (ak + ps.unsqueeze(-1) * bk).diff(dim=-1)].  All tensors live on
    one device here, so the device check always passes. *)
Definition vertical_integral (integrand surface_pressure ak bk : rtensor) : result rtensor :=
  psbk <- Torch.mul (Torch.unsqueeze_last surface_pressure) bk ;;
  p <- Torch.add ak psbk ;;
  pressure_thickness <- Torch.diff_last p ;;
  prod <- Torch.mul pressure_thickness integrand ;;
  let integral := Torch.sum_last prod in
  Ok (tmap (fun x => 1 / GRAVITY * x) integral).

Definition surface_pressure_due_to_dry_air
    (specific_total_water surface_pressure ak bk : rtensor) : result rtensor :=
  len_ak <- Torch.len ak ;;
  let num_levels := (len_ak - 1)%Z in
  len_bk <- Torch.len bk ;;
  levels_ok <- (if negb (num_levels =? len_bk - 1)%Z then Ok false
                else wl <- Torch.shape_last specific_total_water ;;
                     Ok (num_levels =? wl)%Z) ;;
  if negb levels_ok
  then Raise (ValueError "Number of vertical levels in ak, bk, and specific_total_water mustbe the same.")
  else
    total_water_path <- vertical_integral specific_total_water surface_pressure ak bk ;;
    gtwp <- Ok (tmap (fun x => GRAVITY * x) total_water_path) ;;
    Torch.sub surface_pressure gtwp.

(** [torch.deg2rad] *)
Definition deg2rad (x : R) : R := x * PI / 180.

(** [spherical_area_weights(lats, num_lon)], for the latitudes of the cell
    centres given as the elements of a tensor of shape [(num_lat,)]:
    [cos(deg2rad(lats))] repeated along [num_lon] longitudes, then divided
    in place by its sum. *)
Definition spherical_area_weights (lats : list R) (num_lon : nat) : rtensor :=
  let num_lat := List.length lats in
  let weights := fun i : nat => cos (deg2rad (nth i lats 0)) in
  let total := Torch.rsum2 (fun i _ => weights i) num_lat num_lon in
  {| shape := [num_lat; num_lon];
     item := fun idx => weights (nth 0 idx 0%nat) / total |}.

(** The metrics below are modelled as the aggregator calls them, with
    [dim=(-2, -1)]. *)

(** [weighted_mean_bias(truth, predicted, weights, dim=(-2, -1))] *)
Definition weighted_mean_bias (truth predicted : rtensor) (weights : option rtensor)
  : result rtensor :=
  if negb (shape_eqb (shape truth) (shape predicted))
  then Raise (AssertionError "Truth and predicted should have the same shape.")
  else
    bias <- Torch.sub predicted truth ;;
    weighted_mean bias weights.

(** The text of a [torch.Size] in an f-string. *)
Definition repr_size (sh : list nat) : string :=
  ("torch.Size(["
   ++ String.concat ", " (map (fun n => NilZero.string_of_uint (Nat.to_uint n)) sh)
   ++ "])")%string.

(** [mean_squared_error(truth, predicted, weights, dim=(-2, -1))] *)
Definition mean_squared_error (truth predicted : rtensor) (weights : option rtensor)
  : result rtensor :=
  if negb (shape_eqb (shape truth) (shape predicted))
  then Raise (AssertionError
                ("Truth and predicted should have the same shape. But got "
                 ++ repr_size (shape truth) ++ " and " ++ repr_size (shape predicted)
                 ++ "."))
  else
    diff <- Torch.sub predicted truth ;;
    let sq_bias := tmap (fun x => x * x) diff in
    weighted_mean sq_bias weights.

(** [root_mean_squared_error(truth, predicted, weights, dim=(-2, -1))] *)
Definition root_mean_squared_error (truth predicted : rtensor) (weights : option rtensor)
  : result rtensor :=
  mse <- mean_squared_error truth predicted weights ;;
  Ok (tmap sqrt mse).

End Metrics.

(* ================================================================== *)
(** ** src/ace_inference/core/aggregator/climate_data.py *)

Module ClimateData.

Local Abbreviation rtensor := (tensor R).
Local Abbreviation dict := (Dict.dict rtensor).
Local Open Scope R_scope.

Definition CLIMATE_FIELD_NAME_PREFIXES : Dict.dict (list string) :=
  [ ("specific_total_water", ["specific_total_water_"]);
    ("surface_pressure", ["PRESsfc"; "PS"]);
    ("tendency_of_total_water_path_due_to_advection",
       ["tendency_of_total_water_path_due_to_advection"]);
    ("latent_heat_flux", ["LHTFLsfc"; "LHFLX"]);
    ("sensible_heat_flux", ["SHTFLsfc"]);
    ("precipitation_rate", ["PRATEsfc"; "surface_precipitation_rate"]);
    ("sfc_down_sw_radiative_flux", ["DSWRFsfc"]);
    ("sfc_up_sw_radiative_flux", ["USWRFsfc"]);
    ("sfc_down_lw_radiative_flux", ["DLWRFsfc"]);
    ("sfc_up_lw_radiative_flux", ["ULWRFsfc"]) ].
Arguments CLIMATE_FIELD_NAME_PREFIXES : simpl never.

(** *** natural_sort *)

Definition is_digit (c : ascii) : bool :=
  let n := nat_of_ascii c in ((48 <=? n) && (n <=? 57))%nat.

Definition lower_ascii (c : ascii) : ascii :=
  let n := nat_of_ascii c in
  if ((65 <=? n) && (n <=? 90))%nat then ascii_of_nat (n + 32) else c.

(** One component of a sort key: [convert] yields an [int] for a run of
    digits and the lower-cased text otherwise. *)
Inductive key_part : Type :=
| KInt (n : N)
| KStr (s : list ascii).

Definition int_of_digits (ds : list ascii) : N :=
  fold_left (fun acc c => (10 * acc + N.of_nat (nat_of_ascii c - 48))%N) ds 0%N.

(** [re.split("([0-9]+)", item)] followed by [convert]: the pieces
    alternate between text (possibly empty, and first) and maximal runs of
    digits.  [cur] is the piece being read, reversed; [in_digits] tells
    which kind it is. *)
Fixpoint split_convert (cs : list ascii) (cur : list ascii) (in_digits : bool)
  : list key_part :=
  match cs with
  | [] =>
      if in_digits then [KInt (int_of_digits (rev cur)); KStr []]
      else [KStr (map lower_ascii (rev cur))]
  | c :: cs' =>
      if Bool.eqb (is_digit c) in_digits
      then split_convert cs' (c :: cur) in_digits
      else if in_digits
           then KInt (int_of_digits (rev cur)) :: split_convert cs' [c] false
           else KStr (map lower_ascii (rev cur)) :: split_convert cs' [c] true
  end.

Definition alphanum_key (item : string) : list key_part :=
  split_convert (list_ascii_of_string item) [] false.

Fixpoint str_compare (a b : list ascii) : comparison :=
  match a, b with
  | [], [] => Eq
  | [], _ => Lt
  | _, [] => Gt
  | x :: a', y :: b' =>
      match Nat.compare (nat_of_ascii x) (nat_of_ascii y) with
      | Eq => str_compare a' b'
      | c => c
      end
  end.

(** Keys alternate text and number from the same start, so components at
    one position have one kind; a text is placed before a number otherwise. *)
Definition part_compare (a b : key_part) : comparison :=
  match a, b with
  | KInt m, KInt n => N.compare m n
  | KStr s, KStr t => str_compare s t
  | KStr _, KInt _ => Lt
  | KInt _, KStr _ => Gt
  end.

Fixpoint key_compare (a b : list key_part) : comparison :=
  match a, b with
  | [], [] => Eq
  | [], _ => Lt
  | _, [] => Gt
  | x :: a', y :: b' =>
      match part_compare x y with
      | Eq => key_compare a' b'
      | c => c
      end
  end.

(** Insertion behind every element that is not greater: the sort is stable,
    as [sorted] is. *)
Fixpoint insert_sorted (x : string) (l : list string) : list string :=
  match l with
  | [] => [x]
  | y :: l' =>
      match key_compare (alphanum_key x) (alphanum_key y) with
      | Lt => x :: y :: l'
      | _ => y :: insert_sorted x l'
      end
  end.

Definition natural_sort (alist : list string) : list string :=
  fold_left (fun acc x => insert_sorted x acc) alist [].

(** *** The view *)

Record ClimateData : Type := mkClimateData {
  _data : dict;
  _prefixes : Dict.dict (list string)
}.

(** [ClimateData(climate_data)]: [self._data = dict(climate_data)] is a
    dictionary of its own, holding the bindings of [climate_data]. *)
Definition __init__ (climate_data : dict) : ClimateData :=
  mkClimateData climate_data CLIMATE_FIELD_NAME_PREFIXES.

Definition startswith (s p : string) : bool := String.prefix p s.

(** The [repr] of a list of strings, the argument of [KeyError(name)] in
    [_extract_levels]. *)
Definition repr_list (l : list string) : string :=
  ("[" ++ String.concat ", " (map (fun s => "'" ++ s ++ "'") l) ++ "]")%string.

Definition _extract_prefix_levels (self : ClimateData) (prefix : string) : result rtensor :=
  let names := filter (fun field_name => startswith field_name prefix)
                      (Dict.keys (_data self)) in
  if (List.length names =? 0)%nat then Raise (KeyError prefix)
  else
    let names := natural_sort names in
    ts <- mapM (fun name => Dict.getitem name (_data self)) names ;;
    stack ts (-1).

Fixpoint _extract_levels_loop (self : ClimateData) (prefixes : list string)
    (name : list string) : result rtensor :=
  match prefixes with
  | [] => Raise (KeyError (repr_list name))
  | prefix :: rest =>
      match _extract_prefix_levels self prefix with
      | Raise (KeyError _) => _extract_levels_loop self rest name
      | r => r
      end
  end.

Definition _extract_levels (self : ClimateData) (name : list string) : result rtensor :=
  _extract_levels_loop self name name.

Definition _get_prefix (self : ClimateData) (prefix : string) : result rtensor :=
  Dict.getitem prefix (_data self).

Fixpoint _get_loop (self : ClimateData) (prefixes : list string) (name : string)
  : result rtensor :=
  match prefixes with
  | [] => Raise (KeyError name)
  | prefix :: rest =>
      if Dict.contains prefix (_data self) then _get_prefix self prefix
      else _get_loop self rest name
  end.

Definition _get (self : ClimateData) (name : string) : result rtensor :=
  prefixes <- Dict.getitem name (_prefixes self) ;;
  _get_loop self prefixes name.

(** The alias [_get] and [_set] settle on: the first one bound in the data. *)
Fixpoint resolve_alias (d : dict) (prefixes : list string) : option string :=
  match prefixes with
  | [] => None
  | prefix :: rest =>
      if Dict.contains prefix d then Some prefix else resolve_alias d rest
  end.

Definition _set_prefix (self : ClimateData) (prefix : string) (value : rtensor) : ClimateData :=
  mkClimateData (Dict.setitem prefix value (_data self)) (_prefixes self).

Fixpoint _set_loop (self : ClimateData) (prefixes : list string) (name : string)
    (value : rtensor) : result ClimateData :=
  match prefixes with
  | [] => Raise (KeyError name)
  | prefix :: rest =>
      if Dict.contains prefix (_data self) then Ok (_set_prefix self prefix value)
      else _set_loop self rest name value
  end.

(** A setter returns the view after the assignment. *)
Definition _set (self : ClimateData) (name : string) (value : rtensor) : result ClimateData :=
  prefixes <- Dict.getitem name (_prefixes self) ;;
  _set_loop self prefixes name value.

Definition data (self : ClimateData) : dict := _data self.

Definition specific_total_water (self : ClimateData) : result rtensor :=
  prefix <- Dict.getitem "specific_total_water" (_prefixes self) ;;
  _extract_levels self prefix.

Definition surface_pressure (self : ClimateData) : result rtensor :=
  _get self "surface_pressure".

Definition set_surface_pressure (self : ClimateData) (value : rtensor) :=
  _set self "surface_pressure" value.

(** [SigmaCoordinates]: the hybrid-level offsets, each of length
    [n_levels + 1]. *)
Record SigmaCoordinates : Type := mkSigmaCoordinates {
  ak : rtensor;
  bk : rtensor
}.

Definition surface_pressure_due_to_dry_air (self : ClimateData)
    (sigma_coordinates : SigmaCoordinates) : result rtensor :=
  wat <- specific_total_water self ;;
  ps <- surface_pressure self ;;
  Metrics.surface_pressure_due_to_dry_air wat ps (ak sigma_coordinates) (bk sigma_coordinates).

Definition total_water_path (self : ClimateData)
    (sigma_coordinates : SigmaCoordinates) : result rtensor :=
  wat <- specific_total_water self ;;
  ps <- surface_pressure self ;;
  Metrics.vertical_integral wat ps (ak sigma_coordinates) (bk sigma_coordinates).

Definition precipitation_rate (self : ClimateData) : result rtensor :=
  _get self "precipitation_rate".

Definition set_precipitation_rate (self : ClimateData) (value : rtensor) :=
  _set self "precipitation_rate" value.

Definition latent_heat_flux (self : ClimateData) : result rtensor :=
  _get self "latent_heat_flux".

Definition set_latent_heat_flux (self : ClimateData) (value : rtensor) :=
  _set self "latent_heat_flux" value.

Definition tendency_of_total_water_path_due_to_advection (self : ClimateData)
  : result rtensor :=
  _get self "tendency_of_total_water_path_due_to_advection".

Definition set_tendency_of_total_water_path_due_to_advection
    (self : ClimateData) (value : rtensor) :=
  _set self "tendency_of_total_water_path_due_to_advection" value.

Section Constants.
(** [LATENT_HEAT_OF_VAPORIZATION], a constant of [core.constants]. *)
Variable LATENT_HEAT_OF_VAPORIZATION : R.

(** [lhf / LATENT_HEAT_OF_VAPORIZATION] *)
Definition evaporation_rate (self : ClimateData) : result rtensor :=
  lhf <- _get self "latent_heat_flux" ;;
  Ok (tmap (fun x => x / LATENT_HEAT_OF_VAPORIZATION) lhf).

Definition set_evaporation_rate (self : ClimateData) (value : rtensor) :=
  _set self "latent_heat_flux" (tmap (fun x => x * LATENT_HEAT_OF_VAPORIZATION) value).

End Constants.

End ClimateData.

(* ================================================================== *)
(** ** The quantities of the specification, written out

    The corrector's properties are measured with these formulas, not with
    the functions the corrector itself calls. *)

Module Formula.

Local Open Scope R_scope.

(** Global mean: the area-weighted average over the [n x m] grid,
    [sum_ij (w_ij * x_ij) / sum_ij w_ij]. *)
Definition global_mean (area : tensor R) (n m : nat) (x : nat -> nat -> R) : R :=
  Torch.rsum2 (fun i j => item area [i; j] * x i j) n m
  / Torch.rsum2 (fun i j => item area [i; j]) n m.

(** Total water path of the column [c] with [K] levels:
    [(1 / g) * sum_k (dp_k * q_k)] with
    [dp_k = (ak_(k+1) - ak_k) + (bk_(k+1) - bk_k) * surface_pressure]. *)
Definition total_water_path (sigma : ClimateData.SigmaCoordinates) (K : nat)
    (ps wat : tensor R) (c : list nat) : R :=
  1 / Metrics.GRAVITY *
  Torch.rsum (fun k =>
                ((item (ClimateData.ak sigma) [S k] - item (ClimateData.ak sigma) [k])
                 + (item (ClimateData.bk sigma) [S k] - item (ClimateData.bk sigma) [k])
                   * item ps c)
                * item wat (c ++ [k])) K.

(** Dry air of the column [c]: [surface_pressure - g * total_water_path]. *)
Definition dry_air (sigma : ClimateData.SigmaCoordinates) (K : nat)
    (ps wat : tensor R) (c : list nat) : R :=
  item ps c - Metrics.GRAVITY * total_water_path sigma K ps wat c.

End Formula.

(* ================================================================== *)
(** ** Mappings as shared objects

    [ClimateData.__init__] receives a reference to the caller's mapping and
    stores [dict(climate_data)], a new dictionary.  To tell the two apart,
    mappings live in a store and are named by their address. *)

Module Store.

Local Abbreviation rtensor := (tensor R).
Local Abbreviation dict := (Dict.dict rtensor).

Definition addr := nat.
Definition store := list dict.

Definition deref (s : store) (a : addr) : result dict :=
  match nth_error s a with
  | Some d => Ok d
  | None => Raise (RuntimeError "dangling reference")
  end.

Fixpoint assign (s : store) (a : addr) (d : dict) : store :=
  match s, a with
  | [], _ => []
  | _ :: s', O => d :: s'
  | d0 :: s', S a' => d0 :: assign s' a' d
  end.

(** A [ClimateData] object: the address of its [_data] and its prefix table. *)
Record view : Type := mkView {
  _data : addr;
  _prefixes : Dict.dict (list string)
}.

(** [ClimateData(climate_data)]: [self._data = dict(climate_data)] allocates
    a dictionary with the bindings of the argument. *)
Definition __init__ (climate_data : addr) (s : store) : result (view * store) :=
  d <- deref s climate_data ;;
  Ok (mkView (List.length s) ClimateData.CLIMATE_FIELD_NAME_PREFIXES, s ++ [d]).

(** [self._set(name, value)]: [self._data[prefix] = value] for the first
    alias present in [self._data]. *)
Definition _set (self : view) (name : string) (value : rtensor) (s : store)
  : result store :=
  d <- deref s (_data self) ;;
  cd <- ClimateData._set (ClimateData.mkClimateData d (_prefixes self)) name value ;;
  Ok (assign s (_data self) (ClimateData._data cd)).

(** [self._get(name)] *)
Definition _get (self : view) (name : string) (s : store) : result rtensor :=
  d <- deref s (_data self) ;;
  ClimateData._get (ClimateData.mkClimateData d (_prefixes self)) name.

(** The [data] property returns [self._data] itself. *)
Definition data (self : view) : addr := _data self.

End Store.

(* ================================================================== *)
(** ** src/ace_inference/core/corrector.py

    Each stage wraps its arguments in [ClimateData], which works on
    dictionaries of its own, and returns [gen.data]: the mappings passed in
    are only read, so the stages are functions on dictionary values. *)

Module Corrector.

Local Abbreviation rtensor := (tensor R).
Local Abbreviation dict := (Dict.dict rtensor).
Local Open Scope R_scope.

Record CorrectorConfig : Type := mkCorrectorConfig {
  conserve_dry_air : bool;
  zero_global_mean_moisture_advection : bool;
  moisture_budget_correction : option string
}.

(** What a Python expression can evaluate to where the code tests
    [... is None]. *)
Inductive pyobj : Type :=
| PyNone
| PyTensor (t : rtensor).

Definition is_None (o : pyobj) : bool :=
  match o with PyNone => true | PyTensor _ => false end.

Definition endswith (s suffix : string) : bool :=
  let n := String.length s in
  let m := String.length suffix in
  ((m <=? n)%nat && String.eqb (substring (n - m) m s) suffix)%bool.

Section Constants.
(** Two constants of [core.constants]. *)
Variable TIMESTEP_SECONDS : R.
Variable LATENT_HEAT_OF_VAPORIZATION : R.

Definition _force_conserve_dry_air (input_data gen_data : dict) (area : rtensor)
    (sigma_coordinates : ClimateData.SigmaCoordinates) : result dict :=
  let input := ClimateData.__init__ input_data in
  sp <- ClimateData.surface_pressure input ;;
  if is_None (PyTensor sp)
  then Raise (ValueError "surface_pressure is required to force dry air conservation")
  else
    let gen := ClimateData.__init__ gen_data in
    gen_dry_air <- ClimateData.surface_pressure_due_to_dry_air gen sigma_coordinates ;;
    global_gen_dry_air <- Metrics.weighted_mean gen_dry_air (Some area) ;;
    input_dry_air <- ClimateData.surface_pressure_due_to_dry_air input sigma_coordinates ;;
    global_target_gen_dry_air <- Metrics.weighted_mean input_dry_air (Some area) ;;
    error <- Torch.sub global_gen_dry_air global_target_gen_dry_air ;;
    new_gen_dry_air <- Torch.sub gen_dry_air (Torch.index_none2 error) ;;
    wat <- match ClimateData.specific_total_water gen with
           | Raise (KeyError _) =>
               Raise (ValueError "specific_total_water is required for conservation")
           | r => r
           end ;;
    ak_diff <- Torch.diff_last (ClimateData.ak sigma_coordinates) ;;
    bk_diff <- Torch.diff_last (ClimateData.bk sigma_coordinates) ;;
    akw <- Torch.mul ak_diff wat ;;
    num <- Torch.add new_gen_dry_air (Torch.sum_last akw) ;;
    bkw <- Torch.mul bk_diff wat ;;
    new_pressure <- Torch.div num (tmap (fun x => 1 - x) (Torch.sum_last bkw)) ;;
    (* [.to(dtype=input.surface_pressure.dtype)]: one dtype here *)
    _ <- ClimateData.surface_pressure input ;;
    gen' <- ClimateData.set_surface_pressure gen new_pressure ;;
    Ok (ClimateData.data gen').

Definition _force_zero_global_mean_moisture_advection (gen_data : dict) (area : rtensor)
  : result dict :=
  let gen := ClimateData.__init__ gen_data in
  adv <- ClimateData.tendency_of_total_water_path_due_to_advection gen ;;
  mean_moisture_advection <- Metrics.weighted_mean adv (Some area) ;;
  adv' <- ClimateData.tendency_of_total_water_path_due_to_advection gen ;;
  new <- Torch.sub adv' (Torch.index_none2 mean_moisture_advection) ;;
  gen' <- ClimateData.set_tendency_of_total_water_path_due_to_advection gen new ;;
  Ok (ClimateData.data gen').

Definition _force_conserve_moisture (input_data gen_data : dict) (area : rtensor)
    (sigma_coordinates : ClimateData.SigmaCoordinates) (terms_to_modify : string)
  : result dict :=
  let evaporation_rate := ClimateData.evaporation_rate LATENT_HEAT_OF_VAPORIZATION in
  let input := ClimateData.__init__ input_data in
  let gen := ClimateData.__init__ gen_data in
  gen_total_water_path <- ClimateData.total_water_path gen sigma_coordinates ;;
  input_total_water_path <- ClimateData.total_water_path input sigma_coordinates ;;
  twp_diff <- Torch.sub gen_total_water_path input_total_water_path ;;
  let twp_total_tendency := tmap (fun x => x / TIMESTEP_SECONDS) twp_diff in
  twp_tendency_global_mean <- Metrics.weighted_mean twp_total_tendency (Some area) ;;
  evap <- evaporation_rate gen ;;
  evaporation_global_mean <- Metrics.weighted_mean evap (Some area) ;;
  precip <- ClimateData.precipitation_rate gen ;;
  precipitation_global_mean <- Metrics.weighted_mean precip (Some area) ;;
  gen <- (if endswith terms_to_modify "precipitation" then
            new_precipitation_global_mean <-
              Torch.sub evaporation_global_mean twp_tendency_global_mean ;;
            precip <- ClimateData.precipitation_rate gen ;;
            ratio <- Torch.div new_precipitation_global_mean precipitation_global_mean ;;
            new <- Torch.mul precip (Torch.index_none2 ratio) ;;
            ClimateData.set_precipitation_rate gen new
          else if endswith terms_to_modify "evaporation" then
            new_evaporation_global_mean <-
              Torch.add twp_tendency_global_mean precipitation_global_mean ;;
            evap <- evaporation_rate gen ;;
            ratio <- Torch.div new_evaporation_global_mean evaporation_global_mean ;;
            new <- Torch.mul evap (Torch.index_none2 ratio) ;;
            ClimateData.set_evaporation_rate LATENT_HEAT_OF_VAPORIZATION gen new
          else Ok gen) ;;
  gen <- (if ClimateData.startswith terms_to_modify "advection" then
            evap <- evaporation_rate gen ;;
            precip <- ClimateData.precipitation_rate gen ;;
            budget <- Torch.sub evap precip ;;
            new_advection <- Torch.sub twp_total_tendency budget ;;
            ClimateData.set_tendency_of_total_water_path_due_to_advection gen new_advection
          else Ok gen) ;;
  Ok (ClimateData.data gen).

Record Corrector : Type := mkCorrector {
  _config : CorrectorConfig;
  _area : rtensor;
  _sigma_coordinates : ClimateData.SigmaCoordinates
}.

(** [CorrectorConfig.build] *)
Definition build (config : CorrectorConfig) (area : rtensor)
    (sigma_coordinates : ClimateData.SigmaCoordinates) : Corrector :=
  mkCorrector config area sigma_coordinates.

Definition __call__ (self : Corrector) (input_data gen_data : dict) : result dict :=
  gen_data <- (if conserve_dry_air (_config self)
               then _force_conserve_dry_air input_data gen_data (_area self)
                      (_sigma_coordinates self)
               else Ok gen_data) ;;
  gen_data <- (if zero_global_mean_moisture_advection (_config self)
               then _force_zero_global_mean_moisture_advection gen_data (_area self)
               else Ok gen_data) ;;
  match moisture_budget_correction (_config self) with
  | Some terms_to_modify =>
      _force_conserve_moisture input_data gen_data (_area self)
        (_sigma_coordinates self) terms_to_modify
  | None => Ok gen_data
  end.

End Constants.

End Corrector.

(* ================================================================== *)
(** ** src/ace_inference/core/stepper.py *)

Module Stepper.

Section WithCollaborators.
(** Tensor elements, and the values of a loss. *)
Variable T : Type.
Variable L : Type.
Variable loss_zero : L.
Variable loss_add : L -> L -> L.
(** [torch.tensor(torch.nan)] *)
Variable loss_nan : L.

Local Abbreviation tensor := (Tensor.tensor T).
Local Abbreviation dict := (Dict.dict tensor).

(** Modelled from the spec: [core.normalizer] is not part of the sources;
    the specification describes the normaliser as a per-field affine
    transform between values and standardised values.  It is taken here as
    any per-field elementwise transform, applied to every field of a
    mapping. *)
Variable norm_fn : string -> T -> T.
Variable denorm_fn : string -> T -> T.

Definition normalize (tensors : dict) : dict :=
  map (fun '(k, t) => (k, tmap (norm_fn k) t)) tensors.

Definition denormalize (tensors : dict) : dict :=
  map (fun '(k, t) => (k, tmap (denorm_fn k) t)) tensors.

(** The network, [module(input_tensor_norm)]. *)
Variable module : tensor -> result tensor.
(** [loss_obj(gen_tensor_norm, target_tensor_norm)] *)
Variable loss_obj : tensor -> tensor -> L.
(** [corrector(input_data, gen_data)], when a corrector is configured. *)
Variable corrector : option (dict -> dict -> result dict).
(** [ocean.target_names] and [ocean(target_data, input_data, gen_data)],
    when an ocean is configured. *)
Variable ocean : option (list string * (dict -> dict -> dict -> result dict)).
(** [conservation_loss(gen_data)]: its metrics and its loss. *)
Variable conservation_loss : dict -> Dict.dict L * L.

Variable in_packer out_packer : Packer.Packer.

Inductive norm_mode : Type := norm | denorm.

Definition quote : string := String (ascii_of_nat 34) EmptyString.

Definition str_of_Z (z : Z) : string := NilZero.string_of_int (Z.to_int z).

(** [get_name_and_time_query_fn(data, data_norm, time_dim)]: a missing
    name is a [KeyError]; an [IndexError] of [select] becomes a
    [ValueError]. *)
Definition name_and_time_query_fn (data data_norm : dict) (time_dim : Z)
    (names : list string) (time_index : Z) (mode : norm_mode) : result dict :=
  let _data := match mode with norm => data_norm | denorm => data end in
  items <- mapM (fun name =>
                   t <- Dict.getitem name _data ;;
                   match select t time_dim time_index with
                   | Raise (IndexError _) =>
                       Raise (ValueError ("tensor " ++ quote ++ name ++ quote ++
                                          " does not have values at t=" ++
                                          str_of_Z time_index)%string)
                   | Raise e => Raise e
                   | Ok s => Ok (name, s)
                   end)
                names ;;
  Ok (Dict.of_items items).

(** [_pack_data_if_available]: [None] when packing raises [ValueError];
    any other exception passes through. *)
Definition _pack_data_if_available (packer : Packer.Packer) (data : dict) (axis : Z)
  : result (option tensor) :=
  match Packer.pack packer data (Some axis) with
  | Ok t => Ok (Some t)
  | Raise e => if is_ValueError e then Ok None else Raise e
  end.

(** What the loop of [run_on_batch] carries from one step to the next. *)
Record loop_state : Type := mkLoopState {
  loss : L;
  metrics : Dict.dict L;
  input_data_norm : dict;
  gen_data_norm : list dict
}.

Definition channel_dim : Z := (-3)%Z.
Definition time_dim : Z := 1%Z.

(** [list(set(in_packer.names).difference(gen_norm.keys()))]: each name
    once.  The order of a Python set is unspecified; the order of first
    occurrence is used here, and no result below depends on it. *)
Definition forcing_names_of (in_names : list string) (gen_norm : dict) : list string :=
  filter (fun n => negb (Dict.contains n gen_norm)) (nodup string_dec in_names).

(** One iteration of [for step in range(n_forward_steps)]. *)
Definition step_body (data full_data_norm : dict) (full_target_tensor_norm : option tensor)
    (step : nat) (st : loop_state) : result loop_state :=
  let get_input_data := name_and_time_query_fn data full_data_norm time_dim in
  input_tensor_norm <- Packer.pack in_packer (input_data_norm st) (Some channel_dim) ;;
  target_tensor_norm <-
    match full_target_tensor_norm with
    | None => Ok None
    | Some full => t <- select full time_dim (Z.of_nat step + 1) ;; Ok (Some t)
    end ;;
  gen_tensor_norm <- module input_tensor_norm ;;
  gen_norm <- Packer.unpack out_packer gen_tensor_norm (Some channel_dim) ;;
  let gen_data := denormalize (Packer.td_items gen_norm) in
  let input_data := denormalize (input_data_norm st) in
  gen_data <- match corrector with
              | Some c => c input_data gen_data
              | None => Ok gen_data
              end ;;
  gen_data <- match ocean with
              | Some (target_names, oc) =>
                  target_data <- get_input_data target_names (Z.of_nat step + 1)%Z denorm ;;
                  oc target_data input_data gen_data
              | None => Ok gen_data
              end ;;
  let gen_norm := normalize gen_data in
  gen_tensor_norm <- Packer.pack out_packer gen_norm (Some channel_dim) ;;
  let step_loss := match target_tensor_norm with
                   | None => loss_nan
                   | Some target => loss_obj gen_tensor_norm target
                   end in
  let loss := loss_add (loss st) step_loss in
  let metrics := Dict.setitem ("loss_step_" ++ str_of_Z (Z.of_nat step))%string
                              step_loss (metrics st) in
  gen_norm <- Packer.unpack out_packer gen_tensor_norm (Some channel_dim) ;;
  let gen_norm := Packer.td_items gen_norm in
  let gen_data_norm := gen_data_norm st ++ [gen_norm] in
  let forcing_names := forcing_names_of (Packer.names in_packer) gen_norm in
  forcing_data_norm <- get_input_data forcing_names (Z.of_nat step + 1)%Z norm ;;
  let input_data_norm := Dict.merge forcing_data_norm gen_norm in
  Ok (mkLoopState loss metrics input_data_norm gen_data_norm).

(** The generated state of a step at the point where the loop body packs it
    for the loss: the module's output unpacked and denormalised, then
    corrected, then prescribed by the ocean, then renormalised (the lines of
    [step_body] from [module(...)] to [normalizer.normalize(gen_data)]). *)
Definition generated_state (data full_data_norm : dict) (step : nat) (st : loop_state)
  : result dict :=
  let get_input_data := name_and_time_query_fn data full_data_norm time_dim in
  input_tensor_norm <- Packer.pack in_packer (input_data_norm st) (Some channel_dim) ;;
  gen_tensor_norm <- module input_tensor_norm ;;
  gen_norm <- Packer.unpack out_packer gen_tensor_norm (Some channel_dim) ;;
  let gen_data := denormalize (Packer.td_items gen_norm) in
  let input_data := denormalize (input_data_norm st) in
  gen_data <- match corrector with
              | Some c => c input_data gen_data
              | None => Ok gen_data
              end ;;
  gen_data <- match ocean with
              | Some (target_names, oc) =>
                  target_data <- get_input_data target_names (Z.of_nat step + 1)%Z denorm ;;
                  oc target_data input_data gen_data
              | None => Ok gen_data
              end ;;
  Ok (normalize gen_data).

Fixpoint run_steps (data full_data_norm : dict) (full_target_tensor_norm : option tensor)
    (steps : list nat) (st : loop_state) : result loop_state :=
  match steps with
  | [] => Ok st
  | step :: rest =>
      st' <- step_body data full_data_norm full_target_tensor_norm step st ;;
      run_steps data full_data_norm full_target_tensor_norm rest st'
  end.

Record SteppedData : Type := mkSteppedData {
  sd_metrics : Dict.dict L;
  gen_data : dict;
  target_data : dict;
  sd_gen_data_norm : dict;
  target_data_norm : dict
}.

(** The state with which the loop starts. *)
Definition initial_state (data full_data_norm : dict) : result loop_state :=
  input_data_norm <- name_and_time_query_fn data full_data_norm time_dim
                       (Packer.names in_packer) 0 norm ;;
  Ok (mkLoopState loss_zero [] input_data_norm []).

(** [run_on_batch].  The optimisation object, the aggregator and the
    progress bar act outside the values computed here. *)
Definition run_on_batch (data : dict) (n_forward_steps : nat) : result SteppedData :=
  let full_data_norm := normalize data in
  let get_input_data := name_and_time_query_fn data full_data_norm time_dim in
  full_target_tensor_norm <- _pack_data_if_available out_packer full_data_norm channel_dim ;;
  st0 <- initial_state data full_data_norm ;;
  st <- run_steps data full_data_norm full_target_tensor_norm
          (seq 0 n_forward_steps) st0 ;;
  initial <- get_input_data (Packer.names out_packer) 0%Z norm ;;
  let gen_data_norm := initial :: gen_data_norm st in
  items <- mapM (fun name =>
                   xs <- mapM (fun x => Dict.getitem name x) gen_data_norm ;;
                   t <- stack xs time_dim ;;
                   Ok (name, t))
                (Packer.names out_packer) ;;
  let gen_data_norm_timeseries := Dict.of_items items in
  let gen_data := denormalize gen_data_norm_timeseries in
  let '(conservation_metrics, conservation_loss_value) := conservation_loss gen_data in
  let metrics := Dict.merge (metrics st) conservation_metrics in
  let loss := loss_add (loss st) conservation_loss_value in
  let metrics := Dict.setitem "loss" loss metrics in
  Ok (mkSteppedData metrics gen_data data gen_data_norm_timeseries full_data_norm).

End WithCollaborators.

End Stepper.
(* ================================================================== *)
(** ** Concrete inputs used by the examples below *)

Module Examples.

Definition roundtrip_packer : Packer.Packer := Packer.mkPacker ["PS"; "T_0"] (-3) (-3).

Definition roundtrip_fields : Dict.dict (tensor nat) :=
  [("T_0", mkTensor [2; 3] (fun idx => 10 * nth 0 idx 0 + nth 1 idx 0));
   ("PS", mkTensor [2; 3] (fun idx => 100 + nth 1 idx 0))].

(** The same fields next to one the packer does not name. *)
Definition roundtrip_fields_more : Dict.dict (tensor nat) :=
  ("Q", mkTensor [2; 3] (fun _ => 7)) :: roundtrip_fields.

(** A packed tensor with two channels along the axis [-3]. *)
Definition roundtrip_packed : tensor nat :=
  mkTensor [2; 2; 3] (fun idx => 100 * nth 0 idx 0 + 10 * nth 1 idx 0 + nth 2 idx 0).

(** A mapping with a one-cell surface pressure, and a replacement value. *)
Definition scalar_field (x : R) : tensor R := mkTensor [] (fun _ => x).

Definition callers_mapping : Dict.dict (tensor R) := [("PS", scalar_field 1000)].

(** A rollout over integers: one sample on a 1 x 1 grid, three time
    levels; the field "a" is predicted, the field "f" is a forcing.  The
    network keeps channel 0 of its input; the loss is an optional integer,
    [None] standing for NaN. *)
Definition toy_data : Dict.dict (tensor Z) :=
  [("a", mkTensor [1; 3; 1; 1] (fun idx => Z.of_nat (nth 1 idx 0)));
   ("f", mkTensor [1; 3; 1; 1] (fun idx => (10 + Z.of_nat (nth 1%nat idx 0%nat))%Z))].

Definition toy_in_packer : Packer.Packer := Packer.mkPacker ["a"; "f"] (-3) (-3).
Definition toy_out_packer : Packer.Packer := Packer.mkPacker ["a"] (-3) (-3).

Definition toy_module (t : tensor Z) : result (tensor Z) :=
  s <- select t (-3) 0 ;; stack [s] (-3).

Definition toy_loss_add (x y : option Z) : option Z :=
  match x, y with
  | Some a, Some b => Some (a + b)%Z
  | _, _ => None
  end.

Definition toy_run (out_packer : Packer.Packer) (n : nat)
  : result (Stepper.SteppedData Z (option Z)) :=
  Stepper.run_on_batch (Some 0%Z) toy_loss_add None
    (fun _ x => (x + 1)%Z) (fun _ x => (x - 1)%Z)
    toy_module (fun _ _ => Some 0%Z) None None (fun _ => ([], Some 0%Z))
    toy_in_packer out_packer toy_data n.

Definition toy_result : Stepper.SteppedData Z (option Z) :=
  match toy_run toy_out_packer 2 with
  | Ok r => r
  | Raise _ => Stepper.mkSteppedData [] [] [] [] []
  end.

(** The same rollout with a network that changes what it is given: its one
    output channel is the sum of its two input channels.  The normalised
    batch holds [a = 1, 2, 3] and [f = 11, 12, 13], so the series generated
    for "a" is [1] (the initial condition), [1 + 11 = 12], [12 + 12 = 24]. *)
Definition toy_module_sum (t : tensor Z) : result (tensor Z) :=
  a <- select t (-3) 0 ;;
  f <- select t (-3) 1 ;;
  stack [mkTensor (shape a) (fun idx => (item a idx + item f idx)%Z)] (-3).

Definition toy_run_sum (n : nat) : result (Stepper.SteppedData Z (option Z)) :=
  Stepper.run_on_batch (Some 0%Z) toy_loss_add None
    (fun _ x => (x + 1)%Z) (fun _ x => (x - 1)%Z)
    toy_module_sum (fun _ _ => Some 0%Z) None None (fun _ => ([], Some 0%Z))
    toy_in_packer toy_out_packer toy_data n.

Definition toy_result_sum : Stepper.SteppedData Z (option Z) :=
  match toy_run_sum 2 with
  | Ok r => r
  | Raise _ => Stepper.mkSteppedData [] [] [] [] []
  end.

(** A generated state on a 1 x 2 grid: an advection tendency and unit area
    weights. *)
Definition grid_1x2 (a b : R) : tensor R :=
  mkTensor [1; 2] (fun idx => match nth 1 idx 0 with O => a | _ => b end).

Definition adv_state : Dict.dict (tensor R) :=
  [("PS", grid_1x2 1000 1000);
   ("tendency_of_total_water_path_due_to_advection", grid_1x2 3 5)].

Definition unit_area : tensor R := grid_1x2 1 1.

(** A one-cell, one-level column: [ak = [0, 0]], [bk = [0, 1]], so that the
    pressure thickness of the level is the surface pressure. *)
Definition vec (xs : list R) : tensor R :=
  mkTensor [List.length xs] (fun idx => nth (nth 0 idx 0) xs 0%R).

Definition cell (x : R) : tensor R := mkTensor [1; 1] (fun _ => x).

Definition one_level : ClimateData.SigmaCoordinates :=
  ClimateData.mkSigmaCoordinates (vec [0%R; 0%R]) (vec [0%R; 1%R]).

(** No precipitation anywhere, evaporation 1, no change of the water path
    when used as input and as generated state. *)
Definition dry_state : Dict.dict (tensor R) :=
  [("PRESsfc", cell 1000);
   ("specific_total_water_0", cell (1 / 100));
   ("PRATEsfc", cell 0);
   ("LHTFLsfc", cell 2501000);
   ("tendency_of_total_water_path_due_to_advection", cell 0)].

(** The same with precipitation 2. *)
Definition wet_state : Dict.dict (tensor R) :=
  [("PRESsfc", cell 1000);
   ("specific_total_water_0", cell (1 / 100));
   ("PRATEsfc", cell 2);
   ("LHTFLsfc", cell 2501000);
   ("tendency_of_total_water_path_due_to_advection", cell 0)].

(** Two cells with one level for stage 3: the input holds no water; the
    generated state holds 1 percent of water under 1000 Pa in both cells
    (so that the water path grows by [10 / g] in the time step),
    precipitation 1 and 3, evaporation 2 and 4, and an advection tendency
    of 7 that stage 3 is to replace. *)
Definition budget_in : Dict.dict (tensor R) :=
  [("PRESsfc", grid_1x2 1000 1000);
   ("specific_total_water_0", grid_1x2 0 0)].

Definition budget_gen : Dict.dict (tensor R) :=
  [("PRESsfc", grid_1x2 1000 1000);
   ("specific_total_water_0", grid_1x2 (1 / 100) (1 / 100));
   ("PRATEsfc", grid_1x2 1 3);
   ("LHTFLsfc", grid_1x2 (2 * 2501000) (4 * 2501000));
   ("tendency_of_total_water_path_due_to_advection", grid_1x2 7 7)].

(** The tendency of the water path from [budget_in] to [budget_gen]. *)
Definition budget_tendency : R := (10 / Metrics.GRAVITY / 21600)%R.

(** Two columns with one level.  In the generated state [col_gen] the first
    column holds water only (specific total water 1), so that
    [1 - sum_k (bk_diff_k * wat_k)] vanishes there; in [col_gen_ok] it
    holds 1 percent of water. *)
Definition col_in : Dict.dict (tensor R) :=
  [("PRESsfc", grid_1x2 1000 1000); ("specific_total_water_0", grid_1x2 0 0)].

Definition col_gen : Dict.dict (tensor R) :=
  [("PRESsfc", grid_1x2 1000 1010); ("specific_total_water_0", grid_1x2 1 0)].

(** A generated state whose dry air (990 and 1020) has global mean 1005,
    five more than that of [col_in]. *)
Definition col_gen_off : Dict.dict (tensor R) :=
  [("PRESsfc", grid_1x2 1000 1020); ("specific_total_water_0", grid_1x2 (1 / 100) 0)].

Definition col_gen_ok : Dict.dict (tensor R) :=
  [("PRESsfc", grid_1x2 1000 1010); ("specific_total_water_0", grid_1x2 (1 / 100) 0)].

(** Two water levels inserted upside down, with the surface pressure
    between them. *)
Definition levels_state : Dict.dict (tensor R) :=
  [("specific_total_water_1", cell 2);
   ("PRESsfc", cell 1000);
   ("specific_total_water_0", cell 1)].

(** A corrector of a one-cell grid that runs stage 2 only. *)
Definition advection_corrector : Corrector.Corrector :=
  Corrector.mkCorrector (Corrector.mkCorrectorConfig false true None) (cell 1) one_level.

End Examples.
Import Examples.

(* ================================================================== *)
(** * Properties *)

(** ** Fallible comprehensions *)

Section MapMFacts.
Variables A B : Type.
Variable f : A -> result B.

Lemma mapM_length (xs : list A) (ys : list B) :
  mapM f xs = Ok ys -> List.length ys = List.length xs.
Proof.
  revert ys; induction xs as [|x xs IH]; simpl; intros ys H.
  - now inversion H.
  - destruct (f x) as [y|e]; simpl in H; [|discriminate].
    destruct (mapM f xs) as [ys'|e]; simpl in H; [|discriminate].
    inversion H; subst; simpl; f_equal; now apply IH.
Qed.

Lemma mapM_nth (xs : list A) (ys : list B) (dx : A) (dy : B) (j : nat) :
  mapM f xs = Ok ys -> j < List.length xs -> f (nth j xs dx) = Ok (nth j ys dy).
Proof.
  revert ys j; induction xs as [|x xs IH]; simpl; intros ys j H Hj; [lia|].
  destruct (f x) as [y|e] eqn:Hx; simpl in H; [|discriminate].
  destruct (mapM f xs) as [ys'|e]; simpl in H; [|discriminate].
  inversion H; subst; destruct j as [|j]; simpl; [assumption|].
  apply IH; [reflexivity|lia].
Qed.

Lemma mapM_Forall2 (xs : list A) (ys : list B) :
  mapM f xs = Ok ys -> Forall2 (fun x y => f x = Ok y) xs ys.
Proof.
  revert ys; induction xs as [|x xs IH]; simpl; intros ys H.
  - inversion H; constructor.
  - destruct (f x) as [y|e] eqn:Hx; simpl in H; [|discriminate].
    destruct (mapM f xs) as [ys'|e]; simpl in H; [|discriminate].
    inversion H; subst; constructor; auto.
Qed.

Lemma mapM_total (xs : list A) :
  (forall x, In x xs -> exists y, f x = Ok y) -> exists ys, mapM f xs = Ok ys.
Proof.
  induction xs as [|x xs IH]; simpl; intros H; [now eexists|].
  destruct (H x (or_introl eq_refl)) as [y Hy]; rewrite Hy; simpl.
  destruct IH as [ys Hys]; [intros; apply H; now right|].
  rewrite Hys; simpl; now eexists.
Qed.

Lemma mapM_raise (xs : list A) (x : A) (e : exn) :
  In x xs -> f x = Raise e ->
  (forall x' e', In x' xs -> f x' = Raise e' -> e' = e) ->
  mapM f xs = Raise e.
Proof.
  induction xs as [|x0 xs IH]; simpl; intros Hin Hx Hall; [contradiction|].
  destruct (f x0) as [y|e0] eqn:H0; simpl.
  - destruct Hin as [->|Hin]; [congruence|].
    rewrite IH; [reflexivity|assumption|assumption|].
    intros x' e' Hx' He'; apply (Hall x' e'); [now right|assumption].
  - f_equal; apply (Hall x0 e0); [now left|assumption].
Qed.

End MapMFacts.

Lemma mapM_ext_in (A B : Type) (f g : A -> result B) (xs : list A) :
  (forall x, In x xs -> f x = g x) -> mapM f xs = mapM g xs.
Proof.
  induction xs as [|x xs IH]; simpl; intros H; [reflexivity|].
  rewrite (H x (or_introl eq_refl)), IH; [reflexivity|].
  intros y Hy; apply H; now right.
Qed.

Lemma enumerate_from_length A (i : nat) (xs : list A) :
  List.length (enumerate_from i xs) = List.length xs.
Proof. revert i; induction xs; simpl; intros; [reflexivity|now rewrite IHxs]. Qed.

Lemma enumerate_from_nth A (i j : nat) (xs : list A) (d : A) :
  j < List.length xs ->
  nth j (enumerate_from i xs) (0, d) = (i + j, nth j xs d).
Proof.
  revert i j; induction xs as [|x xs IH]; simpl; intros i j Hj; [lia|].
  destruct j as [|j]; [now rewrite Nat.add_0_r|].
  rewrite IH by lia; f_equal; lia.
Qed.

Lemma map_snd_enumerate_from A (i : nat) (xs : list A) :
  map snd (enumerate_from i xs) = xs.
Proof. revert i; induction xs as [|x xs IH]; simpl; intros i; [reflexivity|now rewrite IH]. Qed.

(** ** Dictionaries *)

Section DictFacts.
Variable V : Type.
Implicit Types (d : Dict.dict V) (k : string) (v : V).

Lemma lookup_setitem k k' v d :
  Dict.lookup k (Dict.setitem k' v d) =
  if String.eqb k k' then Some v else Dict.lookup k d.
Proof.
  induction d as [|[k0 v0] d IH]; simpl.
  - reflexivity.
  - destruct (String.eqb k' k0) eqn:E'; simpl.
    + apply String.eqb_eq in E'; subst k0.
      destruct (String.eqb k k'); reflexivity.
    + destruct (String.eqb k k0) eqn:E0.
      * apply String.eqb_eq in E0; subst k0.
        rewrite String.eqb_sym, E'; reflexivity.
      * exact IH.
Qed.

Lemma lookup_setitem_same k v d : Dict.lookup k (Dict.setitem k v d) = Some v.
Proof. now rewrite lookup_setitem, String.eqb_refl. Qed.

Lemma lookup_setitem_other k k' v d :
  k <> k' -> Dict.lookup k (Dict.setitem k' v d) = Dict.lookup k d.
Proof.
  intros H; rewrite lookup_setitem.
  destruct (String.eqb k k') eqn:E; [apply String.eqb_eq in E; contradiction|reflexivity].
Qed.

Lemma lookup_fold_setitem k (items : list (string * V)) d :
  Dict.lookup k (fold_left (fun acc kv => Dict.setitem (fst kv) (snd kv) acc) items d) =
  match Dict.lookup k (rev items) with
  | Some v => Some v
  | None => Dict.lookup k d
  end.
Proof.
  revert d; induction items as [|[k0 v0] items IH]; simpl; intros d; [reflexivity|].
  rewrite IH; clear IH.
  assert (Happ : forall (l1 l2 : Dict.dict V),
             Dict.lookup k (l1 ++ l2) =
             match Dict.lookup k l1 with Some v => Some v | None => Dict.lookup k l2 end).
  { induction l1 as [|[k1 v1] l1 IH1]; simpl; intros; [reflexivity|].
    destruct (String.eqb k k1); auto. }
  rewrite Happ; simpl.
  destruct (Dict.lookup k (rev items)); [reflexivity|].
  rewrite lookup_setitem; simpl.
  destruct (String.eqb k k0); reflexivity.
Qed.

Lemma lookup_Some_In k v d : Dict.lookup k d = Some v -> In (k, v) d.
Proof.
  induction d as [|[k0 v0] d IH]; simpl; [discriminate|].
  destruct (String.eqb k k0) eqn:E.
  - apply String.eqb_eq in E; subst; intros H; inversion H; now left.
  - intros H; right; auto.
Qed.

Lemma lookup_None_keys k d : Dict.lookup k d = None <-> ~ In k (Dict.keys d).
Proof.
  unfold Dict.keys; induction d as [|[k0 v0] d IH]; simpl; [tauto|].
  destruct (String.eqb k k0) eqn:E.
  - apply String.eqb_eq in E; subst; split; [discriminate|intros H; exfalso; auto].
  - apply String.eqb_neq in E; rewrite IH; split; intros H.
    + intros [H1|H1]; [now subst|auto].
    + intros H1; apply H; now right.
Qed.

Lemma getitem_Ok k d v : Dict.getitem k d = Ok v <-> Dict.lookup k d = Some v.
Proof.
  unfold Dict.getitem; destruct (Dict.lookup k d); split; intros H;
    inversion H; reflexivity.
Qed.

Lemma contains_true k d : Dict.contains k d = true <-> Dict.lookup k d <> None.
Proof.
  unfold Dict.contains; destruct (Dict.lookup k d); split; intros; congruence.
Qed.

End DictFacts.

(** ** Tensors *)

Section TensorFacts.
Variable T : Type.
Implicit Types (t u : tensor T) (sh idx : list nat).

Lemma wrap_index_lt (n : nat) (i : Z) (a : nat) :
  wrap_index n i = Some a -> a < n.
Proof.
  unfold wrap_index.
  destruct (_ && _) eqn:E; [|discriminate].
  apply andb_true_iff in E; destruct E as [E1 E2].
  apply Z.leb_le in E1; apply Z.ltb_lt in E2.
  intros H; inversion H; subst; clear H.
  destruct (i <? 0)%Z eqn:E3; [apply Z.ltb_lt in E3|apply Z.ltb_ge in E3]; lia.
Qed.

Lemma wrap_index_of_nat (n j : nat) :
  j < n -> wrap_index n (Z.of_nat j) = Some j.
Proof.
  intros H; unfold wrap_index.
  replace (_ && _) with true.
  - replace (Z.of_nat j <? 0)%Z with false by (symmetry; apply Z.ltb_ge; lia).
    now rewrite Nat2Z.id.
  - symmetry; apply andb_true_iff; split; [apply Z.leb_le|apply Z.ltb_lt]; lia.
Qed.

Lemma wrap_index_valid (n : nat) (i : Z) :
  (- Z.of_nat n <= i < Z.of_nat n)%Z -> exists a, wrap_index n i = Some a /\ a < n.
Proof.
  intros H; unfold wrap_index.
  replace (_ && _) with true
    by (symmetry; apply andb_true_iff; split; [apply Z.leb_le|apply Z.ltb_lt]; lia).
  eexists; split; [reflexivity|].
  destruct (i <? 0)%Z eqn:E; [apply Z.ltb_lt in E|apply Z.ltb_ge in E]; lia.
Qed.

Lemma in_bounds_length sh idx :
  in_bounds sh idx = true -> List.length idx = List.length sh.
Proof.
  revert idx; induction sh as [|n sh IH]; destruct idx as [|i idx]; simpl;
    try discriminate; auto.
  intros H; apply andb_true_iff in H; destruct H as [_ H]; f_equal; auto.
Qed.

Lemma insert_at_length A (a : nat) (x : A) (l : list A) :
  a <= List.length l -> List.length (insert_at a x l) = S (List.length l).
Proof.
  intros H; unfold insert_at.
  rewrite length_app; simpl; rewrite length_firstn, length_skipn; lia.
Qed.

Lemma nth_insert_at A (a : nat) (x d : A) (l : list A) :
  a <= List.length l -> nth a (insert_at a x l) d = x.
Proof.
  intros H; unfold insert_at.
  rewrite app_nth2; rewrite length_firstn, Nat.min_l by lia; [|lia].
  now rewrite Nat.sub_diag.
Qed.

Lemma remove_insert_at A (a : nat) (x : A) (l : list A) :
  a <= List.length l -> remove_at a (insert_at a x l) = l.
Proof.
  intros H; unfold remove_at, insert_at.
  assert (Hl : List.length (firstn a l) = a) by (rewrite length_firstn; lia).
  rewrite firstn_app, skipn_app, Hl, Nat.sub_diag.
  replace (S a - a) with 1 by lia.
  rewrite (firstn_all2 (n := a) (firstn a l)) by lia.
  rewrite (skipn_all2 (n := S a) (firstn a l)) by lia.
  simpl; rewrite app_nil_r; apply firstn_skipn.
Qed.

Lemma teq_refl t : teq t t.
Proof. split; auto. Qed.

Lemma teq_sym t u : teq t u -> teq u t.
Proof. intros [H1 H2]; split; [auto|]. intros idx H; symmetry; apply H2; now rewrite H1. Qed.

Lemma teq_trans t u w : teq t u -> teq u w -> teq t w.
Proof.
  intros [H1 H2] [H3 H4]; split; [congruence|].
  intros idx H; rewrite H2 by assumption; apply H4; now rewrite <- H1.
Qed.

Lemma forallb_shape_eqb (ts : list (tensor T)) sh :
  (forall t, In t ts -> shape t = sh) ->
  forallb (fun t => shape_eqb (shape t) sh) ts = true.
Proof.
  intros H; apply forallb_forall; intros t Ht; unfold shape_eqb.
  destruct (list_eq_dec Nat.eq_dec (shape t) sh); [reflexivity|].
  exfalso; auto.
Qed.

(** Stacking tensors of one shape along a valid axis succeeds. *)
Lemma stack_Ok (ts : list (tensor T)) sh (dim : Z) (a : nat) :
  ts <> [] ->
  (forall t, In t ts -> shape t = sh) ->
  wrap_index (S (List.length sh)) dim = Some a ->
  exists s, stack ts dim = Ok s /\
            shape s = insert_at a (List.length ts) sh /\
            forall idx d, item s idx = item (nth (nth a idx 0) ts d) (remove_at a idx)
                          \/ List.length ts <= nth a idx 0.
Proof.
  intros Hne Hsh Ha; destruct ts as [|t0 ts']; [congruence|].
  unfold stack, rank.
  rewrite (Hsh t0 (or_introl eq_refl)), Ha, forallb_shape_eqb by assumption.
  eexists; split; [reflexivity|]; split; [reflexivity|].
  intros idx d; cbn [item].
  destruct (Nat.lt_ge_cases (nth a idx 0) (List.length (t0 :: ts'))) as [Hlt|Hge];
    [left|now right].
  f_equal; apply nth_indep; assumption.
Qed.

(** Selecting slice [j] of a stack gives back the [j]-th operand. *)
Lemma select_stack (ts : list (tensor T)) sh (dim : Z) (a : nat) (s : tensor T) (j : nat) (d : tensor T) :
  (forall t, In t ts -> shape t = sh) ->
  wrap_index (S (List.length sh)) dim = Some a ->
  stack ts dim = Ok s ->
  j < List.length ts ->
  exists u, select s dim (Z.of_nat j) = Ok u /\ teq u (nth j ts d).
Proof.
  intros Hsh Ha Hs Hj.
  assert (Hne : ts <> []) by (destruct ts; simpl in Hj; [lia|discriminate]).
  destruct (stack_Ok dim Hne Hsh Ha) as (s' & Hs' & Hshape & Hitem).
  rewrite Hs in Hs'; inversion Hs'; subst s'; clear Hs'.
  pose proof (wrap_index_lt _ _ Ha) as Halt.
  assert (Hal : a <= List.length sh) by lia.
  unfold select, rank.
  rewrite Hshape, insert_at_length, Ha, nth_insert_at, wrap_index_of_nat by assumption.
  eexists; split; [reflexivity|].
  assert (Hshj : shape (nth j ts d) = sh) by (apply Hsh, nth_In, Hj).
  split; simpl.
  - rewrite remove_insert_at by assumption; now rewrite Hshj.
  - intros idx Hidx.
    rewrite remove_insert_at in Hidx by assumption.
    apply in_bounds_length in Hidx.
    destruct (Hitem (insert_at a j idx) d) as [->|Hbad].
    + rewrite nth_insert_at, remove_insert_at by lia; reflexivity.
    + rewrite nth_insert_at in Hbad by lia; lia.
Qed.

(** What a successful [stack] was given. *)
Lemma stack_inv (ts : list (tensor T)) (dim : Z) (s : tensor T) :
  stack ts dim = Ok s ->
  exists t0 a,
    hd_error ts = Some t0 /\
    wrap_index (S (List.length (shape t0))) dim = Some a /\
    (forall t, In t ts -> shape t = shape t0) /\
    shape s = insert_at a (List.length ts) (shape t0).
Proof.
  unfold stack, rank; destruct ts as [|t0 ts']; [discriminate|].
  destruct (wrap_index _ dim) as [a|] eqn:Ha; [|discriminate].
  destruct (forallb _ _) eqn:Hall; [|discriminate].
  intros H; inversion H; subst s; clear H.
  exists t0, a; repeat split; try reflexivity; try assumption.
  intros t Ht; rewrite forallb_forall in Hall; specialize (Hall t Ht).
  unfold shape_eqb in Hall.
  destruct (list_eq_dec Nat.eq_dec (shape t) (shape t0)); [assumption|discriminate].
Qed.

Lemma wrap_index_nonneg (n : nat) (i : Z) (a : nat) :
  (0 <= i)%Z -> wrap_index n i = Some a -> a = Z.to_nat i /\ a < n.
Proof.
  intros Hi H; split; [|now apply wrap_index_lt in H].
  unfold wrap_index in H; destruct (_ && _); [|discriminate].
  replace (i <? 0)%Z with false in H by (symmetry; apply Z.ltb_ge; lia).
  now inversion H.
Qed.

Lemma select_tmap (f : T -> T) t (dim index : Z) :
  select (tmap f t) dim index =
  match select t dim index with
  | Ok s => Ok (tmap f s)
  | Raise e => Raise e
  end.
Proof.
  unfold select, rank, tmap; simpl.
  destruct (wrap_index _ dim); [|reflexivity].
  destruct (wrap_index _ index); reflexivity.
Qed.

Lemma teq_tmap (f : T -> T) t u : teq t u -> teq (tmap f t) (tmap f u).
Proof. intros [H1 H2]; split; simpl; [assumption|]. intros idx H; f_equal; auto. Qed.

End TensorFacts.

(** ** The packer *)

Section PackerFacts.
Variable T : Type.
Local Abbreviation tensor := (Tensor.tensor T).
Local Abbreviation dict := (Dict.dict tensor).
Implicit Types (p : Packer.Packer) (d : dict).

(** Gathering [[tensors[n] for n in names]] succeeds when every name is bound. *)
Lemma gather_Ok (names : list string) d :
  (forall k, In k names -> Dict.lookup k d <> None) ->
  exists ts, mapM (fun n => Dict.getitem n d) names = Ok ts /\
             List.length ts = List.length names /\
             forall j dt, j < List.length names ->
                          Dict.lookup (nth j names "") d = Some (nth j ts dt).
Proof.
  intros Hall.
  destruct (mapM_total (fun n => Dict.getitem n d) names) as [ts Hts].
  { intros k Hk; specialize (Hall k Hk); unfold Dict.getitem.
    destruct (Dict.lookup k d); [now eexists|congruence]. }
  exists ts; split; [assumption|]; split; [now apply mapM_length in Hts|].
  intros j dt Hj; apply getitem_Ok.
  now apply (mapM_nth (fun n => Dict.getitem n d) names "" dt Hts).
Qed.


(** What [torch.jit.script] does to a result. *)
Lemma scripted_Ok (A : Type) (body : result A) (a : A) :
  body = Ok a -> Packer.scripted body = Ok a.
Proof. now intros ->. Qed.

Lemma scripted_Ok_inv (A : Type) (body : result A) (a : A) :
  Packer.scripted body = Ok a -> body = Ok a.
Proof. unfold Packer.scripted; destruct body; congruence. Qed.

Lemma scripted_Raise (A : Type) (body : result A) (e : exn) :
  Packer.scripted body = Raise e ->
  (exists e0, body = Raise e0) /\ exists msg, e = RuntimeError msg.
Proof.
  unfold Packer.scripted; destruct body as [a|e0]; [discriminate|].
  intros H; injection H as <-; split; eexists; reflexivity.
Qed.


Lemma unpack_items (t : tensor) (names : list string) (axis : Z) :
  (forall j, j < List.length names -> exists u, select t axis (Z.of_nat j) = Ok u) ->
  exists items,
    Packer._unpack t names axis = Ok (Dict.of_items items) /\
    List.length items = List.length names /\
    forall j di, j < List.length names ->
      exists u, nth j items di = (nth j names "", u) /\
                select t axis (Z.of_nat j) = Ok u.
Proof.
  intros Hsel; unfold Packer._unpack.
  set (f := fun '(i, n) => s <- select t axis (Z.of_nat i) ;; Ok (n : string, s)).
  destruct (mapM_total f (enumerate names)) as [items Hitems].
  { intros [i n] Hin.
    destruct (In_nth _ _ (0, "") Hin) as (j & Hj & Hnth).
    unfold enumerate in *; rewrite enumerate_from_length in Hj.
    rewrite enumerate_from_nth in Hnth by assumption.
    injection Hnth as Hi _; simpl in Hi; subst i; simpl.
    destruct (Hsel j Hj) as [u ->]; simpl; now eexists. }
  exists items; rewrite Hitems; simpl; split; [reflexivity|].
  pose proof (mapM_length _ _ Hitems) as Hlen.
  unfold enumerate in Hlen; rewrite enumerate_from_length in Hlen.
  split; [assumption|].
  intros j di Hj.
  pose proof (mapM_nth f (enumerate names) (0, "") di (j := j) Hitems) as Hn.
  unfold enumerate in Hn; rewrite enumerate_from_length in Hn.
  specialize (Hn Hj); rewrite enumerate_from_nth in Hn by assumption.
  simpl in Hn. destruct (select t axis (Z.of_nat j)) as [u|e]; simpl in Hn; [|discriminate].
  exists u; split; [now inversion Hn|reflexivity].
Qed.

End PackerFacts.

Section PackerRoundTrip.
Variable T : Type.
Local Abbreviation tensor := (Tensor.tensor T).
Local Abbreviation dict := (Dict.dict tensor).

(** What [unpack] binds to a key is the slice of the last position at which
    the key is declared. *)
Lemma lookup_of_items_nth (items : list (string * tensor)) (k : string) :
  match Dict.lookup k (Dict.of_items items) with
  | Some v => exists j, j < List.length items /\ nth j items (k, v) = (k, v)
  | None => ~ In k (map fst items)
  end.
Proof.
  unfold Dict.of_items; rewrite lookup_fold_setitem; simpl.
  destruct (Dict.lookup k (rev items)) as [v|] eqn:E.
  - apply lookup_Some_In, in_rev in E.
    destruct (In_nth _ _ (k, v) E) as (j & Hj & Hn); eauto.
  - apply lookup_None_keys in E; unfold Dict.keys in E.
    intros Hin; apply E; rewrite map_rev; now apply in_rev; rewrite rev_involutive.
Qed.

(** Unpacking what was packed gives, for each declared name, a tensor equal
    to the one packed under that name. *)
Lemma unpack_pack_lookup (p : Packer.Packer) (d : dict) (axis : Z)
    (t : tensor) (td : Packer.TensorDict T) :
  Packer.pack p d (Some axis) = Ok t ->
  Packer.unpack p t (Some axis) = Ok td ->
  forall name, In name (Packer.names p) ->
    exists g gd, Dict.lookup name (Packer.td_items td) = Some g /\
                 Dict.lookup name d = Some gd /\ teq g gd.
Proof.
  unfold Packer.pack, Packer._pack, Packer.unpack.
  destruct (mapM _ (Packer.names p)) as [ts|e] eqn:Hts; simpl; [|discriminate].
  intros Hstack Hunpack name Hname; apply scripted_Ok_inv in Hstack.
  destruct (Packer.pop_shape _ _) as [ps|e]; simpl in Hunpack; [|discriminate].
  destruct (stack_inv _ _ Hstack) as (t0 & a & Hhd & Ha & Hsh & _).
  pose proof (mapM_length _ _ Hts) as Hlen.
  assert (Hsel : forall j, j < List.length (Packer.names p) ->
            exists u, select t axis (Z.of_nat j) = Ok u /\ teq u (nth j ts t0)).
  { intros j Hj; eapply select_stack; eauto; lia. }
  destruct (unpack_items t (Packer.names p) axis) as (items & Hitems & Hilen & Hinth).
  { intros j Hj; destruct (Hsel j Hj) as (u & Hu & _); eauto. }
  rewrite Hitems in Hunpack; simpl in Hunpack; inversion Hunpack; subst td; clear Hunpack.
  simpl.
  pose proof (lookup_of_items_nth items name) as Hk.
  destruct (Dict.lookup name (Dict.of_items items)) as [v|].
  - destruct Hk as (j & Hj & Hn); rewrite Hilen in Hj.
    destruct (Hinth j (name, v) Hj) as (u & Hju & Hselu).
    rewrite Hn in Hju; injection Hju as Hnm Hv; subst u.
    destruct (Hsel j Hj) as (u' & Hu' & Hteq).
    rewrite Hselu in Hu'; injection Hu' as <-.
    exists v, (nth j ts t0); split; [reflexivity|]; split; [|exact Hteq].
    rewrite Hnm; apply getitem_Ok.
    now apply (mapM_nth (fun n => Dict.getitem n d) (Packer.names p) "" t0 Hts).
  - exfalso; apply Hk.
    destruct (In_nth _ _ "" Hname) as (j & Hj & Hn).
    apply in_map_iff.
    destruct (Hinth j (name, t0) Hj) as (u & Hju & _).
    exists (nth j items (name, t0)); split; [now rewrite Hju|].
    apply nth_In; lia.
Qed.

(** C3.  For a mapping [d] whose keys are exactly the packer's (at least
    one) declared names, bound to tensors of one shape [sh], and an axis
    that is valid for a tensor of one more dimension, [pack] succeeds and
    stacks the tensors in declared-name order along the new axis (slice [j]
    is the tensor of the [j]-th name, the other dimensions are [sh]), and
    [unpack] of the result along the same axis succeeds and returns a
    mapping equal to [d], with the per-name shape [sh] as batch size. *)
Theorem pack_unpack_roundtrip
    (p : Packer.Packer) (d : dict) (sh : list nat) (axis : Z) :
  Packer.names p <> [] ->
  (forall k, In k (Packer.names p) <-> Dict.lookup k d <> None) ->
  (forall k t, Dict.lookup k d = Some t -> shape t = sh) ->
  (- Z.of_nat (S (List.length sh)) <= axis < Z.of_nat (S (List.length sh)))%Z ->
  exists (a : nat) (packed : tensor) (td : Packer.TensorDict T),
    wrap_index (S (List.length sh)) axis = Some a /\
    Packer.pack p d (Some axis) = Ok packed /\
    shape packed = insert_at a (List.length (Packer.names p)) sh /\
    (forall j, j < List.length (Packer.names p) ->
       exists u t, select packed axis (Z.of_nat j) = Ok u /\
                   Dict.lookup (nth j (Packer.names p) "") d = Some t /\
                   teq u t) /\
    Packer.unpack p packed (Some axis) = Ok td /\
    Packer.batch_size td = sh /\
    dict_teq (Packer.td_items td) d.
Proof.
  intros Hne Hkeys Hshape Haxis.
  destruct (wrap_index_valid _ Haxis) as (a & Ha & Halt).
  destruct (gather_Ok (Packer.names p) d) as (ts & Hts & Hlen & Hnth).
  { intros k Hk; now apply Hkeys. }
  assert (Hsh : forall t, In t ts -> shape t = sh).
  { intros t Ht; destruct (In_nth _ _ t Ht) as (j & Hj & Hn).
    apply (Hshape (nth j (Packer.names p) "")).
    pose proof (Hnth j t ltac:(lia)) as Hj'; now rewrite Hn in Hj'. }
  assert (Htsne : ts <> []).
  { destruct ts; [|discriminate]. destruct (Packer.names p); [congruence|discriminate]. }
  destruct (stack_Ok axis Htsne Hsh Ha) as (packed & Hpacked & Hpshape & _).
  assert (Hsel : forall j dt, j < List.length (Packer.names p) ->
            exists u, select packed axis (Z.of_nat j) = Ok u /\ teq u (nth j ts dt)).
  { intros j dt Hj; eapply select_stack; eauto; lia. }
  assert (Hpack : Packer.pack p d (Some axis) = Ok packed).
  { unfold Packer.pack, Packer._pack; rewrite Hts; cbn [bind]; now rewrite Hpacked. }
  destruct (unpack_items packed (Packer.names p) axis) as (items & Hitems & Hilen & Hinth).
  { intros j Hj; destruct ts as [|t0 ts']; [congruence|].
    destruct (Hsel j t0 Hj) as (u & Hu & _); eauto. }
  exists a, packed, (Packer.mkTensorDict (Dict.of_items items) sh).
  split; [assumption|]; split; [assumption|]; split; [now rewrite Hlen in Hpshape|].
  split; [|split; [|split; [reflexivity|]]].
  - intros j Hj; destruct ts as [|t0 ts']; [congruence|].
    destruct (Hsel j t0 Hj) as (u & Hu & Hteq).
    exists u, (nth j (t0 :: ts') t0); auto.
  - unfold Packer.unpack, Packer.pop_shape.
    rewrite Hpshape, insert_at_length, Ha, remove_insert_at by lia.
    simpl; rewrite Hitems; reflexivity.
  - intros k; simpl.
    pose proof (lookup_of_items_nth items k) as Hk.
    destruct (Dict.lookup k (Dict.of_items items)) as [v|].
    + destruct Hk as (j & Hj & Hn).
      rewrite Hilen in Hj.
      destruct (Hinth j (k, v) Hj) as (u & Hju & Hselu).
      rewrite Hn in Hju; injection Hju as Hk Hv; subst u.
      destruct (Hsel j v Hj) as (u' & Hu' & Hteq).
      rewrite Hselu in Hu'; injection Hu' as <-.
      rewrite Hk, (Hnth j v Hj); exact Hteq.
    + destruct (Dict.lookup k d) eqn:Ed; [|exact I].
      apply Hk.
      assert (Hin : In k (Packer.names p)) by (apply Hkeys; congruence).
      destruct (In_nth _ _ "" Hin) as (j & Hj & Hn).
      apply in_map_iff.
      destruct (Hinth j (k, t) Hj) as (u & Hju & _).
      exists (nth j items (k, t)); split; [now rewrite Hju|].
      apply nth_In; lia.
Qed.

End PackerRoundTrip.

(** C9.  A packer built by [__init__] has the attributes [names],
    [axis_pack] and [axis_unpack] only, so [get_state], which reads
    [self.axis], raises [AttributeError]; [from_state] for its part reads the
    key ["axis"] of the state it is given. *)
Theorem get_state_raises_AttributeError
    (names : list string) (axis axis_pack axis_unpack : option Z) (p : Packer.Packer) :
  Packer.__init__ names axis axis_pack axis_unpack = Ok p ->
  Packer.get_state p = Raise (AttributeError "axis") /\
  (forall st, Packer.get_state p <> Ok st) /\
  (forall st, Dict.lookup "axis" st = None -> Dict.lookup "names" st <> None ->
              Packer.from_state st = Raise (KeyError "axis")).
Proof.
  intros _; split; [reflexivity|]; split; [discriminate|].
  intros st Hax Hn; unfold Packer.from_state, Dict.getitem.
  destruct (Dict.lookup "names" st); [|congruence].
  now rewrite Hax.
Qed.

Lemma get_state_raises_AttributeError_witness :
  Packer.__init__ ["PS"; "T"] (Some (-3)%Z) None None = Ok (Packer.mkPacker ["PS"; "T"] (-3) (-3)) /\
  Packer.get_state (Packer.mkPacker ["PS"; "T"] (-3) (-3)) = Raise (AttributeError "axis").
Proof.
  split; [reflexivity|].
  exact (proj1 (@get_state_raises_AttributeError ["PS"; "T"] (Some (-3)%Z) None None
                  (Packer.mkPacker ["PS"; "T"] (-3) (-3)) eq_refl)).
Defined.


Lemma pack_unpack_roundtrip_witness :
  exists (a : nat) (packed : tensor nat) (td : Packer.TensorDict nat),
    wrap_index 3 (-3) = Some a /\
    Packer.pack roundtrip_packer roundtrip_fields (Some (-3)%Z) = Ok packed /\
    shape packed = insert_at a 2 [2; 3] /\
    (forall j, j < 2 ->
       exists u t, select packed (-3) (Z.of_nat j) = Ok u /\
                   Dict.lookup (nth j ["PS"; "T_0"] "") roundtrip_fields = Some t /\
                   teq u t) /\
    Packer.unpack roundtrip_packer packed (Some (-3)%Z) = Ok td /\
    Packer.batch_size td = [2; 3] /\
    dict_teq (Packer.td_items td) roundtrip_fields.
Proof.
  apply (@pack_unpack_roundtrip nat roundtrip_packer roundtrip_fields [2; 3] (-3)%Z).
  - discriminate.
  - intros k; simpl.
    destruct (String.eqb k "T_0") eqn:E1; [apply String.eqb_eq in E1; subst; split; [discriminate|auto]|].
    destruct (String.eqb k "PS") eqn:E2; [apply String.eqb_eq in E2; subst; split; [discriminate|auto]|].
    apply String.eqb_neq in E1, E2; split; [intros [H|[H|[]]]; congruence|congruence].
  - intros k t; simpl.
    destruct (String.eqb k "T_0"); [intros H; inversion H; reflexivity|].
    destruct (String.eqb k "PS"); [intros H; inversion H; reflexivity|discriminate].
  - simpl; lia.
Defined.

(** ** Alias resolution *)

Section AliasFacts.
Local Abbreviation rtensor := (tensor R).
Local Abbreviation dict := (Dict.dict rtensor).
Implicit Types (self : ClimateData.ClimateData) (d : dict).

Lemma _get_loop_resolve self prefixes name :
  ClimateData._get_loop self prefixes name =
  match ClimateData.resolve_alias (ClimateData._data self) prefixes with
  | Some alias => Dict.getitem alias (ClimateData._data self)
  | None => Raise (KeyError name)
  end.
Proof.
  induction prefixes as [|p ps IH]; simpl; [reflexivity|].
  destruct (Dict.contains p (ClimateData._data self)); [reflexivity|exact IH].
Qed.

Lemma _set_loop_resolve self prefixes name value :
  ClimateData._set_loop self prefixes name value =
  match ClimateData.resolve_alias (ClimateData._data self) prefixes with
  | Some alias => Ok (ClimateData._set_prefix self alias value)
  | None => Raise (KeyError name)
  end.
Proof.
  induction prefixes as [|p ps IH]; simpl; [reflexivity|].
  destruct (Dict.contains p (ClimateData._data self)); [reflexivity|exact IH].
Qed.

Lemma resolve_alias_Some d prefixes alias :
  ClimateData.resolve_alias d prefixes = Some alias ->
  In alias prefixes /\ exists t, Dict.lookup alias d = Some t.
Proof.
  induction prefixes as [|p ps IH]; simpl; [discriminate|].
  unfold Dict.contains; destruct (Dict.lookup p d) as [t|] eqn:E.
  - intros H; inversion H; subst; split; [now left|now exists t].
  - intros H; destruct (IH H) as [H1 H2]; split; [now right|assumption].
Qed.

Lemma resolve_alias_None d prefixes :
  ClimateData.resolve_alias d prefixes = None <->
  forall p, In p prefixes -> Dict.lookup p d = None.
Proof.
  induction prefixes as [|p ps IH]; simpl; [split; [intros _ ? []|reflexivity]|].
  unfold Dict.contains; destruct (Dict.lookup p d) as [t|] eqn:E; split.
  - discriminate.
  - intros H; specialize (H p (or_introl eq_refl)); congruence.
  - intros H q [<-|Hq]; [assumption|]; now apply IH.
  - intros H; apply IH; intros q Hq; apply H; now right.
Qed.

(** Writing under a bound key changes neither the keys nor which keys are
    bound, so every alias resolves as before. *)
Lemma keys_setitem (V : Type) (k : string) (v : V) (m : Dict.dict V) :
  Dict.lookup k m <> None -> Dict.keys (Dict.setitem k v m) = Dict.keys m.
Proof.
  unfold Dict.keys; induction m as [|[k0 v0] m IH]; simpl; [congruence|].
  destruct (String.eqb k k0) eqn:E; simpl; [reflexivity|].
  intros H; f_equal; apply IH, H.
Qed.

Lemma contains_setitem (V : Type) (k k' : string) (v : V) (m : Dict.dict V) :
  Dict.lookup k' m <> None ->
  Dict.contains k (Dict.setitem k' v m) = Dict.contains k m.
Proof.
  intros H; unfold Dict.contains; rewrite lookup_setitem.
  destruct (String.eqb k k') eqn:E; [|reflexivity].
  apply String.eqb_eq in E; subst; destruct (Dict.lookup k' m); congruence.
Qed.

Lemma resolve_alias_setitem d prefixes k value :
  Dict.lookup k d <> None ->
  ClimateData.resolve_alias (Dict.setitem k value d) prefixes =
  ClimateData.resolve_alias d prefixes.
Proof.
  intros H; induction prefixes as [|p ps IH]; simpl; [reflexivity|].
  now rewrite contains_setitem, IH.
Qed.

(** What a setter does, and that the getter then reads the value written. *)
Lemma _set_spec self name value self' :
  ClimateData._set self name value = Ok self' ->
  exists prefixes alias,
    Dict.lookup name (ClimateData._prefixes self) = Some prefixes /\
    ClimateData.resolve_alias (ClimateData._data self) prefixes = Some alias /\
    self' = ClimateData._set_prefix self alias value /\
    ClimateData._get self' name = Ok value.
Proof.
  unfold ClimateData._set, ClimateData._get, Dict.getitem.
  destruct (Dict.lookup name (ClimateData._prefixes self)) as [ps|] eqn:E;
    simpl; [|discriminate].
  rewrite _set_loop_resolve.
  destruct (ClimateData.resolve_alias (ClimateData._data self) ps) as [alias|] eqn:R;
    [|discriminate].
  intros H; inversion H; subst self'; clear H.
  exists ps, alias; repeat split; try assumption.
  simpl; rewrite E; simpl; rewrite _get_loop_resolve; simpl.
  destruct (resolve_alias_Some _ _ R) as [_ [t Ht]].
  rewrite resolve_alias_setitem, R by congruence.
  unfold Dict.getitem; now rewrite lookup_setitem_same.
Qed.

End AliasFacts.

(** ** The view and the caller's mapping *)

Section StoreFacts.
Implicit Types (s : Store.store) (a m : Store.addr).

Lemma deref_assign_same s a d :
  a < List.length s -> Store.deref (Store.assign s a d) a = Ok d.
Proof.
  unfold Store.deref; revert a; induction s as [|d0 s IH]; simpl; intros a Ha; [lia|].
  destruct a as [|a]; simpl; [reflexivity|]. apply IH; lia.
Qed.

Lemma deref_assign_other s a m d :
  a <> m -> Store.deref (Store.assign s a d) m = Store.deref s m.
Proof.
  unfold Store.deref; revert a m; induction s as [|d0 s IH]; simpl; intros a m Hne;
    [reflexivity|].
  destruct a as [|a], m as [|m]; simpl; try reflexivity; try congruence.
  apply IH; congruence.
Qed.

Lemma deref_Ok_lt s a d : Store.deref s a = Ok d -> a < List.length s.
Proof.
  unfold Store.deref; destruct (nth_error s a) eqn:E; [|discriminate].
  intros _; apply nth_error_Some; congruence.
Qed.

Lemma deref_app_old s a d d' :
  Store.deref s a = Ok d -> Store.deref (s ++ [d']) a = Ok d.
Proof.
  intros H; pose proof (deref_Ok_lt _ _ H) as Hlt.
  unfold Store.deref in *; now rewrite nth_error_app1.
Qed.

Lemma deref_app_new s d : Store.deref (s ++ [d]) (List.length s) = Ok d.
Proof.
  unfold Store.deref; rewrite nth_error_app2, Nat.sub_diag by lia; reflexivity.
Qed.

(** C4, as the code has it.  [ClimateData(m)] holds a dictionary of its
    own: a write through a setter leaves the caller's mapping [m] as it
    was, and is made to the view's dictionary, under the first alias of the
    field that is bound there; reading the field through the view then
    gives the value written. *)
Theorem setter_writes_views_own_dict
    s m (v : Store.view) s1 (name : string) (value : tensor R) s2 :
  Store.__init__ m s = Ok (v, s1) ->
  Store._set v name value s1 = Ok s2 ->
  Store.data v <> m /\
  Store.deref s2 m = Store.deref s m /\
  (exists d prefixes alias,
      Store.deref s m = Ok d /\
      Dict.lookup name ClimateData.CLIMATE_FIELD_NAME_PREFIXES = Some prefixes /\
      ClimateData.resolve_alias d prefixes = Some alias /\
      Store.deref s2 (Store.data v) = Ok (Dict.setitem alias value d)) /\
  Store._get v name s2 = Ok value.
Proof.
  unfold Store.__init__, Store._set, Store._get, Store.data.
  destruct (Store.deref s m) as [d|e] eqn:Hd; simpl; [|discriminate].
  intros H; inversion H; subst v s1; clear H; simpl.
  rewrite deref_app_new; simpl.
  destruct (ClimateData._set _ name value) as [cd|e] eqn:Hset; simpl; [|discriminate].
  intros H; inversion H; subst s2; clear H.
  pose proof (deref_Ok_lt _ _ Hd) as Hlt.
  destruct (_set_spec _ _ _ Hset) as (ps & alias & Hps & Hres & Hcd & Hget).
  cbn [ClimateData._data ClimateData._prefixes] in Hps, Hres.
  assert (Hnew : Store.deref (Store.assign (s ++ [d]) (List.length s)
                                (ClimateData._data cd)) (List.length s)
                 = Ok (ClimateData._data cd)).
  { apply deref_assign_same; rewrite length_app; simpl; lia. }
  split; [lia|]; split; [|split].
  - rewrite deref_assign_other by lia.
    now apply deref_app_old.
  - exists d, ps, alias; repeat split; try assumption.
    rewrite Hnew, Hcd; reflexivity.
  - rewrite Hnew; subst cd; exact Hget.
Qed.

End StoreFacts.

Lemma setter_writes_views_own_dict_witness :
  Store.data (Store.mkView 1 ClimateData.CLIMATE_FIELD_NAME_PREFIXES) <> 0%nat /\
  Store.deref [callers_mapping; [("PS", scalar_field 900)]] 0 = Store.deref [callers_mapping] 0.
Proof.
  pose proof (@setter_writes_views_own_dict [callers_mapping] 0%nat
                (Store.mkView 1 ClimateData.CLIMATE_FIELD_NAME_PREFIXES)
                [callers_mapping; callers_mapping] "surface_pressure" (scalar_field 900)
                [callers_mapping; [("PS", scalar_field 900)]] eq_refl eq_refl) as H.
  split; [exact (proj1 H)|exact (proj1 (proj2 H))].
Defined.

(** C4 as stated fails: after [ClimateData(m).surface_pressure = value] the
    caller's mapping still binds ["PS"] to the old tensor. *)
Lemma setter_mutates_callers_mapping_counterexample :
  exists v s1 s2,
    Store.__init__ 0 [callers_mapping] = Ok (v, s1) /\
    Store._set v "surface_pressure" (scalar_field 900) s1 = Ok s2 /\
    (d <- Store.deref s2 0 ;; Dict.getitem "PS" d) = Ok (scalar_field 1000) /\
    ~ teq (scalar_field 1000) (scalar_field 900).
Proof.
  exists (Store.mkView 1 ClimateData.CLIMATE_FIELD_NAME_PREFIXES),
         [callers_mapping; callers_mapping],
         [callers_mapping; [("PS", scalar_field 900)]].
  repeat split.
  intros [_ H]; specialize (H [] eq_refl); simpl in H; lra.
Qed.

(** ** Which exceptions the corrector's operations raise *)

Section RaiseFacts.
Local Abbreviation rtensor := (tensor R).
Local Abbreviation dict := (Dict.dict rtensor).
Variable msg0 : string.
Local Abbreviation e0 := (ValueError msg0).

Lemma other_than_bind A B (c : result A) (k : A -> result B) :
  other_than e0 c -> (forall a, other_than e0 (k a)) -> other_than e0 (bind c k).
Proof. destruct c; simpl; auto. Qed.

Lemma other_than_Ok A (a : A) : other_than e0 (Ok a).
Proof. exact I. Qed.

Lemma other_than_mapM A B (f : A -> result B) (xs : list A) :
  (forall x, other_than e0 (f x)) -> other_than e0 (mapM f xs).
Proof.
  intros H; induction xs as [|x xs IH]; simpl; [exact I|].
  apply other_than_bind; [apply H|intros y].
  apply other_than_bind; [exact IH|intros ys; exact I].
Qed.

Ltac by_cases_on_result :=
  repeat match goal with
         | |- context [match ?x with _ => _ end] => destruct x
         end;
  simpl; try exact I; try discriminate.

Lemma other_than_getitem V (k : string) (d : Dict.dict V) :
  other_than e0 (Dict.getitem k d).
Proof. unfold Dict.getitem; by_cases_on_result. Qed.

Lemma other_than_binop f (t u : rtensor) : other_than e0 (Torch.binop f t u).
Proof. unfold Torch.binop; by_cases_on_result. Qed.

Lemma other_than_stack (ts : list rtensor) (dim : Z) : other_than e0 (stack ts dim).
Proof. unfold stack; by_cases_on_result. Qed.

Lemma other_than_sum_last2 (t : rtensor) : other_than e0 (Torch.sum_last2 t).
Proof. unfold Torch.sum_last2; by_cases_on_result. Qed.

Lemma other_than_expand (t : rtensor) sh : other_than e0 (Torch.expand t sh).
Proof. unfold Torch.expand; by_cases_on_result. Qed.

Lemma other_than_diff_last (t : rtensor) : other_than e0 (Torch.diff_last t).
Proof. unfold Torch.diff_last; by_cases_on_result. Qed.

Lemma other_than_len (t : rtensor) : other_than e0 (Torch.len t).
Proof. unfold Torch.len; by_cases_on_result. Qed.

Lemma other_than_shape_last (t : rtensor) : other_than e0 (Torch.shape_last t).
Proof. unfold Torch.shape_last; by_cases_on_result. Qed.

Create HintDb raises.

Hint Resolve other_than_Ok other_than_getitem other_than_binop other_than_stack
  other_than_sum_last2 other_than_expand other_than_diff_last other_than_len
  other_than_shape_last : raises.

Ltac step_raise :=
  repeat first
    [ exact I
    | apply other_than_bind; [|intros ?]
    | apply other_than_mapM; intros ?
    | solve [unfold Torch.add, Torch.sub, Torch.mul, Torch.div; auto with raises] ].

Lemma other_than_weighted_mean (t : rtensor) (w : option rtensor) :
  other_than e0 (Metrics.weighted_mean t w).
Proof.
  unfold Metrics.weighted_mean, Torch.mean_last2; destruct w as [w|]; [|step_raise].
  match goal with |- other_than _ (match ?c with _ => _ end) =>
    assert (H : other_than e0 c) by step_raise; destruct c as [a|[]] end;
    simpl in *; try exact I; try discriminate; assumption.
Qed.

Lemma other_than_vertical_integral (x ps ak bk : rtensor) :
  other_than e0 (Metrics.vertical_integral x ps ak bk).
Proof. unfold Metrics.vertical_integral; step_raise. Qed.

Lemma other_than__get self name : other_than e0 (ClimateData._get self name).
Proof.
  unfold ClimateData._get; step_raise.
  rewrite _get_loop_resolve; by_cases_on_result; apply other_than_getitem.
Qed.

Lemma other_than__set self name v : other_than e0 (ClimateData._set self name v).
Proof.
  unfold ClimateData._set; step_raise.
  rewrite _set_loop_resolve; by_cases_on_result.
Qed.

Lemma other_than__extract_prefix_levels self prefix :
  other_than e0 (ClimateData._extract_prefix_levels self prefix).
Proof.
  unfold ClimateData._extract_prefix_levels.
  destruct (_ =? 0)%nat; [simpl; discriminate|step_raise].
Qed.

Lemma other_than_specific_total_water self :
  other_than e0 (ClimateData.specific_total_water self).
Proof.
  unfold ClimateData.specific_total_water, ClimateData._extract_levels; step_raise.
  generalize a at 2; intros nm.
  induction a as [|p ps IH]; simpl; [discriminate|].
  pose proof (other_than__extract_prefix_levels self p) as H.
  destruct (ClimateData._extract_prefix_levels self p) as [t|[]]; simpl in *;
    try exact I; try assumption; try discriminate.
Qed.

Lemma other_than_metrics_dry_air (w ps ak bk : rtensor) :
  msg0 <> "Number of vertical levels in ak, bk, and specific_total_water mustbe the same." ->
  other_than e0 (Metrics.surface_pressure_due_to_dry_air w ps ak bk).
Proof.
  intros Hm; unfold Metrics.surface_pressure_due_to_dry_air.
  apply other_than_bind; [auto with raises|intros la].
  apply other_than_bind; [auto with raises|intros lb].
  apply other_than_bind; [destruct (negb _); step_raise|intros ok].
  destruct (negb ok); [simpl; congruence|].
  apply other_than_bind; [apply other_than_vertical_integral|intros twp].
  step_raise.
Qed.

Lemma other_than_dry_air self sigma :
  msg0 <> "Number of vertical levels in ak, bk, and specific_total_water mustbe the same." ->
  other_than e0 (ClimateData.surface_pressure_due_to_dry_air self sigma).
Proof.
  intros Hm; unfold ClimateData.surface_pressure_due_to_dry_air.
  apply other_than_bind; [apply other_than_specific_total_water|intros w].
  apply other_than_bind; [apply other_than__get|intros ps].
  now apply other_than_metrics_dry_air.
Qed.

(** After the [None] test, [_force_conserve_dry_air] raises only what its
    operations raise, and the [ValueError] about [specific_total_water]. *)
Lemma other_than_force_conserve_dry_air (input gen : dict) (area : rtensor) sigma :
  msg0 <> "Number of vertical levels in ak, bk, and specific_total_water mustbe the same." ->
  msg0 <> "specific_total_water is required for conservation" ->
  other_than e0 (Corrector._force_conserve_dry_air input gen area sigma).
Proof.
  intros Hm1 Hm2; unfold Corrector._force_conserve_dry_air.
  apply other_than_bind; [apply other_than__get|intros sp].
  cbn [Corrector.is_None].
  apply other_than_bind; [now apply other_than_dry_air|intros gda].
  apply other_than_bind; [apply other_than_weighted_mean|intros ggda].
  apply other_than_bind; [now apply other_than_dry_air|intros ida].
  apply other_than_bind; [apply other_than_weighted_mean|intros gtda].
  apply other_than_bind; [step_raise|intros err].
  apply other_than_bind; [step_raise|intros ngda].
  apply other_than_bind.
  { pose proof (other_than_specific_total_water (ClimateData.__init__ gen)) as H.
    destruct (ClimateData.specific_total_water _) as [t|[]]; simpl in *;
      try exact I; try assumption; try discriminate; congruence. }
  intros wat.
  apply other_than_bind; [step_raise|intros akd].
  apply other_than_bind; [step_raise|intros bkd].
  apply other_than_bind; [step_raise|intros akw].
  apply other_than_bind; [step_raise|intros num].
  apply other_than_bind; [step_raise|intros bkw].
  apply other_than_bind; [step_raise|intros np].
  apply other_than_bind; [apply other_than__get|intros sp'].
  apply other_than_bind; [apply other_than__set|intros gen'].
  exact I.
Qed.

End RaiseFacts.

(** C10.  [ClimateData.surface_pressure] returns the tensor bound to the
    first alias present, or raises [KeyError] when neither alias is bound;
    what it returns is never [None].  So [_force_conserve_dry_air] never
    raises the [ValueError] of its [None] test, and a mapping without
    surface pressure makes it raise the [KeyError] of the alias lookup. *)
Theorem surface_pressure_None_test_unreachable
    (input gen : Dict.dict (tensor R)) (area : tensor R)
    (sigma : ClimateData.SigmaCoordinates) :
  ((exists t, ClimateData.surface_pressure (ClimateData.__init__ input) = Ok t /\
              Corrector.is_None (Corrector.PyTensor t) = false /\
              (Dict.lookup "PRESsfc" input <> None \/ Dict.lookup "PS" input <> None))
   \/ (ClimateData.surface_pressure (ClimateData.__init__ input)
        = Raise (KeyError "surface_pressure") /\
       Dict.lookup "PRESsfc" input = None /\ Dict.lookup "PS" input = None)) /\
  (Dict.lookup "PRESsfc" input = None -> Dict.lookup "PS" input = None ->
   Corrector._force_conserve_dry_air input gen area sigma
   = Raise (KeyError "surface_pressure")) /\
  Corrector._force_conserve_dry_air input gen area sigma
  <> Raise (ValueError "surface_pressure is required to force dry air conservation").
Proof.
  assert (Hsp : ClimateData.surface_pressure (ClimateData.__init__ input) =
                match ClimateData.resolve_alias input ["PRESsfc"; "PS"] with
                | Some alias => Dict.getitem alias input
                | None => Raise (KeyError "surface_pressure")
                end).
  { unfold ClimateData.surface_pressure, ClimateData._get.
    change (Dict.getitem "surface_pressure" _) with (@Ok (list string) ["PRESsfc"; "PS"]).
    cbn [bind]; now rewrite _get_loop_resolve. }
  split; [|split].
  - rewrite Hsp; destruct (ClimateData.resolve_alias input ["PRESsfc"; "PS"]) as [alias|] eqn:E.
    + left; destruct (resolve_alias_Some _ _ E) as [Hin [t Ht]].
      exists t; unfold Dict.getitem; rewrite Ht; repeat split.
      destruct Hin as [<-|[<-|[]]]; [left|right]; congruence.
    + right; split; [reflexivity|].
      pose proof (proj1 (resolve_alias_None _ _) E) as H.
      split; apply H; simpl; auto.
  - intros H1 H2; unfold Corrector._force_conserve_dry_air.
    rewrite Hsp; simpl; unfold Dict.contains; now rewrite H1, H2.
  - pose proof (@other_than_force_conserve_dry_air
                  "surface_pressure is required to force dry air conservation"
                  input gen area sigma) as H.
    intros Heq; rewrite Heq in H; simpl in H.
    apply H; [discriminate|discriminate|reflexivity].
Qed.

(** ** More on dictionaries: distinct keys, merging *)

Section DictMoreFacts.
Variable V : Type.
Implicit Types (d : Dict.dict V) (k : string) (v : V).

Lemma keys_setitem_In k k' v d :
  In k (Dict.keys (Dict.setitem k' v d)) <-> k = k' \/ In k (Dict.keys d).
Proof.
  unfold Dict.keys; induction d as [|[k0 v0] d IH]; simpl.
  - split; [intros [H|[]]; auto|intros [H|[]]; auto].
  - destruct (String.eqb k' k0) eqn:E; simpl.
    + apply String.eqb_eq in E; subst; intuition congruence.
    + rewrite IH; tauto.
Qed.

Lemma NoDup_keys_setitem k v d :
  NoDup (Dict.keys d) -> NoDup (Dict.keys (Dict.setitem k v d)).
Proof.
  induction d as [|[k0 v0] d IH]; simpl; intros H.
  - constructor; [intros []|constructor].
  - inversion H as [|? ? Hnin Hnd]; subst.
    destruct (String.eqb k k0) eqn:E; simpl; [now constructor|].
    constructor; [|now apply IH].
    fold (Dict.keys (Dict.setitem k v d)); rewrite keys_setitem_In.
    apply String.eqb_neq in E; intros [H1|H1]; [congruence|contradiction].
Qed.

Lemma NoDup_keys_fold (items : list (string * V)) d :
  NoDup (Dict.keys d) ->
  NoDup (Dict.keys (fold_left (fun acc kv => Dict.setitem (fst kv) (snd kv) acc) items d)).
Proof.
  revert d; induction items as [|kv items IH]; simpl; intros d H; [assumption|].
  now apply IH, NoDup_keys_setitem.
Qed.

Lemma NoDup_keys_of_items (items : list (string * V)) :
  NoDup (Dict.keys (Dict.of_items items)).
Proof. apply NoDup_keys_fold; constructor. Qed.

Lemma lookup_app k d1 d2 :
  Dict.lookup k (d1 ++ d2) =
  match Dict.lookup k d1 with Some v => Some v | None => Dict.lookup k d2 end.
Proof.
  induction d1 as [|[k1 v1] d1 IH]; simpl; [reflexivity|].
  destruct (String.eqb k k1); auto.
Qed.

Lemma lookup_rev_NoDup k d :
  NoDup (Dict.keys d) -> Dict.lookup k (rev d) = Dict.lookup k d.
Proof.
  induction d as [|[k0 v0] d IH]; simpl; intros H; [reflexivity|].
  inversion H as [|? ? Hnin Hnd]; subst.
  rewrite lookup_app, IH by assumption; simpl.
  destruct (String.eqb k k0) eqn:E.
  - apply String.eqb_eq in E; subst.
    apply lookup_None_keys in Hnin; now rewrite Hnin.
  - destruct (Dict.lookup k d); reflexivity.
Qed.

(** [{**a, **b}]: the bindings of [b], then those of [a]. *)
Lemma lookup_merge k (a b : Dict.dict V) :
  NoDup (Dict.keys b) ->
  Dict.lookup k (Dict.merge a b) =
  match Dict.lookup k b with Some v => Some v | None => Dict.lookup k a end.
Proof.
  intros H; unfold Dict.merge; now rewrite lookup_fold_setitem, lookup_rev_NoDup.
Qed.

End DictMoreFacts.

Lemma lookup_map_values (V W : Type) (f : string -> V -> W) (k : string) (d : Dict.dict V) :
  Dict.lookup k (map (fun '(k, v) => (k, f k v)) d) = option_map (f k) (Dict.lookup k d).
Proof.
  induction d as [|[k0 v0] d IH]; simpl; [reflexivity|].
  destruct (String.eqb k k0) eqn:E; [|exact IH].
  apply String.eqb_eq in E; now subst.
Qed.

(** ** The rollout *)

Section StepperFacts.
Variables T L : Type.
Variable loss_zero : L.
Variable loss_add : L -> L -> L.
Variable loss_nan : L.
Variable norm_fn denorm_fn : string -> T -> T.
Variable module : tensor T -> result (tensor T).
Variable loss_obj : tensor T -> tensor T -> L.
Variable corrector :
  option (Dict.dict (tensor T) -> Dict.dict (tensor T) -> result (Dict.dict (tensor T))).
Variable ocean :
  option (list string *
          (Dict.dict (tensor T) -> Dict.dict (tensor T) -> Dict.dict (tensor T) ->
           result (Dict.dict (tensor T)))).
Variable conservation_loss : Dict.dict (tensor T) -> Dict.dict L * L.
Variable in_packer out_packer : Packer.Packer.

Local Abbreviation tensor := (Tensor.tensor T).
Local Abbreviation dict := (Dict.dict tensor).
Local Abbreviation loop_state := (Stepper.loop_state T L).
Local Abbreviation normalize := (@Stepper.normalize T norm_fn).
Local Abbreviation denormalize := (@Stepper.denormalize T denorm_fn).
Local Abbreviation query := (@Stepper.name_and_time_query_fn T).
Local Abbreviation step_body :=
  (@Stepper.step_body T L loss_add loss_nan norm_fn denorm_fn module loss_obj
     corrector ocean in_packer out_packer).
Local Abbreviation generated_state :=
  (@Stepper.generated_state T L norm_fn denorm_fn module corrector ocean
     in_packer out_packer).
Local Abbreviation run_steps :=
  (@Stepper.run_steps T L loss_add loss_nan norm_fn denorm_fn module loss_obj
     corrector ocean in_packer out_packer).
Local Abbreviation initial_state := (@Stepper.initial_state T L loss_zero in_packer).
Local Abbreviation run_on_batch :=
  (@Stepper.run_on_batch T L loss_zero loss_add loss_nan norm_fn denorm_fn module
     loss_obj corrector ocean conservation_loss in_packer out_packer).

(** What the query function returns: for each name asked for, the slice of
    its tensor at the time index; nothing else. *)
Lemma query_spec (data data_norm : dict) (time_dim : Z) (names : list string)
    (time_index : Z) (mode : Stepper.norm_mode) (res : dict) :
  query data data_norm time_dim names time_index mode = Ok res ->
  NoDup (Dict.keys res) /\
  (forall name, In name names ->
     exists full s,
       Dict.lookup name (match mode with
                         | Stepper.norm => data_norm
                         | Stepper.denorm => data
                         end) = Some full /\
       select full time_dim time_index = Ok s /\
       Dict.lookup name res = Some s) /\
  (forall name, ~ In name names -> Dict.lookup name res = None).
Proof.
  unfold Stepper.name_and_time_query_fn.
  set (src := match mode with Stepper.norm => data_norm | Stepper.denorm => data end).
  match goal with |- bind (mapM ?f0 _) _ = _ -> _ => set (f := f0) end.
  destruct (mapM f names) as [items|e] eqn:Hitems; simpl; [|discriminate].
  intros H; inversion H; subst res; clear H.
  assert (Hf : forall name p, f name = Ok p ->
            fst p = name /\
            exists full, Dict.lookup name src = Some full /\
                         select full time_dim time_index = Ok (snd p)).
  { intros name p Hp; unfold f, Dict.getitem in Hp.
    destruct (Dict.lookup name src) as [full|]; simpl in Hp; [|discriminate].
    destruct (select full time_dim time_index) as [s|[]] eqn:Es; inversion Hp; subst; simpl.
    split; [reflexivity|now exists full]. }
  pose proof (mapM_Forall2 _ _ Hitems) as HF.
  assert (Hkeys : map fst items = names).
  { clear Hitems; induction HF as [|n p ns ps Hnp _ IH]; simpl; [reflexivity|].
    f_equal; [now apply Hf|exact IH]. }
  assert (Hin : forall k v, In (k, v) items ->
            exists full, Dict.lookup k src = Some full /\
                         select full time_dim time_index = Ok v).
  { clear Hitems Hkeys; induction HF as [|n p ns ps Hnp _ IH]; simpl; [intros ? ? []|].
    intros k v [->|Hkv]; [|now apply IH].
    destruct (Hf _ _ Hnp) as [Hk Hfull]; simpl in *; now subst n. }
  split; [apply NoDup_keys_of_items|].
  assert (Hlk : forall k, Dict.lookup k (Dict.of_items items) = Dict.lookup k (rev items)).
  { intros k; unfold Dict.of_items; rewrite lookup_fold_setitem; simpl.
    now destruct (Dict.lookup k (rev items)). }
  split.
  - intros name Hname; rewrite Hlk.
    destruct (Dict.lookup name (rev items)) as [v|] eqn:E.
    + apply lookup_Some_In, in_rev in E.
      destruct (Hin _ _ E) as (full & Hfull & Hsel); now exists full, v.
    + apply lookup_None_keys in E; exfalso; apply E.
      unfold Dict.keys; rewrite map_rev, <- in_rev, Hkeys; exact Hname.
  - intros name Hname; rewrite Hlk; apply lookup_None_keys.
    unfold Dict.keys; rewrite map_rev, <- in_rev, Hkeys; exact Hname.
Qed.

Lemma of_items_lookup_None (V : Type) (items : list (string * V)) (k : string) :
  Dict.lookup k (Dict.of_items items) = None <-> ~ In k (map fst items).
Proof.
  unfold Dict.of_items; rewrite lookup_fold_setitem; simpl.
  destruct (Dict.lookup k (rev items)) as [v|] eqn:E.
  - split; [discriminate|intros H; exfalso; apply H].
    apply lookup_Some_In, in_rev in E.
    apply in_map_iff; now exists (k, v).
  - split; [intros _|reflexivity].
    apply lookup_None_keys in E; unfold Dict.keys in E.
    now rewrite map_rev, <- in_rev in E.
Qed.

(** The mapping [unpack] returns binds exactly the declared names. *)
Lemma unpack_keys (p : Packer.Packer) (t : tensor) (axis : option Z)
    (td : Packer.TensorDict T) :
  Packer.unpack p t axis = Ok td ->
  NoDup (Dict.keys (Packer.td_items td)) /\
  forall k, In k (Packer.names p) <-> Dict.lookup k (Packer.td_items td) <> None.
Proof.
  unfold Packer.unpack, Packer._unpack.
  destruct (Packer.pop_shape _ _) as [ps|e]; simpl; [|discriminate].
  match goal with |- context [mapM ?f0 ?l] => set (f := f0); set (en := l) end.
  destruct (mapM f en) as [items|e] eqn:Hitems; simpl; [|discriminate].
  intros H; inversion H; subst td; clear H; simpl.
  split; [apply NoDup_keys_of_items|].
  assert (Hkeys : map fst items = map snd en).
  { pose proof (mapM_Forall2 _ _ Hitems) as HF.
    clear Hitems; induction HF as [|[i n] q ens qs Hq _ IH]; simpl; [reflexivity|].
    f_equal; [|exact IH].
    unfold f in Hq; destruct (select t _ _); simpl in Hq; inversion Hq; reflexivity. }
  assert (Hen : map snd en = Packer.names p) by apply map_snd_enumerate_from.
  intros k; rewrite <- Hen, <- Hkeys.
  pose proof (of_items_lookup_None items k) as Hn.
  destruct (Dict.lookup k (Dict.of_items items)) as [v|].
  - split; [discriminate|intros _].
    destruct (in_dec string_dec k (map fst items)) as [Hi|Hi]; [assumption|].
    apply Hn in Hi; discriminate.
  - split; [intros Hi; exfalso; now apply (proj1 Hn)|congruence].
Qed.

Ltac inv_bind H :=
  match type of H with
  | bind ?c _ = Ok _ =>
      let E := fresh "E" in
      destruct c eqn:E; [cbn [bind] in H|discriminate H]
  end.

(** One iteration, read backwards from its result. *)
Lemma step_body_inv (data fdn : dict) (target : option tensor) (step : nat)
    (st st' : loop_state) :
  step_body data fdn target step st = Ok st' ->
  exists (gen_tensor : tensor) (td : Packer.TensorDict T) (forcing : dict) (step_loss : L),
    Packer.unpack out_packer gen_tensor (Some Stepper.channel_dim) = Ok td /\
    Stepper.gen_data_norm st' = Stepper.gen_data_norm st ++ [Packer.td_items td] /\
    query data fdn Stepper.time_dim
      (Stepper.forcing_names_of (Packer.names in_packer) (Packer.td_items td))
      (Z.of_nat step + 1) Stepper.norm = Ok forcing /\
    Stepper.input_data_norm st' = Dict.merge forcing (Packer.td_items td) /\
    Stepper.metrics st' =
      Dict.setitem ("loss_step_" ++ Stepper.str_of_Z (Z.of_nat step))%string step_loss
                   (Stepper.metrics st) /\
    Stepper.loss st' = loss_add (Stepper.loss st) step_loss /\
    (target = None -> step_loss = loss_nan).
Proof.
  unfold Stepper.step_body; intros H.
  repeat inv_bind H.
  inversion H; subst st'; clear H; cbn.
  do 4 eexists.
  split; [|split; [reflexivity|split; [|split; [reflexivity|split; [reflexivity|split; [reflexivity|]]]]]].
  - eassumption.
  - eassumption.
  - intros ->; match goal with E : Ok None = Ok ?o |- _ => inversion E; reflexivity end.
Qed.

(** The mapping a step appends to the generated series is the generated
    state of that step, packed and unpacked over the out-names. *)
Lemma step_body_generated (data fdn : dict) (target : option tensor) (step : nat)
    (st st' : loop_state) :
  step_body data fdn target step st = Ok st' ->
  exists (renormalised : dict) (gen_tensor : tensor) (td : Packer.TensorDict T),
    generated_state data fdn step st = Ok renormalised /\
    Packer.pack out_packer renormalised (Some Stepper.channel_dim) = Ok gen_tensor /\
    Packer.unpack out_packer gen_tensor (Some Stepper.channel_dim) = Ok td /\
    Stepper.gen_data_norm st' = Stepper.gen_data_norm st ++ [Packer.td_items td].
Proof.
  unfold Stepper.step_body, Stepper.generated_state; intros H.
  repeat inv_bind H.
  inversion H; subst st'; clear H; cbn.
  repeat match goal with E : ?c = Ok _ |- context [bind ?c _] => rewrite E; cbn end.
  do 3 eexists.
  split; [reflexivity|split; [eassumption|split; [eassumption|reflexivity]]].
Qed.

Lemma run_steps_app (data fdn : dict) (target : option tensor)
    (xs ys : list nat) (st : loop_state) :
  run_steps data fdn target (xs ++ ys) st =
  bind (run_steps data fdn target xs st) (run_steps data fdn target ys).
Proof.
  revert st; induction xs as [|x xs IH]; simpl; intros st; [reflexivity|].
  destruct (step_body data fdn target x st); simpl; [apply IH|reflexivity].
Qed.

(** A loop that completed [n] steps completed step [s < n]: the state with
    which step [s] started, and the one it left. *)
Lemma run_steps_at (data fdn : dict) (target : option tensor) (n s : nat)
    (st0 stn : loop_state) :
  run_steps data fdn target (seq 0 n) st0 = Ok stn -> s < n ->
  exists st_s st',
    run_steps data fdn target (seq 0 s) st0 = Ok st_s /\
    step_body data fdn target s st_s = Ok st' /\
    run_steps data fdn target (seq (S s) (n - S s)) st' = Ok stn.
Proof.
  intros H Hs.
  replace n with (s + S (n - S s)) in H by lia.
  rewrite seq_app, run_steps_app in H; simpl in H.
  destruct (run_steps data fdn target (seq 0 s) st0) as [st_s|e]; simpl in H; [|discriminate].
  destruct (step_body data fdn target s st_s) as [st'|e] eqn:E; simpl in H; [|discriminate].
  exists st_s, st'; auto.
Qed.

(** Each step appends one mapping to the generated series. *)
Lemma run_steps_gen_data_norm (data fdn : dict) (target : option tensor)
    (steps : list nat) (st st' : loop_state) :
  run_steps data fdn target steps st = Ok st' ->
  exists gs, Stepper.gen_data_norm st' = Stepper.gen_data_norm st ++ gs /\
             List.length gs = List.length steps.
Proof.
  revert st; induction steps as [|x xs IH]; simpl; intros st H.
  - inversion H; subst; exists []; now rewrite app_nil_r.
  - destruct (step_body data fdn target x st) as [st1|e] eqn:E; simpl in H; [|discriminate].
    destruct (step_body_inv _ _ _ _ _ E) as (g & td & f & sl & _ & Hg & _).
    destruct (IH _ H) as (gs & Hgs & Hlen).
    exists (Packer.td_items td :: gs); rewrite Hgs, Hg, <- app_assoc; simpl; auto.
Qed.

(** What [run_on_batch] went through when it returns. *)
Lemma run_on_batch_inv (data : dict) (n : nat) (r : Stepper.SteppedData T L) :
  run_on_batch data n = Ok r ->
  exists (target : option tensor) (st0 stn : loop_state) (initial : dict)
         (items : list (string * tensor)),
    Stepper._pack_data_if_available out_packer (normalize data) Stepper.channel_dim
      = Ok target /\
    initial_state data (normalize data) = Ok st0 /\
    run_steps data (normalize data) target (seq 0 n) st0 = Ok stn /\
    query data (normalize data) Stepper.time_dim (Packer.names out_packer) 0 Stepper.norm
      = Ok initial /\
    mapM (fun name =>
            xs <- mapM (fun x => Dict.getitem name x)
                       (initial :: Stepper.gen_data_norm stn) ;;
            t <- stack xs Stepper.time_dim ;;
            Ok (name, t))
         (Packer.names out_packer) = Ok items /\
    Stepper.sd_gen_data_norm r = Dict.of_items items /\
    Stepper.gen_data r = denormalize (Dict.of_items items) /\
    Stepper.target_data r = data /\
    Stepper.target_data_norm r = normalize data.
Proof.
  unfold Stepper.run_on_batch; intros H.
  repeat inv_bind H.
  destruct (conservation_loss _) as [cm cl].
  inversion H; subst r; clear H; cbn.
  do 5 eexists; repeat split; eassumption.
Qed.

(** C6.  When [run_on_batch] returns, consider step [s < n_forward_steps]
    and the state it leaves, whose input mapping is the one used for step
    [s + 1].  A declared in-name that is not a declared out-name is bound
    there to the slice at time index [s + 1] of the batch's normalised
    tensor of that name.  A declared out-name is bound to what the step
    generated for it: the entry of the last mapping of the generated series,
    which equals the entry of the step's generated state (the module's
    output, corrected, prescribed by the ocean and renormalised). *)
Theorem forcing_fields_come_from_batch
    (data : dict) (n s : nat) (r : Stepper.SteppedData T L) :
  run_on_batch data n = Ok r ->
  s < n ->
  exists (target : option tensor) (st0 st_s st' : loop_state)
         (gen_norm renormalised : dict),
    initial_state data (normalize data) = Ok st0 /\
    run_steps data (normalize data) target (seq 0 s) st0 = Ok st_s /\
    step_body data (normalize data) target s st_s = Ok st' /\
    Stepper.gen_data_norm st' = Stepper.gen_data_norm st_s ++ [gen_norm] /\
    (forall name, In name (Packer.names in_packer) ->
                  ~ In name (Packer.names out_packer) ->
       exists full t,
         Dict.lookup name (normalize data) = Some full /\
         select full 1 (Z.of_nat s + 1) = Ok t /\
         Dict.lookup name (Stepper.input_data_norm st') = Some t) /\
    generated_state data (normalize data) s st_s = Ok renormalised /\
    (forall name, In name (Packer.names out_packer) ->
       exists g gd, Dict.lookup name gen_norm = Some g /\
                    Dict.lookup name renormalised = Some gd /\ teq g gd /\
                    Dict.lookup name (Stepper.input_data_norm st') = Some g).
Proof.
  intros Hrun Hs.
  destruct (run_on_batch_inv _ _ Hrun) as (target & st0 & stn & ini & items & _ & H0 & Hloop & _).
  pose proof Hloop as Hat; eapply run_steps_at in Hat; [|exact Hs].
  destruct Hat as (st_s & st' & Hpre & Hstep & _).
  pose proof Hstep as Hinv; apply step_body_inv in Hinv.
  destruct Hinv as (g & td & forcing & sl & Hunpack & Hgen & Hq & Hinp & _).
  pose proof Hstep as Hgs; apply step_body_generated in Hgs.
  destruct Hgs as (renormalised & gt' & td' & Hstate & Hpack' & Hunpack' & Hgen').
  assert (Htd : Packer.td_items td' = Packer.td_items td).
  { rewrite Hgen in Hgen'; apply app_inv_head in Hgen'; now injection Hgen'. }
  pose proof Hunpack as Hk; apply unpack_keys in Hk; destruct Hk as [Hnd Hkeys].
  pose proof Hq as Hqs; apply query_spec in Hqs; destruct Hqs as (_ & Hforced & _).
  exists target, st0, st_s, st', (Packer.td_items td), renormalised.
  split; [assumption|split; [assumption|split; [assumption|split; [assumption|
    split; [|split; [assumption|]]]]]].
  - intros name Hin Hout.
    assert (Hnone : Dict.lookup name (Packer.td_items td) = None).
    { destruct (Dict.lookup name (Packer.td_items td)) eqn:E; [|reflexivity].
      exfalso; apply Hout, Hkeys; congruence. }
    destruct (Hforced name) as (full & t & Hfull & Hsel & Hres).
    { unfold Stepper.forcing_names_of; apply filter_In; split.
      - now apply nodup_In.
      - unfold Dict.contains; now rewrite Hnone. }
    exists full, t; repeat split; try assumption.
    rewrite Hinp, lookup_merge, Hnone by assumption; exact Hres.
  - intros name Hout.
    destruct (unpack_pack_lookup _ _ _ Hpack' Hunpack' name Hout)
      as (gt & gd & Hgt & Hgd & Hteq).
    rewrite Htd in Hgt.
    exists gt, gd; split; [assumption|split; [assumption|split; [assumption|]]].
    rewrite Hinp, lookup_merge, Hgt by assumption; reflexivity.
Qed.

(** Bindings of a comprehension [{name: v for name in names}] whose value
    is computed from the name. *)
Lemma of_items_mapM (V : Type) (f : string -> result (string * V))
    (names : list string) (items : list (string * V)) :
  mapM f names = Ok items ->
  (forall x p, f x = Ok p -> fst p = x) ->
  (forall name, In name names ->
     exists v, f name = Ok (name, v) /\ Dict.lookup name (Dict.of_items items) = Some v) /\
  (forall name, ~ In name names -> Dict.lookup name (Dict.of_items items) = None).
Proof.
  intros Hitems Hfst.
  pose proof (mapM_Forall2 _ _ Hitems) as HF.
  assert (Hkeys : map fst items = names).
  { clear Hitems; induction HF as [|x p xs ps Hxp _ IH]; simpl; [reflexivity|].
    f_equal; [now apply Hfst|exact IH]. }
  assert (Hin : forall k v, In (k, v) items -> f k = Ok (k, v)).
  { clear Hitems Hkeys; induction HF as [|x p xs ps Hxp _ IH]; simpl; [intros ? ? []|].
    intros k v [->|Hkv]; [|now apply IH].
    pose proof (Hfst _ _ Hxp) as Hk; simpl in Hk; now subst x. }
  split.
  - intros name Hname.
    destruct (Dict.lookup name (Dict.of_items items)) as [v|] eqn:E.
    + exists v; split; [|reflexivity]; apply Hin.
      unfold Dict.of_items in E; rewrite lookup_fold_setitem in E; simpl in E.
      destruct (Dict.lookup name (rev items)) as [v'|] eqn:E'; [|discriminate].
      inversion E; subst v'; now apply lookup_Some_In, in_rev in E'.
    + apply of_items_lookup_None in E; exfalso; apply E; now rewrite Hkeys.
  - intros name Hname; apply of_items_lookup_None; now rewrite Hkeys.
Qed.

(** The [j]-th mapping of the generated series is the one step [j] appended. *)
Lemma run_steps_nth (data fdn : dict) (target : option tensor) (n j : nat)
    (st0 stn : loop_state) :
  run_steps data fdn target (seq 0 n) st0 = Ok stn ->
  Stepper.gen_data_norm st0 = [] ->
  j < n ->
  exists st_j st_j' g,
    run_steps data fdn target (seq 0 j) st0 = Ok st_j /\
    step_body data fdn target j st_j = Ok st_j' /\
    Stepper.gen_data_norm st_j' = Stepper.gen_data_norm st_j ++ [g] /\
    nth_error (Stepper.gen_data_norm stn) j = Some g.
Proof.
  intros Hloop H0 Hj.
  pose proof Hloop as Hat; eapply run_steps_at in Hat; [|exact Hj].
  destruct Hat as (st_j & st_j' & Hpre & Hstep & Hrest).
  pose proof Hstep as Hinv; apply step_body_inv in Hinv.
  destruct Hinv as (g & td & forcing & sl & _ & Hgen & _).
  pose proof Hpre as Hpre'.
  apply run_steps_gen_data_norm in Hpre', Hrest.
  destruct Hpre' as (gs1 & Hgs1 & Hlen1), Hrest as (gs2 & Hgs2 & _).
  rewrite H0 in Hgs1; simpl in Hgs1; rewrite length_seq in Hlen1.
  exists st_j, st_j', (Packer.td_items td); repeat split; try assumption.
  rewrite Hgs2, Hgen, Hgs1, <- app_assoc.
  rewrite nth_error_app2 by lia; rewrite Hlen1, Nat.sub_diag; reflexivity.
Qed.

Lemma initial_state_gen_data_norm (data fdn : dict) (st0 : loop_state) :
  initial_state data fdn = Ok st0 -> Stepper.gen_data_norm st0 = [].
Proof.
  unfold Stepper.initial_state; intros H; inv_bind H; now inversion H.
Qed.

(** The series of one name: the tensors gathered from the initial mapping
    and from the mappings of the steps, stacked along the time axis. *)
Lemma series_entries (name : string) (initial : dict) (gens : list dict)
    (xs : list tensor) (tn : tensor) :
  mapM (fun x => Dict.getitem name x) (initial :: gens) = Ok xs ->
  stack xs Stepper.time_dim = Ok tn ->
  nth 1 (shape tn) 0 = S (List.length gens) /\
  (exists x0 e0, Dict.lookup name initial = Some x0 /\
                 select tn Stepper.time_dim 0 = Ok e0 /\ teq e0 x0) /\
  (forall j g, nth_error gens j = Some g ->
     exists gt ej, Dict.lookup name g = Some gt /\
                   select tn Stepper.time_dim (Z.of_nat (S j)) = Ok ej /\ teq ej gt).
Proof.
  intros Hxs Hstack.
  pose proof (mapM_length _ _ Hxs) as Hlen; simpl in Hlen.
  pose proof (mapM_Forall2 _ _ Hxs) as HF.
  destruct (stack_inv _ _ Hstack) as (t0 & a & Hhd & Ha & Hsh & Hshape).
  pose proof Ha as Ha'; apply wrap_index_nonneg in Ha'; [|unfold Stepper.time_dim; lia].
  destruct Ha' as [Ha1 Halt].
  change (Z.to_nat Stepper.time_dim) with 1 in Ha1; subst a.
  assert (Hsel : forall j, j < List.length xs ->
            exists u, select tn Stepper.time_dim (Z.of_nat j) = Ok u /\ teq u (nth j xs t0)).
  { intros j Hj; eapply select_stack; eauto. }
  inversion HF as [|i0 x0 gens' xs' Hx0 HF' Ei Ex]; subst.
  simpl in Hhd; inversion Hhd; subst t0; clear Hhd.
  split; [|split].
  - rewrite Hshape, nth_insert_at by lia; simpl in *; lia.
  - destruct (Hsel 0) as (u & Hu & Hteq); [simpl; lia|].
    exists x0, u; split; [now apply getitem_Ok|split; [exact Hu|exact Hteq]].
  - intros j g Hg.
    assert (Hj : j < List.length gens) by (apply nth_error_Some; congruence).
    destruct (Hsel (S j)) as (u & Hu & Hteq); [simpl in *; lia|].
    simpl in Hteq.
    assert (Hgt : Dict.getitem name g = Ok (nth j xs' x0)).
    { clear - HF' Hg. revert j Hg; induction HF' as [|g0 y gs ys Hy _ IH]; intros j Hg.
      - destruct j; discriminate.
      - destruct j as [|j]; simpl in *; [inversion Hg; now subst|now apply IH]. }
    exists (nth j xs' x0), u; split; [now apply getitem_Ok|split; [exact Hu|exact Hteq]].
Qed.

(** Step [j] of a loop that completed: the generated state of the step,
    packed and unpacked over the out-names, is entry [j] of the list the
    loop gathered. *)
Lemma run_steps_nth_generated (data fdn : dict) (target : option tensor) (n j : nat)
    (st0 stn : loop_state) :
  run_steps data fdn target (seq 0 n) st0 = Ok stn ->
  Stepper.gen_data_norm st0 = [] ->
  j < n ->
  exists (st_j st_j' : loop_state) (renormalised : dict) (gen_tensor : tensor)
         (td : Packer.TensorDict T),
    run_steps data fdn target (seq 0 j) st0 = Ok st_j /\
    step_body data fdn target j st_j = Ok st_j' /\
    generated_state data fdn j st_j = Ok renormalised /\
    Packer.pack out_packer renormalised (Some Stepper.channel_dim) = Ok gen_tensor /\
    Packer.unpack out_packer gen_tensor (Some Stepper.channel_dim) = Ok td /\
    nth_error (Stepper.gen_data_norm stn) j = Some (Packer.td_items td).
Proof.
  intros Hloop H0 Hj.
  pose proof Hloop as Hat; eapply run_steps_at in Hat; [|exact Hj].
  destruct Hat as (st_j & st_j' & Hpre & Hstep & Hrest).
  destruct (step_body_generated _ _ _ _ _ Hstep) as (rn & gt & td & Hgs & Hpk & Hun & Happ).
  pose proof Hpre as Hpre'.
  apply run_steps_gen_data_norm in Hpre', Hrest.
  destruct Hpre' as (gs1 & Hgs1 & Hlen1), Hrest as (gs2 & Hgs2 & _).
  rewrite H0 in Hgs1; simpl in Hgs1; rewrite length_seq in Hlen1.
  exists st_j, st_j', rn, gt, td; repeat split; try assumption.
  rewrite Hgs2, Happ, Hgs1, <- app_assoc.
  rewrite nth_error_app2 by lia; rewrite Hlen1, Nat.sub_diag; reflexivity.
Qed.

(** C7.  When [run_on_batch] returns after [n] forward steps, the loop
    went through [n] steps.  For every declared out-name, the normalised
    series binds a tensor with [n + 1] entries along the time axis: entry 0
    is the slice at time index 0 of the batch's normalised tensor of that
    name, and entry [j + 1] is the field of that name in the generated
    state of step [j]: the output of the module on the packed input of the
    step, unpacked, denormalised, corrected, prescribed and renormalised.
    The denormalised series binds the same tensor denormalised, so its
    entries are those entries denormalised. *)
Theorem generated_series_has_n_plus_1_entries
    (data : dict) (n : nat) (r : Stepper.SteppedData T L) :
  run_on_batch data n = Ok r ->
  exists (target : option tensor) (st0 stn : loop_state),
    initial_state data (normalize data) = Ok st0 /\
    run_steps data (normalize data) target (seq 0 n) st0 = Ok stn /\
    List.length (Stepper.gen_data_norm stn) = n /\
    (forall name, In name (Packer.names out_packer) ->
       exists tn,
         Dict.lookup name (Stepper.sd_gen_data_norm r) = Some tn /\
         Dict.lookup name (Stepper.gen_data r) = Some (tmap (denorm_fn name) tn) /\
         nth 1 (shape tn) 0 = S n /\
         nth 1 (shape (tmap (denorm_fn name) tn)) 0 = S n /\
         (forall i e, select tn 1 i = Ok e ->
            select (tmap (denorm_fn name) tn) 1 i = Ok (tmap (denorm_fn name) e)) /\
         (exists full u0 e0,
            Dict.lookup name (normalize data) = Some full /\
            select full 1 0 = Ok u0 /\
            select tn 1 0 = Ok e0 /\ teq e0 u0) /\
         (forall j, j < n ->
            exists (st_j : loop_state) (renormalised : dict) (gd ej : tensor),
              run_steps data (normalize data) target (seq 0 j) st0 = Ok st_j /\
              generated_state data (normalize data) j st_j = Ok renormalised /\
              Dict.lookup name renormalised = Some gd /\
              select tn 1 (Z.of_nat (S j)) = Ok ej /\ teq ej gd)).
Proof.
  intros Hrun.
  destruct (run_on_batch_inv _ _ Hrun)
    as (target & st0 & stn & ini & items & _ & H0 & Hloop & Hini & Hitems & Hgn & Hgd & _).
  pose proof (initial_state_gen_data_norm _ _ H0) as Hnil.
  assert (Hlen : List.length (Stepper.gen_data_norm stn) = n).
  { pose proof Hloop as Hg; apply run_steps_gen_data_norm in Hg.
    destruct Hg as (gs & Hgs & Hl); rewrite Hgs, Hnil, length_seq in *; simpl; exact Hl. }
  exists target, st0, stn.
  split; [assumption|]; split; [assumption|]; split; [assumption|].
  intros name Hname.
  apply of_items_mapM in Hitems.
  2:{ intros x p Hp; repeat inv_bind Hp; now inversion Hp. }
  destruct Hitems as [Hbound _].
  destruct (Hbound name Hname) as (tn & Hf & Hlk).
  repeat inv_bind Hf.
  match goal with Hs : stack _ _ = Ok ?t |- _ =>
    assert (Et : t = tn) by (inversion Hf; reflexivity); subst t; clear Hf end.
  match goal with Hm : mapM _ (ini :: _) = Ok ?xs, Hs : stack ?xs _ = Ok _ |- _ =>
    destruct (series_entries _ _ _ Hm Hs) as (Hshape & (x0 & e0 & Hx0 & He0 & Hteq0) & Hrest)
  end.
  rewrite Hlen in Hshape.
  apply query_spec in Hini; destruct Hini as (_ & Hq & _).
  destruct (Hq name Hname) as (full & u0 & Hfull & Hu0 & Hiu).
  rewrite Hx0 in Hiu; inversion Hiu; subst u0; clear Hiu.
  exists tn; rewrite Hgn, Hgd.
  split; [assumption|]; split.
  { unfold Stepper.denormalize; rewrite lookup_map_values, Hlk; reflexivity. }
  split; [assumption|]; split; [assumption|]; split.
  { intros i e He; rewrite select_tmap, He; reflexivity. }
  split; [exists full, x0, e0; auto|].
  intros j Hj.
  destruct (@run_steps_nth_generated _ _ _ _ _ _ _ Hloop Hnil Hj)
    as (st_j & st_j' & rn & gt & td & Hpre & _ & Hgs & Hpk & Hun & Hnth).
  destruct (Hrest j _ Hnth) as (g & ej & Hg & Hej & Hteq).
  destruct (unpack_pack_lookup _ _ _ Hpk Hun name Hname) as (g' & gd & Hg' & Hgd' & Hteq').
  rewrite Hg in Hg'; injection Hg' as <-.
  exists st_j, rn, gd, ej.
  split; [exact Hpre|split; [exact Hgs|split; [exact Hgd'|split; [exact Hej|]]]].
  eapply teq_trans; eassumption.
Qed.

Lemma mapM_Raise_inv (A B : Type) (f : A -> result B) (xs : list A) (e : exn) :
  mapM f xs = Raise e -> exists x, In x xs /\ f x = Raise e.
Proof.
  induction xs as [|x xs IH]; simpl; [discriminate|].
  destruct (f x) as [y|e'] eqn:Hx; simpl.
  - destruct (mapM f xs) as [ys|e'']; simpl; [discriminate|].
    intros H; inversion H; subst.
    destruct IH as (x' & Hin & Hx'); [reflexivity|]; exists x'; auto.
  - intros H; inversion H; subst; exists x; auto.
Qed.

(** The scripted [_pack] raises [RuntimeError] only, so
    [_pack_data_if_available], which turns a [ValueError] into [None],
    passes every exception of [pack] on. *)
Lemma pack_raises_RuntimeError (p : Packer.Packer) (d : dict) (axis : option Z) (e : exn) :
  Packer.pack p d axis = Raise e -> exists msg, e = RuntimeError msg.
Proof.
  unfold Packer.pack, Packer._pack; intros H.
  now destruct (scripted_Raise _ H) as (_ & Hmsg).
Qed.

Lemma pack_raises_no_ValueError (p : Packer.Packer) (d : dict) (axis : option Z) (e : exn) :
  Packer.pack p d axis = Raise e -> is_ValueError e = false.
Proof.
  intros H; destruct (pack_raises_RuntimeError _ _ _ H) as (msg & ->); reflexivity.
Qed.

Lemma _pack_data_if_available_not_None (p : Packer.Packer) (d : dict) (axis : Z) :
  Stepper._pack_data_if_available p d axis <> Ok None.
Proof.
  unfold Stepper._pack_data_if_available.
  destruct (Packer.pack p d (Some axis)) as [t|e] eqn:E; [discriminate|].
  now rewrite (pack_raises_no_ValueError _ _ _ E).
Qed.


(** *** A rollout over a well-formed batch returns *)

(** Every name of [names] is bound in [d] to a tensor of shape [sh]. *)
Local Abbreviation has_fields names sh d :=
  (forall name : string, In name names ->
     exists t : tensor, Dict.lookup name d = Some t /\ shape t = sh).

Lemma has_fields_normalize (names : list string) (sh : list nat) (d : dict) :
  has_fields names sh d -> has_fields names sh (normalize d).
Proof.
  intros Hd name Hname; destruct (Hd name Hname) as (t & Ht & Hsh).
  exists (tmap (norm_fn name) t); split; [|exact Hsh].
  unfold Stepper.normalize; now rewrite lookup_map_values, Ht.
Qed.

Lemma has_fields_denormalize (names : list string) (sh : list nat) (d : dict) :
  has_fields names sh d -> has_fields names sh (denormalize d).
Proof.
  intros Hd name Hname; destruct (Hd name Hname) as (t & Ht & Hsh).
  exists (tmap (denorm_fn name) t); split; [|exact Hsh].
  unfold Stepper.denormalize; now rewrite lookup_map_values, Ht.
Qed.

Lemma select_shape (t u : tensor) (dim index : Z) :
  select t dim index = Ok u ->
  exists a, wrap_index (rank t) dim = Some a /\ shape u = remove_at a (shape t).
Proof.
  unfold select; destruct (wrap_index (rank t) dim) as [a|]; [|discriminate].
  destruct (wrap_index (nth a (shape t) 0) index) as [i|]; [|discriminate].
  intros H; inversion H; subst u; exists a; auto.
Qed.

(** Packing succeeds on a mapping that binds every declared name to a
    tensor of one shape. *)
Lemma pack_returns (p : Packer.Packer) (d : dict) (sh : list nat) (axis : Z) (a : nat) :
  Packer.names p <> [] ->
  has_fields (Packer.names p) sh d ->
  wrap_index (S (List.length sh)) axis = Some a ->
  exists t, Packer.pack p d (Some axis) = Ok t /\
            shape t = insert_at a (List.length (Packer.names p)) sh.
Proof.
  intros Hne Hd Ha.
  destruct (gather_Ok (Packer.names p) d) as (ts & Hts & Hlen & Hnth).
  { intros k Hk; destruct (Hd k Hk) as (t & Ht & _); congruence. }
  destruct (@stack_Ok T ts sh axis a) as (s & Hs & Hshape & _).
  - destruct ts; [|discriminate].
    destruct (Packer.names p); [now elim Hne|discriminate].
  - intros t Ht; destruct (In_nth _ _ t Ht) as (j & Hj & Hjt).
    rewrite Hlen in Hj.
    destruct (Hd (nth j (Packer.names p) "")) as (t' & Ht' & Hsh'); [now apply nth_In|].
    rewrite (Hnth j t Hj), Hjt in Ht'; injection Ht' as <-; exact Hsh'.
  - exact Ha.
  - exists s; split; [|now rewrite Hshape, Hlen].
    unfold Packer.pack, Packer._pack; rewrite Hts; cbn [bind]; now rewrite Hs.
Qed.

(** Unpacking succeeds on a tensor whose axis is long enough for the
    declared names. *)
Lemma unpack_returns (p : Packer.Packer) (t : tensor) (axis : Z) (a : nat) :
  wrap_index (List.length (shape t)) axis = Some a ->
  List.length (Packer.names p) <= nth a (shape t) 0 ->
  exists td, Packer.unpack p t (Some axis) = Ok td /\
             has_fields (Packer.names p) (remove_at a (shape t)) (Packer.td_items td).
Proof.
  intros Ha Hlen.
  assert (Hsel : forall j, j < List.length (Packer.names p) ->
            exists u, select t axis (Z.of_nat j) = Ok u /\
                      shape u = remove_at a (shape t)).
  { intros j Hj; unfold select, rank; rewrite Ha.
    rewrite wrap_index_of_nat by lia; eauto. }
  destruct (unpack_items t (Packer.names p) axis) as (items & Hitems & Hilen & Hinth).
  { intros j Hj; destruct (Hsel j Hj) as (u & Hu & _); eauto. }
  exists (Packer.mkTensorDict (Dict.of_items items) (remove_at a (shape t))); split.
  - unfold Packer.unpack, Packer.pop_shape; rewrite Ha; cbn [bind].
    now rewrite Hitems.
  - intros name Hname; cbn.
    pose proof (lookup_of_items_nth items name) as Hk.
    destruct (Dict.lookup name (Dict.of_items items)) as [v|].
    + exists v; split; [reflexivity|].
      destruct Hk as (j & Hj & Hn); rewrite Hilen in Hj.
      destruct (Hinth j (name, v) Hj) as (u & Hju & Hselu).
      rewrite Hn in Hju; injection Hju as _ Hv; subst u.
      destruct (Hsel j Hj) as (u' & Hu' & Hsh).
      rewrite Hselu in Hu'; injection Hu' as <-; exact Hsh.
    + exfalso; apply Hk.
      destruct (In_nth _ _ "" Hname) as (j & Hj & Hn).
      apply in_map_iff.
      destruct (Hinth j (name, t) Hj) as (u & Hju & _).
      exists (nth j items (name, t)); split; [now rewrite Hju|].
      apply nth_In; lia.
Qed.

(** The query succeeds when every name asked for has values at the time
    index. *)
Lemma query_returns (data data_norm : dict) (names : list string) (index : nat)
    (mode : Stepper.norm_mode) (b tm : nat) (rest : list nat) :
  has_fields names (b :: tm :: rest)
    (match mode with Stepper.norm => data_norm | Stepper.denorm => data end) ->
  index < tm ->
  exists res, query data data_norm Stepper.time_dim names (Z.of_nat index) mode = Ok res /\
              NoDup (Dict.keys res) /\
              has_fields names (b :: rest) res /\
              (forall name, ~ In name names -> Dict.lookup name res = None).
Proof.
  intros Hd Hidx.
  assert (Hsel : forall name, In name names ->
            exists full s,
              Dict.lookup name (match mode with
                                | Stepper.norm => data_norm
                                | Stepper.denorm => data
                                end) = Some full /\
              select full Stepper.time_dim (Z.of_nat index) = Ok s /\
              shape s = b :: rest).
  { intros name Hname; destruct (Hd name Hname) as (full & Hfull & Hsh).
    exists full; unfold select, rank, Stepper.time_dim; rewrite Hsh.
    change 1%Z with (Z.of_nat 1).
    rewrite (@wrap_index_of_nat (List.length (b :: tm :: rest)) 1) by (simpl; lia).
    cbn [nth]; rewrite (@wrap_index_of_nat tm index) by lia; eauto. }
  destruct (query data data_norm Stepper.time_dim names (Z.of_nat index) mode)
    as [res|e] eqn:Hq.
  - exists res; split; [reflexivity|].
    destruct (query_spec _ _ _ _ _ _ Hq) as (Hnd & Hin & Hout).
    split; [exact Hnd|split; [|exact Hout]].
    intros name Hname.
    destruct (Hin name Hname) as (full & s & Hfull & Hs & Hres).
    destruct (Hsel name Hname) as (full' & s' & Hfull' & Hs' & Hsh).
    rewrite Hfull in Hfull'; injection Hfull' as <-.
    rewrite Hs in Hs'; injection Hs' as <-.
    exists s; auto.
  - exfalso; revert Hq; unfold Stepper.name_and_time_query_fn.
    match goal with |- bind (mapM ?f0 _) _ = _ -> _ =>
      destruct (mapM_total f0 names) as (items & Hitems) end.
    + intros name Hname; destruct (Hsel name Hname) as (full & s & Hfull & Hs & _).
      apply getitem_Ok in Hfull; rewrite Hfull; cbn [bind]; rewrite Hs; eauto.
    + rewrite Hitems; discriminate.
Qed.

Lemma mapM_In (A B : Type) (f : A -> result B) (xs : list A) (ys : list B) (y : B) :
  mapM f xs = Ok ys -> In y ys -> exists x, In x xs /\ f x = Ok y.
Proof.
  intros H; apply mapM_Forall2 in H.
  induction H as [|x y' xs ys Hxy _ IH]; intros Hy; [destruct Hy|].
  destruct Hy as [->|Hy]; [exists x; simpl; auto|].
  destruct (IH Hy) as (x' & Hx' & Hf); exists x'; simpl; auto.
Qed.

Section WellFormedBatch.
(** The batch holds, for every declared name, a tensor over
    [batch, time, lat, lon]; the module maps a packed input to a packed
    output over the out-names; the corrector and the ocean, when configured,
    return a state over the out-names. *)
Variables b tm h w : nat.
Variable data : dict.
Hypothesis in_names_nonempty : Packer.names in_packer <> [].
Hypothesis out_names_nonempty : Packer.names out_packer <> [].
Hypothesis data_fields :
  has_fields (Packer.names in_packer ++ Packer.names out_packer) [b; tm; h; w] data.
Hypothesis module_returns :
  forall x, shape x = [b; List.length (Packer.names in_packer); h; w] ->
    exists y, module x = Ok y /\
              shape y = [b; List.length (Packer.names out_packer); h; w].
Hypothesis corrector_returns :
  match corrector with
  | None => True
  | Some c =>
      forall input gen,
        has_fields (Packer.names in_packer) [b; h; w] input ->
        has_fields (Packer.names out_packer) [b; h; w] gen ->
        exists gen', c input gen = Ok gen' /\
                     has_fields (Packer.names out_packer) [b; h; w] gen'
  end.
Hypothesis ocean_returns :
  match ocean with
  | None => True
  | Some (target_names, oc) =>
      has_fields target_names [b; tm; h; w] data /\
      forall target input gen,
        has_fields target_names [b; h; w] target ->
        has_fields (Packer.names in_packer) [b; h; w] input ->
        has_fields (Packer.names out_packer) [b; h; w] gen ->
        exists gen', oc target input gen = Ok gen' /\
                     has_fields (Packer.names out_packer) [b; h; w] gen'
  end.

(** A full target tensor, when there is one, has values at every time
    index of the batch. *)
Local Abbreviation target_ok target :=
  (match target with
   | None => True
   | Some full => 2 <= rank (full : tensor) /\ nth 1 (shape full) 0 = tm
   end).

Lemma step_returns (target : option tensor) (step : nat) (st : loop_state) :
  has_fields (Packer.names in_packer) [b; h; w] (Stepper.input_data_norm st) ->
  target_ok target ->
  S step < tm ->
  exists st' g,
    step_body data (normalize data) target step st = Ok st' /\
    has_fields (Packer.names in_packer) [b; h; w] (Stepper.input_data_norm st') /\
    Stepper.gen_data_norm st' = Stepper.gen_data_norm st ++ [g] /\
    has_fields (Packer.names out_packer) [b; h; w] g.
Proof.
  intros Hin Htarget Hstep.
  assert (Hz : (Z.of_nat step + 1)%Z = Z.of_nat (S step)) by lia.
  unfold Stepper.step_body; rewrite Hz.
  (* input_tensor_norm *)
  destruct (@pack_returns in_packer (Stepper.input_data_norm st) [b; h; w]
              Stepper.channel_dim 1 in_names_nonempty Hin eq_refl)
    as (x & Hx & Hxs).
  rewrite Hx; cbn [bind].
  (* target_tensor_norm *)
  assert (Ht : exists o,
            match target with
            | None => Ok None
            | Some full =>
                bind (select full Stepper.time_dim (Z.of_nat (S step)))
                     (fun t => Ok (Some t))
            end = Ok o).
  { destruct target as [full|]; [|eauto].
    destruct Htarget as [Hrank Htm].
    unfold select, Stepper.time_dim.
    change 1%Z with (Z.of_nat 1).
    rewrite (@wrap_index_of_nat (rank full) 1) by lia.
    rewrite Htm, (@wrap_index_of_nat tm (S step)) by lia; cbn [bind]; eauto. }
  destruct Ht as (o & Ho); rewrite Ho; cbn [bind].
  (* module *)
  destruct (module_returns x Hxs) as (y & Hy & Hys).
  rewrite Hy; cbn [bind].
  (* gen_norm *)
  destruct (@unpack_returns out_packer y Stepper.channel_dim 1) as (td0 & Htd0 & Hf0).
  { now rewrite Hys. }
  { rewrite Hys; cbn; lia. }
  rewrite Hys in Hf0; cbn [remove_at firstn skipn app] in Hf0.
  rewrite Htd0; cbn [bind].
  (* corrector *)
  assert (Hc : exists gen1,
            match corrector with
            | Some c => c (denormalize (Stepper.input_data_norm st))
                          (denormalize (Packer.td_items td0))
            | None => Ok (denormalize (Packer.td_items td0))
            end = Ok gen1 /\
            has_fields (Packer.names out_packer) [b; h; w] gen1).
  { destruct corrector as [c|].
    - apply corrector_returns; now apply has_fields_denormalize.
    - eexists; split; [reflexivity|now apply has_fields_denormalize]. }
  destruct Hc as (gen1 & Hgen1 & Hf1); rewrite Hgen1; cbn [bind].
  (* ocean *)
  assert (Hoc : exists gen2,
            match ocean with
            | Some (target_names, oc) =>
                bind (query data (normalize data) Stepper.time_dim target_names
                        (Z.of_nat (S step)) Stepper.denorm)
                     (fun target_data =>
                        oc target_data (denormalize (Stepper.input_data_norm st)) gen1)
            | None => Ok gen1
            end = Ok gen2 /\
            has_fields (Packer.names out_packer) [b; h; w] gen2).
  { destruct ocean as [[target_names oc]|]; [|eauto].
    destruct ocean_returns as [Hdata Hoc].
    destruct (@query_returns data (normalize data) target_names (S step)
                Stepper.denorm b tm [h; w] Hdata Hstep) as (tdata & Hq & _ & Htd & _).
    rewrite Hq; cbn [bind].
    apply Hoc; [exact Htd|now apply has_fields_denormalize|exact Hf1]. }
  destruct Hoc as (gen2 & Hgen2 & Hf2); rewrite Hgen2; cbn [bind].
  (* gen_tensor_norm *)
  destruct (@pack_returns out_packer (normalize gen2) [b; h; w]
              Stepper.channel_dim 1 out_names_nonempty
              (@has_fields_normalize (Packer.names out_packer) [b; h; w] gen2 Hf2) eq_refl)
    as (gt & Hgt & Hgts).
  change (shape gt = [b; List.length (Packer.names out_packer); h; w]) in Hgts.
  rewrite Hgt; cbn [bind].
  destruct (@unpack_returns out_packer gt Stepper.channel_dim 1) as (td & Htd & Hf).
  { now rewrite Hgts. }
  { rewrite Hgts; cbn; lia. }
  rewrite Hgts in Hf; cbn [remove_at firstn skipn app] in Hf.
  rewrite Htd; cbn [bind].
  (* forcing_data_norm *)
  destruct (unpack_keys _ _ _ Htd) as [Hnd Hkeys].
  set (forcing_names := Stepper.forcing_names_of (Packer.names in_packer)
                          (Packer.td_items td)).
  assert (Hforcing_in : forall name, In name forcing_names ->
                                     In name (Packer.names in_packer)).
  { intros name Hname; apply filter_In in Hname; destruct Hname as [Hname _].
    now apply nodup_In in Hname. }
  destruct (@query_returns data (normalize data) forcing_names (S step)
              Stepper.norm b tm [h; w]) as (forcing & Hq & _ & Hff & _).
  { intros name Hname; apply has_fields_normalize with (names := forcing_names);
      [|exact Hname].
    intros name' Hname'; apply data_fields, in_or_app; left; now apply Hforcing_in. }
  { exact Hstep. }
  rewrite Hq; cbn [bind].
  eexists; exists (Packer.td_items td); split; [reflexivity|]; cbn.
  split; [|split; [reflexivity|exact Hf]].
  intros name Hname.
  rewrite lookup_merge by exact Hnd.
  destruct (Dict.lookup name (Packer.td_items td)) as [v|] eqn:Hv.
  - assert (Hout : In name (Packer.names out_packer)) by (apply Hkeys; congruence).
    destruct (Hf name Hout) as (v' & Hv' & Hsh).
    exists v; split; [reflexivity|congruence].
  - apply Hff; apply filter_In; split; [now apply nodup_In|].
    unfold Dict.contains; now rewrite Hv.
Qed.

Lemma run_steps_returns (target : option tensor) (steps : list nat) (st : loop_state) :
  has_fields (Packer.names in_packer) [b; h; w] (Stepper.input_data_norm st) ->
  Forall (fun g : dict => has_fields (Packer.names out_packer) [b; h; w] g)
         (Stepper.gen_data_norm st) ->
  target_ok target ->
  (forall s, In s steps -> S s < tm) ->
  exists st',
    run_steps data (normalize data) target steps st = Ok st' /\
    Forall (fun g : dict => has_fields (Packer.names out_packer) [b; h; w] g)
           (Stepper.gen_data_norm st') /\
    has_fields (Packer.names in_packer) [b; h; w] (Stepper.input_data_norm st').
Proof.
  intros Hin Hgens Htarget; revert st Hin Hgens.
  induction steps as [|s steps IH]; intros st Hin Hgens Hsteps; cbn [Stepper.run_steps].
  - eauto.
  - destruct (@step_returns target s st Hin Htarget) as (st1 & g & Hst1 & Hin1 & Hg1 & Hfg).
    { apply Hsteps; simpl; auto. }
    rewrite Hst1; cbn [bind].
    apply IH; [exact Hin1| |intros s' Hs'; apply Hsteps; simpl; auto].
    rewrite Hg1; apply Forall_app; split; [exact Hgens|].
    constructor; [exact Hfg|constructor].
Qed.

(** X22.  Over a well-formed batch with values at the time indices [0 .. n], the
    rollout of [n] steps returns. *)
Theorem run_on_batch_returns (n : nat) :
  n < tm -> exists r, run_on_batch data n = Ok r.
Proof.
  intros Hn.
  assert (Hnorm_in : has_fields (Packer.names in_packer) [b; tm; h; w] (normalize data)).
  { apply has_fields_normalize; intros name Hname; apply data_fields, in_or_app; auto. }
  assert (Hnorm_out : has_fields (Packer.names out_packer) [b; tm; h; w] (normalize data)).
  { apply has_fields_normalize; intros name Hname; apply data_fields, in_or_app; auto. }
  unfold Stepper.run_on_batch.
  (* full_target_tensor_norm *)
  destruct (@pack_returns out_packer (normalize data) [b; tm; h; w]
              Stepper.channel_dim 2 out_names_nonempty Hnorm_out eq_refl)
    as (full & Hfull & Hfs).
  unfold Stepper._pack_data_if_available; rewrite Hfull; cbn [bind].
  (* the initial state *)
  destruct (@query_returns data (normalize data) (Packer.names in_packer) 0
              Stepper.norm b tm [h; w] Hnorm_in) as (input0 & Hinput0 & _ & Hf0 & _);
    [lia|].
  unfold Stepper.initial_state; cbn [Z.of_nat] in Hinput0; rewrite Hinput0; cbn [bind].
  (* the loop *)
  destruct (@run_steps_returns (Some full) (seq 0 n)
              (Stepper.mkLoopState loss_zero [] input0 [])) as (stn & Hstn & Hgens & _).
  { exact Hf0. }
  { constructor. }
  { unfold rank; rewrite Hfs; cbn; split; [lia|reflexivity]. }
  { intros s Hs; apply in_seq in Hs; lia. }
  rewrite Hstn; cbn [bind].
  (* the series *)
  destruct (@query_returns data (normalize data) (Packer.names out_packer) 0
              Stepper.norm b tm [h; w] Hnorm_out) as (initial & Hinitial & _ & Hfi & _);
    [lia|].
  cbn [Z.of_nat] in Hinitial; rewrite Hinitial; cbn [bind].
  match goal with |- context [mapM ?f0 (Packer.names out_packer)] =>
    destruct (mapM_total f0 (Packer.names out_packer)) as (items & Hitems) end.
  { intros name Hname.
    destruct (mapM_total (fun x : dict => Dict.getitem name x)
                (initial :: Stepper.gen_data_norm stn)) as (xs & Hxs).
    { intros x [<-|Hx].
      - destruct (Hfi name Hname) as (t & Ht & _); exists t; now apply getitem_Ok.
      - rewrite Forall_forall in Hgens.
        destruct (Hgens x Hx name Hname) as (t & Ht & _); exists t; now apply getitem_Ok. }
    rewrite Hxs; cbn [bind].
    destruct (@stack_Ok T xs [b; h; w] Stepper.time_dim 1) as (s & Hs & _).
    - apply mapM_length in Hxs; destruct xs; [discriminate|discriminate].
    - intros t Ht; destruct (mapM_In _ _ _ Hxs Ht) as (x & Hx & Hxt).
      apply getitem_Ok in Hxt.
      destruct Hx as [<-|Hx].
      + destruct (Hfi name Hname) as (t' & Ht' & Hsh); congruence.
      + rewrite Forall_forall in Hgens.
        destruct (Hgens x Hx name Hname) as (t' & Ht' & Hsh); congruence.
    - reflexivity.
    - rewrite Hs; cbn [bind]; eauto. }
  rewrite Hitems; cbn [bind].
  destruct (conservation_loss _) as [cm cl]; eauto.
Qed.

(** X23.  Over a well-formed batch, a rollout of more steps than the batch has
    time indices after the first does not return: the steps with a target
    slice run, and the first step without one raises the [IndexError] of
    [full_target_tensor_norm.select], before the module is called.  (It is
    not the [ValueError] of the query function, which would be raised only
    later in that step.) *)
Theorem rollout_beyond_batch_raises_IndexError (n : nat) :
  0 < tm -> tm <= n ->
  exists msg, run_on_batch data n = Raise (IndexError msg).
Proof.
  intros Htm Hn; exists "select(): index out of range".
  assert (Hnorm_in : has_fields (Packer.names in_packer) [b; tm; h; w] (normalize data)).
  { apply has_fields_normalize; intros name Hname; apply data_fields, in_or_app; auto. }
  assert (Hnorm_out : has_fields (Packer.names out_packer) [b; tm; h; w] (normalize data)).
  { apply has_fields_normalize; intros name Hname; apply data_fields, in_or_app; auto. }
  unfold Stepper.run_on_batch.
  destruct (@pack_returns out_packer (normalize data) [b; tm; h; w]
              Stepper.channel_dim 2 out_names_nonempty Hnorm_out eq_refl)
    as (full & Hfull & Hfs).
  change (shape full = [b; tm; List.length (Packer.names out_packer); h; w]) in Hfs.
  unfold Stepper._pack_data_if_available; rewrite Hfull; cbn [bind].
  destruct (@query_returns data (normalize data) (Packer.names in_packer) 0
              Stepper.norm b tm [h; w] Hnorm_in) as (input0 & Hinput0 & _ & Hf0 & _);
    [lia|].
  unfold Stepper.initial_state; cbn [Z.of_nat] in Hinput0; rewrite Hinput0; cbn [bind].
  replace n with ((tm - 1) + S (n - tm)) by lia.
  rewrite seq_app, run_steps_app; cbn [seq Nat.add].
  destruct (@run_steps_returns (Some full) (seq 0 (tm - 1))
              (Stepper.mkLoopState loss_zero [] input0 [])) as (st & Hst & _ & Hin).
  { exact Hf0. }
  { constructor. }
  { unfold rank; rewrite Hfs; cbn; split; [lia|reflexivity]. }
  { intros s Hs; apply in_seq in Hs; lia. }
  rewrite Hst; cbn [bind Stepper.run_steps].
  replace (Stepper.step_body loss_add loss_nan norm_fn denorm_fn module loss_obj corrector
             ocean in_packer out_packer data (normalize data) (Some full) (tm - 1) st)
    with (@Raise loop_state (IndexError "select(): index out of range")); [reflexivity|].
  unfold Stepper.step_body.
  destruct (@pack_returns in_packer (Stepper.input_data_norm st) [b; h; w]
              Stepper.channel_dim 1 in_names_nonempty Hin eq_refl) as (x & Hx & _).
  rewrite Hx; cbn [bind].
  unfold select at 1; unfold rank, Stepper.time_dim; rewrite Hfs.
  change (wrap_index (List.length [b; tm; List.length (Packer.names out_packer); h; w]) 1)
    with (Some 1).
  cbn [nth].
  replace (wrap_index tm (Z.of_nat (tm - 1) + 1)) with (@None nat); [reflexivity|].
  unfold wrap_index.
  replace (Z.of_nat (tm - 1) + 1 <? Z.of_nat tm)%Z with false
    by (symmetry; apply Z.ltb_ge; lia).
  now rewrite andb_false_r.
Qed.

End WellFormedBatch.

(** The loss of a step that ran with a target tensor. *)
Lemma step_body_loss (data fdn : dict) (full : tensor) (step : nat) (st st' : loop_state) :
  step_body data fdn (Some full) step st = Ok st' ->
  exists gen_tensor target_slice renormalised,
    select full Stepper.time_dim (Z.of_nat step + 1) = Ok target_slice /\
    generated_state data fdn step st = Ok renormalised /\
    Packer.pack out_packer renormalised (Some Stepper.channel_dim) = Ok gen_tensor /\
    Stepper.loss st' = loss_add (Stepper.loss st) (loss_obj gen_tensor target_slice) /\
    Stepper.metrics st' =
      Dict.setitem ("loss_step_" ++ Stepper.str_of_Z (Z.of_nat step))%string
                   (loss_obj gen_tensor target_slice) (Stepper.metrics st).
Proof.
  unfold Stepper.step_body, Stepper.generated_state; intros H.
  inv_bind H.
  destruct (select full Stepper.time_dim (Z.of_nat step + 1)) as [tgt|e] eqn:Et;
    cbn [bind] in H; [|discriminate].
  repeat inv_bind H.
  inversion H; subst st'; clear H; cbn.
  repeat match goal with E : ?c = Ok _ |- context [bind ?c _] => rewrite E; cbn end.
  do 3 eexists.
  split; [reflexivity|split; [reflexivity|split; [eassumption|split; reflexivity]]].
Qed.

(** X24.  [_pack_data_if_available] gives [run_on_batch] a target tensor or an
    exception, never [None]: [pack] raises no [ValueError], the only
    exception turned into [None].  So in a rollout that returns, the loss
    recorded for each step is [loss_obj] of the packed generated state and
    the target slice at the next time index, not NaN; and the entry ["loss"]
    is the sum of the step losses and the conservation loss. *)
Theorem step_losses_compare_with_target
    (data : dict) (n : nat) (r : Stepper.SteppedData T L) :
  run_on_batch data n = Ok r ->
  exists (full : tensor) (st0 stn : loop_state),
    Stepper._pack_data_if_available out_packer (normalize data) Stepper.channel_dim
      = Ok (Some full) /\
    initial_state data (normalize data) = Ok st0 /\
    run_steps data (normalize data) (Some full) (seq 0 n) st0 = Ok stn /\
    (forall s, s < n ->
       exists (st_s st' : loop_state) (renormalised : dict)
              (gen_tensor target_slice : tensor),
         run_steps data (normalize data) (Some full) (seq 0 s) st0 = Ok st_s /\
         step_body data (normalize data) (Some full) s st_s = Ok st' /\
         generated_state data (normalize data) s st_s = Ok renormalised /\
         Packer.pack out_packer renormalised (Some Stepper.channel_dim) = Ok gen_tensor /\
         select full Stepper.time_dim (Z.of_nat s + 1) = Ok target_slice /\
         Stepper.loss st' = loss_add (Stepper.loss st_s) (loss_obj gen_tensor target_slice) /\
         Dict.lookup ("loss_step_" ++ Stepper.str_of_Z (Z.of_nat s))%string
                     (Stepper.metrics st') = Some (loss_obj gen_tensor target_slice)) /\
    Dict.lookup "loss" (Stepper.sd_metrics r)
      = Some (loss_add (Stepper.loss stn) (snd (conservation_loss (Stepper.gen_data r)))).
Proof.
  intros Hrun.
  destruct (run_on_batch_inv _ _ Hrun)
    as (target & st0 & stn & ini & items & Hpack & H0 & Hloop & _ & _ & _ & Hgen & _).
  destruct target as [full|]; [|now apply _pack_data_if_available_not_None in Hpack].
  exists full, st0, stn.
  split; [exact Hpack|split; [exact H0|split; [exact Hloop|split]]].
  - intros s Hs.
    pose proof Hloop as Hat; eapply run_steps_at in Hat; [|exact Hs].
    destruct Hat as (st_s & st' & Hpre & Hstep & _).
    pose proof Hstep as Hinv; apply step_body_loss in Hinv.
    destruct Hinv as (g & tgt & rn & Ht & Hgen_s & Hpk & Hl & Hm).
    exists st_s, st', rn, g, tgt.
    split; [exact Hpre|split; [exact Hstep|split; [exact Hgen_s|split; [exact Hpk|]]]].
    split; [exact Ht|split; [exact Hl|]].
    rewrite Hm; apply lookup_setitem_same.
  - revert Hrun; unfold Stepper.run_on_batch.
    rewrite Hpack; cbn [bind]; rewrite H0; cbn [bind]; rewrite Hloop; cbn [bind].
    intros Hrun; repeat inv_bind Hrun.
    destruct (conservation_loss _) as [cm cl] eqn:Ec.
    inversion Hrun; subst r; clear Hrun; cbn [Stepper.sd_metrics Stepper.gen_data].
    rewrite Ec; cbn [snd]; apply lookup_setitem_same.
Qed.

(** X25.  The query function at the ends of the time axis.  For names bound to
    tensors with [tm] time indices: an index at or beyond [tm], or below
    [-tm], raises the [ValueError] naming the first name asked for, where
    [select] raised [IndexError]; an index from [-tm] to [-1] is accepted
    and counts from the end, as [select] has it. *)
Theorem query_time_index_bounds
    (data data_norm : dict) (name : string) (names : list string) (index : Z)
    (mode : Stepper.norm_mode) (b tm : nat) (rest : list nat) :
  has_fields (name :: names) (b :: tm :: rest)
    (match mode with Stepper.norm => data_norm | Stepper.denorm => data end) ->
  ((Z.of_nat tm <= index \/ index < - Z.of_nat tm)%Z ->
   query data data_norm Stepper.time_dim (name :: names) index mode =
   Raise (ValueError ("tensor " ++ Stepper.quote ++ name ++ Stepper.quote ++
                      " does not have values at t=" ++ Stepper.str_of_Z index)%string)) /\
  ((- Z.of_nat tm <= index < 0)%Z ->
   query data data_norm Stepper.time_dim (name :: names) index mode =
   query data data_norm Stepper.time_dim (name :: names) (index + Z.of_nat tm) mode /\
   exists res,
     query data data_norm Stepper.time_dim (name :: names) index mode = Ok res).
Proof.
  intros Hd.
  set (src := match mode with Stepper.norm => data_norm | Stepper.denorm => data end) in *.
  assert (Hsel : forall nm t, Dict.lookup nm src = Some t -> shape t = b :: tm :: rest ->
            select t Stepper.time_dim index =
            match wrap_index tm index with
            | Some i => Ok {| shape := b :: rest;
                              item := fun idx => item t (insert_at 1 i idx) |}
            | None => Raise (IndexError "select(): index out of range")
            end).
  { intros nm t _ Hsh; unfold select, rank, Stepper.time_dim; rewrite Hsh.
    change (wrap_index (List.length (b :: tm :: rest)) 1)
      with (wrap_index (S (S (List.length rest))) (Z.of_nat 1)).
    rewrite wrap_index_of_nat by lia; cbn [nth].
    destruct (wrap_index tm index); reflexivity. }
  split.
  - intros Hout.
    destruct (Hd name (or_introl eq_refl)) as (t & Ht & Hsh).
    unfold Stepper.name_and_time_query_fn; fold src; cbn [mapM].
    unfold Dict.getitem at 1; rewrite Ht; cbn [bind].
    rewrite (Hsel name t Ht Hsh).
    replace (wrap_index tm index) with (@None nat); [reflexivity|].
    unfold wrap_index.
    destruct Hout as [Hout|Hout].
    + replace (index <? Z.of_nat tm)%Z with false by (symmetry; apply Z.ltb_ge; lia).
      now rewrite andb_false_r.
    + replace (- Z.of_nat tm <=? index)%Z with false by (symmetry; apply Z.leb_gt; lia).
      reflexivity.
  - intros Hneg.
    assert (Hwrap : wrap_index tm index = wrap_index tm (index + Z.of_nat tm)).
    { unfold wrap_index.
      replace ((- Z.of_nat tm <=? index)%Z && (index <? Z.of_nat tm)%Z) with true
        by (symmetry; apply andb_true_iff; split; [apply Z.leb_le|apply Z.ltb_lt]; lia).
      replace ((- Z.of_nat tm <=? index + Z.of_nat tm)%Z
               && (index + Z.of_nat tm <? Z.of_nat tm)%Z) with true
        by (symmetry; apply andb_true_iff; split; [apply Z.leb_le|apply Z.ltb_lt]; lia).
      replace (index <? 0)%Z with true by (symmetry; apply Z.ltb_lt; lia).
      replace (index + Z.of_nat tm <? 0)%Z with false by (symmetry; apply Z.ltb_ge; lia).
      reflexivity. }
    assert (Heq : query data data_norm Stepper.time_dim (name :: names) index mode =
                  query data data_norm Stepper.time_dim (name :: names)
                        (index + Z.of_nat tm) mode).
    { unfold Stepper.name_and_time_query_fn; fold src; f_equal.
      apply mapM_ext_in; intros nm Hnm.
      destruct (Hd nm Hnm) as (t & Ht & Hsh).
      unfold Dict.getitem; rewrite Ht; cbn [bind].
      rewrite (Hsel nm t Ht Hsh).
      assert (Hsel' : select t Stepper.time_dim (index + Z.of_nat tm) =
                match wrap_index tm (index + Z.of_nat tm) with
                | Some i => Ok {| shape := b :: rest;
                                  item := fun idx => item t (insert_at 1 i idx) |}
                | None => Raise (IndexError "select(): index out of range")
                end).
      { unfold select, rank, Stepper.time_dim; rewrite Hsh.
        change (wrap_index (List.length (b :: tm :: rest)) 1)
          with (wrap_index (S (S (List.length rest))) (Z.of_nat 1)).
        rewrite wrap_index_of_nat by lia; cbn [nth].
        destruct (wrap_index tm (index + Z.of_nat tm)); reflexivity. }
      rewrite Hsel', Hwrap.
      destruct (@wrap_index_valid tm (index + Z.of_nat tm)) as (i & -> & _); [lia|].
      reflexivity. }
    split; [exact Heq|].
    rewrite Heq.
    replace (index + Z.of_nat tm)%Z with (Z.of_nat (Z.to_nat (index + Z.of_nat tm))) by lia.
    destruct (@query_returns data data_norm (name :: names) (Z.to_nat (index + Z.of_nat tm))
                mode b tm rest Hd) as (res & Hres & _); [lia|eauto].
Qed.

End StepperFacts.

(** *** The rollout on a small batch *)

Lemma toy_run_returns : toy_run toy_out_packer 2 = Ok toy_result.
Proof.
  assert (H : match toy_run toy_out_packer 2 with Ok _ => true | Raise _ => false end = true)
    by (vm_compute; reflexivity).
  unfold toy_result; destruct (toy_run toy_out_packer 2); [reflexivity|discriminate H].
Qed.

Lemma forcing_fields_come_from_batch_witness :
  exists target st0 st_s st' gen_norm renormalised,
    Stepper.initial_state (Some 0%Z) toy_in_packer toy_data
      (Stepper.normalize (fun _ x => (x + 1)%Z) toy_data) = Ok st0 /\
    Stepper.run_steps toy_loss_add None (fun _ x => (x + 1)%Z) (fun _ x => (x - 1)%Z)
      toy_module (fun _ _ => Some 0%Z) None None toy_in_packer toy_out_packer
      toy_data (Stepper.normalize (fun _ x => (x + 1)%Z) toy_data) target (seq 0 1) st0
      = Ok st_s /\
    Stepper.step_body toy_loss_add None (fun _ x => (x + 1)%Z) (fun _ x => (x - 1)%Z)
      toy_module (fun _ _ => Some 0%Z) None None toy_in_packer toy_out_packer
      toy_data (Stepper.normalize (fun _ x => (x + 1)%Z) toy_data) target 1 st_s
      = Ok st' /\
    Stepper.gen_data_norm st' = Stepper.gen_data_norm st_s ++ [gen_norm] /\
    (forall name, In name ["a"; "f"] -> ~ In name ["a"] ->
       exists full t,
         Dict.lookup name (Stepper.normalize (fun _ x => (x + 1)%Z) toy_data) = Some full /\
         select full 1 (Z.of_nat 1 + 1) = Ok t /\
         Dict.lookup name (Stepper.input_data_norm st') = Some t) /\
    Stepper.generated_state (L := option Z) (fun _ x => (x + 1)%Z) (fun _ x => (x - 1)%Z)
      toy_module None None toy_in_packer toy_out_packer
      toy_data (Stepper.normalize (fun _ x => (x + 1)%Z) toy_data) 1 st_s
      = Ok renormalised /\
    (forall name, In name ["a"] ->
       exists g gd, Dict.lookup name gen_norm = Some g /\
                    Dict.lookup name renormalised = Some gd /\ teq g gd /\
                    Dict.lookup name (Stepper.input_data_norm st') = Some g).
Proof.
  apply (@forcing_fields_come_from_batch Z (option Z) (Some 0%Z) toy_loss_add None
           (fun _ x => (x + 1)%Z) (fun _ x => (x - 1)%Z) toy_module (fun _ _ => Some 0%Z)
           None None (fun _ => ([], Some 0%Z)) toy_in_packer toy_out_packer
           toy_data 2 1 toy_result toy_run_returns).
  lia.
Defined.

Lemma toy_run_sum_returns : toy_run_sum 2 = Ok toy_result_sum.
Proof.
  assert (H : match toy_run_sum 2 with Ok _ => true | Raise _ => false end = true)
    by (vm_compute; reflexivity).
  unfold toy_result_sum; destruct (toy_run_sum 2); [reflexivity|discriminate H].
Qed.

Lemma generated_series_has_n_plus_1_entries_witness :
  exists tn,
    Dict.lookup "a" (Stepper.sd_gen_data_norm toy_result_sum) = Some tn /\
    Dict.lookup "a" (Stepper.gen_data toy_result_sum)
      = Some (tmap (fun x => (x - 1)%Z) tn) /\
    nth 1 (shape tn) 0 = 3 /\
    item tn [0; 0; 0; 0] = 1%Z /\
    item tn [0; 1; 0; 0] = 12%Z /\
    item tn [0; 2; 0; 0] = 24%Z.
Proof.
  destruct (@generated_series_has_n_plus_1_entries Z (option Z) (Some 0%Z) toy_loss_add None
              (fun _ x => (x + 1)%Z) (fun _ x => (x - 1)%Z) toy_module_sum
              (fun _ _ => Some 0%Z)
              None None (fun _ => ([], Some 0%Z)) toy_in_packer toy_out_packer
              toy_data 2 toy_result_sum toy_run_sum_returns)
    as (target & st0 & stn & _ & _ & _ & Hnames).
  destruct (Hnames "a" (or_introl eq_refl)) as (tn & H1 & H2 & H3 & _).
  assert (Hv : forall idx v,
             match Dict.lookup "a" (Stepper.sd_gen_data_norm toy_result_sum) with
             | Some t0 => Z.eqb (item t0 idx) v
             | None => false
             end = true -> item tn idx = v).
  { intros idx v; rewrite H1; apply Z.eqb_eq. }
  exists tn; split; [exact H1|split; [exact H2|split; [exact H3|]]].
  split; [|split]; apply Hv; vm_compute; reflexivity.
Defined.


(** ** Shapes, indices and broadcasting *)

Section IndexFacts.
Implicit Types (sh s L idx l c : list nat).

Lemma in_bounds_app L s l c :
  List.length l = List.length L ->
  in_bounds (L ++ s) (l ++ c) = in_bounds L l && in_bounds s c.
Proof.
  revert l; induction L as [|n L IH]; destruct l as [|i l]; simpl; try discriminate.
  - reflexivity.
  - intros H; rewrite IH by lia; now rewrite andb_assoc.
Qed.

Lemma in_bounds_app_inv L s idx :
  in_bounds (L ++ s) idx = true ->
  exists l c, idx = l ++ c /\ in_bounds L l = true /\ in_bounds s c = true.
Proof.
  revert idx; induction L as [|n L IH]; simpl; intros idx H.
  - exists [], idx; auto.
  - destruct idx as [|i idx]; [discriminate|].
    apply andb_true_iff in H; destruct H as [Hi H].
    destruct (IH _ H) as (l & c & -> & Hl & Hc).
    exists (i :: l), c; simpl; rewrite Hi, Hl; auto.
Qed.

Lemma in_bounds_1 n i : in_bounds [n] [i] = (i <? n).
Proof. simpl; now rewrite andb_true_r. Qed.

Lemma in_bounds_2 n m i j : in_bounds [n; m] [i; j] = (i <? n) && (j <? m).
Proof. simpl; now rewrite andb_true_r. Qed.

Lemma in_bounds_snoc s n c k :
  in_bounds s c = true -> k < n -> in_bounds (s ++ [n]) (c ++ [k]) = true.
Proof.
  intros Hc Hk; rewrite in_bounds_app by (now apply in_bounds_length).
  rewrite Hc, in_bounds_1; simpl; now apply Nat.ltb_lt.
Qed.

Lemma combine_app A B (a1 a2 : list A) (b1 b2 : list B) :
  List.length a1 = List.length b1 ->
  combine (a1 ++ a2) (b1 ++ b2) = combine a1 b1 ++ combine a2 b2.
Proof.
  revert b1; induction a1 as [|x a1 IH]; destruct b1 as [|y b1]; simpl;
    try discriminate; [reflexivity|].
  intros H; f_equal; apply IH; lia.
Qed.

Lemma bindex_same s idx : in_bounds s idx = true -> Torch.bindex s idx = idx.
Proof.
  intros H; unfold Torch.bindex.
  rewrite (in_bounds_length _ _ H), Nat.sub_diag; simpl.
  revert idx H; induction s as [|n s IH]; destruct idx as [|i idx]; simpl;
    try discriminate; [reflexivity|].
  intros H; apply andb_true_iff in H; destruct H as [Hi H]; apply Nat.ltb_lt in Hi.
  rewrite IH by assumption.
  destruct (n =? 1) eqn:E; [apply Nat.eqb_eq in E; f_equal; lia|reflexivity].
Qed.

Lemma bindex_drop s l c :
  List.length c = List.length s -> Torch.bindex s (l ++ c) = Torch.bindex s c.
Proof.
  intros H; unfold Torch.bindex.
  rewrite length_app, H, Nat.add_sub, Nat.sub_diag, skipn_app, Nat.sub_diag.
  rewrite skipn_all; reflexivity.
Qed.

Lemma bindex_app L s l c :
  List.length l = List.length L -> List.length c = List.length s ->
  Torch.bindex (L ++ s) (l ++ c) = Torch.bindex L l ++ Torch.bindex s c.
Proof.
  intros Hl Hc; unfold Torch.bindex.
  rewrite !length_app, Hl, Hc, Nat.sub_diag; simpl.
  rewrite combine_app, map_app by lia.
  now rewrite !Nat.sub_diag.
Qed.

Lemma bindex_ones2 i j : Torch.bindex [1; 1] [i; j] = [0; 0].
Proof. reflexivity. Qed.

Lemma bindex_one k : Torch.bindex [1] [k] = [0].
Proof. reflexivity. Qed.

Lemma bindex_level n k : 1 < n -> Torch.bindex [n] [k] = [k].
Proof.
  intros H; unfold Torch.bindex; simpl.
  destruct (n =? 1) eqn:E; [apply Nat.eqb_eq in E; lia|reflexivity].
Qed.

(** *** Shapes of broadcasts *)

Lemma broadcast_rev_same s : Torch.broadcast_rev s s = Some s.
Proof.
  induction s as [|n s IH]; simpl; [reflexivity|].
  now rewrite IH, Nat.eqb_refl.
Qed.

Lemma broadcast_rev_nil_r s : Torch.broadcast_rev s [] = Some s.
Proof. destruct s; reflexivity. Qed.

Lemma broadcast_rev_longer_l s L : Torch.broadcast_rev (s ++ L) s = Some (s ++ L).
Proof.
  induction s as [|n s IH]; simpl; [apply broadcast_rev_nil_r|].
  now rewrite IH, Nat.eqb_refl.
Qed.

Lemma broadcast_rev_longer_r s L : Torch.broadcast_rev s (s ++ L) = Some (s ++ L).
Proof.
  induction s as [|n s IH]; simpl; [reflexivity|].
  now rewrite IH, Nat.eqb_refl.
Qed.

Lemma broadcast_shapes_same s : Torch.broadcast_shapes s s = Some s.
Proof.
  unfold Torch.broadcast_shapes; rewrite broadcast_rev_same; simpl.
  now rewrite rev_involutive.
Qed.

Lemma broadcast_shapes_trailing_r L s :
  Torch.broadcast_shapes (L ++ s) s = Some (L ++ s).
Proof.
  unfold Torch.broadcast_shapes; rewrite rev_app_distr, broadcast_rev_longer_l; simpl.
  now rewrite <- rev_app_distr, rev_involutive.
Qed.

Lemma broadcast_shapes_trailing_l L s :
  Torch.broadcast_shapes s (L ++ s) = Some (L ++ s).
Proof.
  unfold Torch.broadcast_shapes; rewrite rev_app_distr, broadcast_rev_longer_r; simpl.
  now rewrite <- rev_app_distr, rev_involutive.
Qed.

Lemma broadcast_shapes_unsqueezed s n :
  Torch.broadcast_shapes (s ++ [1]) [n] = Some (s ++ [n]).
Proof.
  unfold Torch.broadcast_shapes; rewrite rev_app_distr; simpl.
  rewrite broadcast_rev_nil_r.
  destruct n as [|[|n']]; simpl; now rewrite rev_involutive.
Qed.

Lemma broadcast_shapes_ones2 L n m :
  Torch.broadcast_shapes (L ++ [n; m]) (L ++ [1; 1]) = Some (L ++ [n; m]).
Proof.
  unfold Torch.broadcast_shapes; rewrite !rev_app_distr; simpl.
  rewrite broadcast_rev_same.
  assert (H : forall x r, (if x =? 1 then Some (x :: r)
                           else if x =? 1 then Some (1 :: r)
                           else Some (x :: r)) = Some (x :: r))
    by (intros x r; destruct (x =? 1); reflexivity).
  rewrite H; simpl; rewrite H; simpl.
  now rewrite rev_involutive, <- app_assoc.
Qed.

End IndexFacts.

(** ** Sums *)

Section SumFacts.
Local Open Scope R_scope.
Implicit Types (f g : nat -> R) (n m : nat).

Lemma rsum_ext f g n :
  (forall k, (k < n)%nat -> f k = g k) -> Torch.rsum f n = Torch.rsum g n.
Proof.
  induction n as [|n IH]; simpl; intros H; [reflexivity|].
  rewrite IH, H by (intros; try apply H; lia); reflexivity.
Qed.

Lemma rsum_plus f g n :
  Torch.rsum (fun k => f k + g k) n = Torch.rsum f n + Torch.rsum g n.
Proof. induction n as [|n IH]; simpl; [lra|rewrite IH; lra]. Qed.

Lemma rsum_minus f g n :
  Torch.rsum (fun k => f k - g k) n = Torch.rsum f n - Torch.rsum g n.
Proof. induction n as [|n IH]; simpl; [lra|rewrite IH; lra]. Qed.

Lemma rsum_scal_l (c : R) f n :
  Torch.rsum (fun k => c * f k) n = c * Torch.rsum f n.
Proof. induction n as [|n IH]; simpl; [lra|rewrite IH; lra]. Qed.

Lemma rsum_scal_r (c : R) f n :
  Torch.rsum (fun k => f k * c) n = Torch.rsum f n * c.
Proof. induction n as [|n IH]; simpl; [lra|rewrite IH; lra]. Qed.

Lemma rsum2_ext (f g : nat -> nat -> R) n m :
  (forall i j, (i < n)%nat -> (j < m)%nat -> f i j = g i j) ->
  Torch.rsum2 f n m = Torch.rsum2 g n m.
Proof.
  intros H; unfold Torch.rsum2; apply rsum_ext; intros i Hi.
  apply rsum_ext; intros j Hj; now apply H.
Qed.

Lemma rsum2_minus (f g : nat -> nat -> R) n m :
  Torch.rsum2 (fun i j => f i j - g i j) n m = Torch.rsum2 f n m - Torch.rsum2 g n m.
Proof.
  unfold Torch.rsum2; rewrite <- rsum_minus; apply rsum_ext; intros i _.
  apply rsum_minus.
Qed.

Lemma rsum2_scal_l (c : R) (f : nat -> nat -> R) n m :
  Torch.rsum2 (fun i j => c * f i j) n m = c * Torch.rsum2 f n m.
Proof.
  unfold Torch.rsum2; rewrite <- rsum_scal_l; apply rsum_ext; intros i _.
  apply rsum_scal_l.
Qed.

Lemma rsum2_scal_r (c : R) (f : nat -> nat -> R) n m :
  Torch.rsum2 (fun i j => f i j * c) n m = Torch.rsum2 f n m * c.
Proof.
  unfold Torch.rsum2; rewrite <- rsum_scal_r; apply rsum_ext; intros i _.
  apply rsum_scal_r.
Qed.

End SumFacts.

(** ** The tensor operations at in-bounds indices *)

Section TorchFacts.
Local Open Scope R_scope.
Local Abbreviation rtensor := (tensor R).
Implicit Types (t u w : rtensor) (L S : list nat) (l c : list nat).

Lemma binop_Ok (f : R -> R -> R) t u sh :
  Torch.broadcast_shapes (shape t) (shape u) = Some sh ->
  Torch.binop f t u =
  Ok {| shape := sh;
        item := fun idx => f (item t (Torch.bindex (shape t) idx))
                             (item u (Torch.bindex (shape u) idx)) |}.
Proof. intros H; unfold Torch.binop; now rewrite H. Qed.

Lemma sum_last_snoc t S (n : nat) :
  shape t = S ++ [n] ->
  Torch.sum_last t =
  {| shape := S; item := fun idx => Torch.rsum (fun k => item t (idx ++ [k])) n |}.
Proof.
  intros H; unfold Torch.sum_last; rewrite H.
  destruct (S ++ [n]) eqn:E; [now destruct S|].
  rewrite <- E, removelast_last, last_last; reflexivity.
Qed.

Lemma sum_last2_snoc t L (n m : nat) :
  shape t = L ++ [n; m] ->
  Torch.sum_last2 t =
  Ok {| shape := L;
        item := fun l => Torch.rsum2 (fun i j => item t ((l ++ [i]) ++ [j])) n m |}.
Proof.
  intros H; unfold Torch.sum_last2, rank; rewrite H, length_app; simpl.
  replace (_ <? 2)%nat with false by (symmetry; apply Nat.ltb_ge; lia).
  assert (H1 : shape (Torch.sum_last t) = L ++ [n]).
  { erewrite sum_last_snoc; [reflexivity|]. now rewrite H, <- app_assoc. }
  erewrite (@sum_last_snoc (Torch.sum_last t)) by exact H1.
  f_equal; f_equal.
  erewrite (@sum_last_snoc t (L ++ [n]) m) by (now rewrite H, <- app_assoc).
  reflexivity.
Qed.

Lemma expand_trailing w L s :
  shape w = s ->
  Torch.expand w (L ++ s) =
  Ok {| shape := L ++ s; item := fun idx => item w (Torch.bindex s idx) |}.
Proof.
  intros H; unfold Torch.expand; rewrite H, broadcast_shapes_trailing_l.
  unfold shape_eqb; destruct (list_eq_dec _ _ _); [reflexivity|congruence].
Qed.

(** The area-weighted mean over the last two axes. *)
Lemma weighted_mean_at t w L (n m : nat) :
  shape t = L ++ [n; m] -> shape w = [n; m] ->
  exists r, Metrics.weighted_mean t (Some w) = Ok r /\ shape r = L /\
    forall l, in_bounds L l = true ->
      item r l = Torch.rsum2 (fun i j => item t (l ++ [i; j]) * item w [i; j]) n m
                 / Torch.rsum2 (fun i j => item w [i; j]) n m.
Proof.
  intros Ht Hw; unfold Metrics.weighted_mean, Torch.mul, Torch.div.
  rewrite (binop_Ok Rmult t w (sh := L ++ [n; m]))
    by (rewrite Ht, Hw; apply broadcast_shapes_trailing_r).
  cbn [bind]; rewrite (sum_last2_snoc _ L n m) by reflexivity.
  cbn [bind]; rewrite Ht, (expand_trailing w L Hw).
  cbn [bind]; rewrite (sum_last2_snoc _ L n m) by reflexivity.
  cbn [bind]; rewrite (binop_Ok Rdiv _ _ (sh := L)) by apply broadcast_shapes_same.
  eexists; split; [reflexivity|]; split; [reflexivity|].
  intros l Hl; cbn [item shape].
  rewrite (bindex_same _ _ Hl).
  f_equal; apply rsum2_ext; intros i j Hi Hj.
  - rewrite <- !app_assoc; simpl app.
    assert (Hb : in_bounds (L ++ [n; m]) (l ++ [i; j]) = true).
    { rewrite in_bounds_app by (now apply in_bounds_length).
      rewrite Hl, in_bounds_2; simpl.
      apply andb_true_iff; split; now apply Nat.ltb_lt. }
    rewrite (bindex_same _ _ Hb), Hw, bindex_drop by reflexivity.
    rewrite bindex_same; [reflexivity|].
    rewrite in_bounds_2; apply andb_true_iff; split; now apply Nat.ltb_lt.
  - rewrite <- !app_assoc; simpl app.
    rewrite bindex_drop by reflexivity.
    rewrite bindex_same; [reflexivity|].
    rewrite in_bounds_2; apply andb_true_iff; split; now apply Nat.ltb_lt.
Qed.

Lemma in_bounds_field L (n m : nat) l (i j : nat) :
  in_bounds L l = true -> (i < n)%nat -> (j < m)%nat ->
  in_bounds (L ++ [n; m]) (l ++ [i; j]) = true.
Proof.
  intros Hl Hi Hj; rewrite in_bounds_app by (now apply in_bounds_length).
  rewrite Hl, in_bounds_2; simpl.
  apply andb_true_iff; split; now apply Nat.ltb_lt.
Qed.

(** [fld op x[..., None, None]]: a value per leading index combined with
    every cell of the grid. *)
Lemma binop_none2_at (f : R -> R -> R) (fld x : rtensor) L (n m : nat) :
  shape fld = L ++ [n; m] -> shape x = L ->
  exists r, Torch.binop f fld (Torch.index_none2 x) = Ok r /\
            shape r = L ++ [n; m] /\
            forall l i j, in_bounds L l = true -> (i < n)%nat -> (j < m)%nat ->
              item r (l ++ [i; j]) = f (item fld (l ++ [i; j])) (item x l).
Proof.
  intros Hf Hx.
  rewrite (binop_Ok f fld _ (sh := L ++ [n; m]))
    by (cbn [Torch.index_none2 shape]; rewrite Hf, Hx; apply broadcast_shapes_ones2).
  eexists; split; [reflexivity|]; split; [reflexivity|].
  intros l i j Hl Hi Hj; cbn [item shape Torch.index_none2].
  assert (Hb : in_bounds (L ++ [n; m]) (l ++ [i; j]) = true) by (now apply in_bounds_field).
  rewrite Hf, Hx, (bindex_same _ _ Hb).
  rewrite bindex_app by (simpl; auto using in_bounds_length).
  rewrite (bindex_same _ _ Hl), bindex_ones2.
  change (l ++ [0; 0])%nat with (l ++ [0%nat] ++ [0%nat]).
  now rewrite app_assoc, !removelast_last.
Qed.

(** The global mean of the specification, with the factors in the order
    the code multiplies them. *)
Lemma global_mean_eq (area : rtensor) (n m : nat) (x : nat -> nat -> R) :
  Formula.global_mean area n m x =
  Torch.rsum2 (fun i j => x i j * item area [i; j]) n m
  / Torch.rsum2 (fun i j => item area [i; j]) n m.
Proof.
  unfold Formula.global_mean; f_equal; apply rsum2_ext; intros; ring.
Qed.

End TorchFacts.

(** ** Reading and writing fields of the default alias table *)

Unset Implicit Arguments.

Section FieldFacts.
Local Abbreviation rtensor := (tensor R).
Local Abbreviation dict := (Dict.dict rtensor).
Implicit Types (d : dict) (name : string).

Lemma _get_resolve d name prefixes :
  Dict.lookup name ClimateData.CLIMATE_FIELD_NAME_PREFIXES = Some prefixes ->
  ClimateData._get (ClimateData.__init__ d) name =
  match ClimateData.resolve_alias d prefixes with
  | Some alias => Dict.getitem alias d
  | None => Raise (KeyError name)
  end.
Proof.
  intros H; unfold ClimateData._get, ClimateData.__init__, Dict.getitem.
  cbn [ClimateData._prefixes]; rewrite H; cbn [bind].
  now rewrite _get_loop_resolve.
Qed.

Lemma _set_resolve d name prefixes (value : rtensor) :
  Dict.lookup name ClimateData.CLIMATE_FIELD_NAME_PREFIXES = Some prefixes ->
  ClimateData._set (ClimateData.__init__ d) name value =
  match ClimateData.resolve_alias d prefixes with
  | Some alias => Ok (ClimateData.__init__ (Dict.setitem alias value d))
  | None => Raise (KeyError name)
  end.
Proof.
  intros H; unfold ClimateData._set, ClimateData.__init__, Dict.getitem.
  cbn [ClimateData._prefixes]; rewrite H; cbn [bind].
  now rewrite _set_loop_resolve.
Qed.

(** A field that resolves: its alias, and the tensor bound to it. *)
Lemma _get_Ok_inv d name prefixes (t : rtensor) :
  Dict.lookup name ClimateData.CLIMATE_FIELD_NAME_PREFIXES = Some prefixes ->
  ClimateData._get (ClimateData.__init__ d) name = Ok t ->
  exists alias, ClimateData.resolve_alias d prefixes = Some alias /\
                In alias prefixes /\ Dict.lookup alias d = Some t.
Proof.
  intros H; rewrite (_get_resolve d name prefixes H).
  destruct (ClimateData.resolve_alias d prefixes) as [alias|] eqn:E; [|discriminate].
  intros Hg; apply getitem_Ok in Hg.
  exists alias; split; [reflexivity|]; split; [|assumption].
  now destruct (resolve_alias_Some _ _ E).
Qed.

(** Writing a field that resolves: the mapping after the write, in which
    the field reads as the value written and every other key is as before. *)
Lemma _set_Ok d name prefixes alias (value : rtensor) :
  Dict.lookup name ClimateData.CLIMATE_FIELD_NAME_PREFIXES = Some prefixes ->
  ClimateData.resolve_alias d prefixes = Some alias ->
  ClimateData._set (ClimateData.__init__ d) name value
    = Ok (ClimateData.__init__ (Dict.setitem alias value d)) /\
  ClimateData._get (ClimateData.__init__ (Dict.setitem alias value d)) name = Ok value /\
  Dict.keys (Dict.setitem alias value d) = Dict.keys d /\
  (forall k, k <> alias -> Dict.lookup k (Dict.setitem alias value d) = Dict.lookup k d).
Proof.
  intros H E.
  destruct (resolve_alias_Some _ _ E) as [_ [t0 Ht0]].
  rewrite (_set_resolve d name prefixes value H), E.
  split; [reflexivity|]; split; [|split].
  - rewrite (_get_resolve _ name prefixes H), resolve_alias_setitem, E by congruence.
    unfold Dict.getitem; now rewrite lookup_setitem_same.
  - apply keys_setitem; congruence.
  - intros k Hk; now apply lookup_setitem_other.
Qed.

End FieldFacts.

(** ** Stage 2: zero global-mean moisture advection *)

Section ZeroAdvection.
Local Open Scope R_scope.
Local Abbreviation rtensor := (tensor R).
Local Abbreviation dict := (Dict.dict rtensor).
Local Abbreviation ADV := "tendency_of_total_water_path_due_to_advection".

Lemma advection_resolves (gen : dict) (adv : rtensor) :
  Dict.lookup ADV gen = Some adv ->
  ClimateData.resolve_alias gen [ADV] = Some ADV /\
  ClimateData.tendency_of_total_water_path_due_to_advection (ClimateData.__init__ gen)
    = Ok adv.
Proof.
  intros H.
  assert (Hr : ClimateData.resolve_alias gen [ADV] = Some ADV).
  { cbn [ClimateData.resolve_alias]; unfold Dict.contains; now rewrite H. }
  split; [exact Hr|].
  unfold ClimateData.tendency_of_total_water_path_due_to_advection.
  rewrite (_get_resolve gen ADV [ADV] eq_refl), Hr.
  unfold Dict.getitem; now rewrite H.
Qed.

(** C5.  For a generated mapping that binds the advection tendency to a
    field [adv] over the grid of the area weights (any leading axes), and
    area weights of positive sum, stage 2 returns a mapping in which the
    field is, cell by cell, [adv - sum_ij (w_ij * adv_ij) / sum_ij w_ij];
    the area-weighted global mean [sum_ij (w_ij * x_ij) / sum_ij w_ij] of
    the new field [x] is zero, and [weighted_mean] of the code measures the
    same; the keys are the same and every other field is bound as before.
    (That the weights are non-negative is not needed once their sum is
    positive.) *)
Theorem advection_global_mean_is_zero
    (gen : dict) (area adv : rtensor) (L : list nat) (n m : nat) :
  Dict.lookup ADV gen = Some adv ->
  shape adv = L ++ [n; m] ->
  shape area = [n; m] ->
  0 < Torch.rsum2 (fun i j => item area [i; j]) n m ->
  exists (gen' : dict) (adv' mean' : rtensor),
    Corrector._force_zero_global_mean_moisture_advection gen area = Ok gen' /\
    Dict.lookup ADV gen' = Some adv' /\
    ClimateData.tendency_of_total_water_path_due_to_advection (ClimateData.__init__ gen')
      = Ok adv' /\
    shape adv' = L ++ [n; m] /\
    (forall l i j, in_bounds L l = true -> (i < n)%nat -> (j < m)%nat ->
       item adv' (l ++ [i; j]) =
       item adv (l ++ [i; j])
       - Formula.global_mean area n m (fun i' j' => item adv (l ++ [i'; j']))) /\
    (forall l, in_bounds L l = true ->
       Formula.global_mean area n m (fun i j => item adv' (l ++ [i; j])) = 0) /\
    Metrics.weighted_mean adv' (Some area) = Ok mean' /\
    shape mean' = L /\
    (forall l, in_bounds L l = true -> item mean' l = 0) /\
    Dict.keys gen' = Dict.keys gen /\
    (forall k, k <> ADV -> Dict.lookup k gen' = Dict.lookup k gen).
Proof.
  intros Hadv Hshape Harea Hpos.
  destruct (advection_resolves gen adv Hadv) as [Hres Hget].
  destruct (@weighted_mean_at adv area L n m Hshape Harea) as (mean & Hmean & Hmsh & Hmitem).
  destruct (@binop_none2_at Rminus adv mean L n m Hshape Hmsh) as (new & Hnew & Hnsh & Hnitem).
  destruct (_set_Ok gen ADV [ADV] ADV new eq_refl Hres) as (Hset & Hget' & Hkeys & Hframe).
  destruct (@weighted_mean_at new area L n m Hnsh Harea) as (mean' & Hmean' & Hmsh' & Hmitem').
  assert (Hzero : forall l, in_bounds L l = true ->
            Torch.rsum2 (fun i j => item new (l ++ [i; j]) * item area [i; j]) n m
            / Torch.rsum2 (fun i j => item area [i; j]) n m = 0).
  { intros l Hl.
    rewrite (@rsum2_ext _ (fun i j => item adv (l ++ [i; j]) * item area [i; j]
                                     - item mean l * item area [i; j]) n m).
    2:{ intros i j Hi Hj; rewrite (Hnitem l i j Hl Hi Hj); ring. }
    rewrite rsum2_minus, rsum2_scal_l, (Hmitem l Hl).
    field; lra. }
  exists (Dict.setitem ADV new gen), new, mean'.
  split.
  { unfold Corrector._force_zero_global_mean_moisture_advection.
    rewrite Hget; cbn [bind]; rewrite Hmean; cbn [bind].
    unfold Torch.sub; rewrite Hnew; cbn [bind].
    unfold ClimateData.set_tendency_of_total_water_path_due_to_advection.
    rewrite Hset; reflexivity. }
  split; [apply lookup_setitem_same|].
  split; [exact Hget'|]; split; [exact Hnsh|].
  split.
  { intros l i j Hl Hi Hj.
    rewrite (Hnitem l i j Hl Hi Hj), global_mean_eq, (Hmitem l Hl); reflexivity. }
  split.
  { intros l Hl; rewrite global_mean_eq; now apply Hzero. }
  split; [exact Hmean'|]; split; [exact Hmsh'|].
  split; [|split; [exact Hkeys|exact Hframe]].
  intros l Hl; rewrite (Hmitem' l Hl); now apply Hzero.
Qed.

End ZeroAdvection.

Lemma advection_global_mean_is_zero_witness :
  exists gen' adv',
    Corrector._force_zero_global_mean_moisture_advection adv_state unit_area = Ok gen' /\
    Dict.lookup "tendency_of_total_water_path_due_to_advection" gen' = Some adv' /\
    item adv' [0; 0]%nat = (-1)%R /\
    item adv' [0; 1]%nat = 1%R /\
    Formula.global_mean unit_area 1 2 (fun i j => item adv' [i; j]) = 0%R /\
    Dict.lookup "PS" gen' = Dict.lookup "PS" adv_state.
Proof.
  destruct (advection_global_mean_is_zero adv_state unit_area (grid_1x2 3 5) [] 1 2
              eq_refl eq_refl eq_refl)
    as (gen' & adv' & mean' & H1 & H2 & _ & _ & Hcell & Hzero & _ & _ & _ & _ & Hframe).
  - unfold Torch.rsum2; simpl; lra.
  - exists gen', adv'.
    split; [exact H1|split; [exact H2|]].
    split; [|split; [|split; [exact (Hzero [] eq_refl)|apply Hframe; discriminate]]].
    + pose proof (Hcell [] 0%nat 0%nat eq_refl ltac:(lia) ltac:(lia)) as H.
      cbn [app] in H; rewrite H.
      unfold Formula.global_mean, Torch.rsum2, Torch.rsum; simpl; lra.
    + pose proof (Hcell [] 0%nat 1%nat eq_refl ltac:(lia) ltac:(lia)) as H.
      cbn [app] in H; rewrite H.
      unfold Formula.global_mean, Torch.rsum2, Torch.rsum; simpl; lra.
Defined.

(** ** Vertical integrals and dry air, cell by cell *)

Section VerticalFacts.
Local Open Scope R_scope.
Local Abbreviation rtensor := (tensor R).
Implicit Types (x ps ak bk : rtensor) (S : list nat) (c : list nat) (K : nat).

Lemma GRAVITY_neq_0 : Metrics.GRAVITY <> 0.
Proof. unfold Metrics.GRAVITY; lra. Qed.

(** [dp_k * x_k] summed over the levels of one column, with
    [dp_k = (ak[k+1] + ps * bk[k+1]) - (ak[k] + ps * bk[k])]. *)
Lemma vertical_integral_at x ps ak bk S K :
  shape x = S ++ [K] -> shape ps = S ->
  shape ak = [Datatypes.S K] -> shape bk = [Datatypes.S K] ->
  exists r, Metrics.vertical_integral x ps ak bk = Ok r /\ shape r = S /\
    forall c, in_bounds S c = true ->
      item r c =
      1 / Metrics.GRAVITY *
      Torch.rsum (fun k =>
                    ((item ak [Datatypes.S k] + item ps c * item bk [Datatypes.S k])
                     - (item ak [k] + item ps c * item bk [k]))
                    * item x (c ++ [k])) K.
Proof.
  intros Hx Hps Hak Hbk; unfold Metrics.vertical_integral, Torch.mul, Torch.add.
  rewrite (@binop_Ok Rmult _ bk (S ++ [Datatypes.S K]))
    by (cbn [Torch.unsqueeze_last shape]; rewrite Hps, Hbk; apply broadcast_shapes_unsqueezed).
  cbn [bind].
  rewrite (@binop_Ok Rplus ak _ (S ++ [Datatypes.S K]))
    by (cbn [shape]; rewrite Hak; apply broadcast_shapes_trailing_l).
  cbn [bind]; unfold Torch.diff_last; cbn [shape].
  destruct (S ++ [Datatypes.S K]) as [|s0 srest] eqn:E; [now destruct S|].
  rewrite <- E; clear E s0 srest.
  rewrite removelast_last, last_last; cbn [bind].
  replace (Datatypes.S K - 1)%nat with K by lia.
  rewrite (@binop_Ok Rmult _ x (S ++ [K]))
    by (cbn [shape]; rewrite Hx; apply broadcast_shapes_same).
  cbn [bind].
  erewrite sum_last_snoc by reflexivity.
  eexists; split; [reflexivity|]; split; [reflexivity|].
  intros c Hc; cbn [item shape tmap Torch.unsqueeze_last].
  f_equal; apply rsum_ext; intros k Hk.
  pose proof (in_bounds_length _ _ Hc) as Hlen.
  assert (HK : (1 < Datatypes.S K)%nat) by lia.
  rewrite Hx, Hps, Hak, Hbk.
  rewrite (bindex_same (S ++ [K]) (c ++ [k])) by (apply in_bounds_snoc; assumption).
  rewrite !removelast_last, !last_last.
  rewrite !(bindex_same (S ++ [Datatypes.S K])) by (apply in_bounds_snoc; [assumption|lia]).
  rewrite !bindex_app by (simpl; auto).
  rewrite !(bindex_same _ _ Hc), !bindex_one, !removelast_last.
  rewrite !bindex_drop by reflexivity.
  rewrite !bindex_level by assumption.
  reflexivity.
Qed.

Lemma shape_last_snoc x S K :
  shape x = S ++ [K] -> Torch.shape_last x = Ok (Z.of_nat K).
Proof.
  intros H; unfold Torch.shape_last; rewrite H.
  destruct (S ++ [K]) as [|s0 srest] eqn:E; [now destruct S|].
  now rewrite <- E, last_last.
Qed.

(** Dry air of one column: [ps - sum_k (ak_diff_k + bk_diff_k * ps) * wat_k]. *)
Lemma metrics_dry_air_at x ps ak bk S K :
  shape x = S ++ [K] -> shape ps = S ->
  shape ak = [Datatypes.S K] -> shape bk = [Datatypes.S K] ->
  exists r, Metrics.surface_pressure_due_to_dry_air x ps ak bk = Ok r /\ shape r = S /\
    forall c, in_bounds S c = true ->
      item r c =
      item ps c -
      Torch.rsum (fun k =>
                    ((item ak [Datatypes.S k] - item ak [k])
                     + (item bk [Datatypes.S k] - item bk [k]) * item ps c)
                    * item x (c ++ [k])) K.
Proof.
  intros Hx Hps Hak Hbk.
  destruct (vertical_integral_at x ps ak bk S K Hx Hps Hak Hbk) as (twp & Htwp & Hsh & Hitem).
  unfold Metrics.surface_pressure_due_to_dry_air, Torch.len.
  rewrite Hak, Hbk, (shape_last_snoc x S K Hx); cbn [bind].
  rewrite Z.eqb_refl; cbn [negb bind].
  replace (Z.of_nat (Datatypes.S K) - 1 =? Z.of_nat K)%Z with true
    by (symmetry; apply Z.eqb_eq; lia).
  cbn [negb]; rewrite Htwp; cbn [bind]; unfold Torch.sub.
  rewrite (@binop_Ok Rminus ps _ S)
    by (cbn [shape tmap]; rewrite Hps, Hsh; apply broadcast_shapes_same).
  eexists; split; [reflexivity|]; split; [reflexivity|].
  intros c Hc; cbn [item shape tmap].
  rewrite Hps, Hsh, (bindex_same _ _ Hc), (Hitem c Hc).
  pose proof GRAVITY_neq_0 as HG.
  match goal with
  | |- _ - Metrics.GRAVITY * (1 / Metrics.GRAVITY * ?s) = _ =>
      replace (Metrics.GRAVITY * (1 / Metrics.GRAVITY * s)) with s by (field; exact HG)
  end.
  f_equal; apply rsum_ext; intros k _; ring.
Qed.

End VerticalFacts.

(** ** Fields that a write leaves alone *)

Section FrameFacts.
Local Abbreviation rtensor := (tensor R).
Local Abbreviation dict := (Dict.dict rtensor).
Implicit Types (d : dict) (name alias : string).

Lemma insert_sorted_In (x y : string) (l : list string) :
  In x (ClimateData.insert_sorted y l) <-> x = y \/ In x l.
Proof.
  induction l as [|z l IH]; simpl; [intuition|].
  destruct (ClimateData.key_compare _ _); simpl; rewrite ?IH; intuition.
Qed.

Lemma natural_sort_In (x : string) (l : list string) :
  In x (ClimateData.natural_sort l) <-> In x l.
Proof.
  unfold ClimateData.natural_sort.
  assert (H : forall acc, In x (fold_left (fun acc x => ClimateData.insert_sorted x acc) l acc)
                          <-> In x l \/ In x acc).
  { induction l as [|y l IH]; simpl; intros acc; [intuition|].
    rewrite IH, insert_sorted_In; intuition. }
  rewrite H; simpl; intuition.
Qed.

(** Writing under a bound key that does not start with a prefix leaves the
    levels gathered for that prefix as they were. *)
Lemma _extract_prefix_levels_setitem d alias (v : rtensor) (prefix : string) :
  Dict.lookup alias d <> None ->
  ClimateData.startswith alias prefix = false ->
  ClimateData._extract_prefix_levels (ClimateData.__init__ (Dict.setitem alias v d)) prefix
  = ClimateData._extract_prefix_levels (ClimateData.__init__ d) prefix.
Proof.
  intros Hb Hp; unfold ClimateData._extract_prefix_levels, ClimateData.__init__.
  cbn [ClimateData._data]; rewrite (keys_setitem alias v d Hb).
  destruct (_ =? 0)%nat; [reflexivity|].
  f_equal; apply mapM_ext_in; intros x Hx.
  apply natural_sort_In, filter_In in Hx; destruct Hx as [_ Hx].
  unfold Dict.getitem; rewrite lookup_setitem_other; [reflexivity|].
  intros ->; congruence.
Qed.

Lemma specific_total_water_setitem d alias (v : rtensor) :
  Dict.lookup alias d <> None ->
  ClimateData.startswith alias "specific_total_water_" = false ->
  ClimateData.specific_total_water (ClimateData.__init__ (Dict.setitem alias v d))
  = ClimateData.specific_total_water (ClimateData.__init__ d).
Proof.
  intros Hb Hp; unfold ClimateData.specific_total_water, ClimateData._extract_levels.
  change (Dict.getitem "specific_total_water" _)
    with (@Ok (list string) ["specific_total_water_"]).
  cbn [bind ClimateData._extract_levels_loop].
  now rewrite (_extract_prefix_levels_setitem d alias v _ Hb Hp).
Qed.

(** Writing under an alias of one field leaves a field with other aliases
    as it was. *)
Lemma _get_setitem_other d alias (v : rtensor) name prefixes :
  Dict.lookup name ClimateData.CLIMATE_FIELD_NAME_PREFIXES = Some prefixes ->
  Dict.lookup alias d <> None ->
  ~ In alias prefixes ->
  ClimateData._get (ClimateData.__init__ (Dict.setitem alias v d)) name
  = ClimateData._get (ClimateData.__init__ d) name.
Proof.
  intros Hn Hb Hnin.
  rewrite !(_get_resolve _ name prefixes Hn), (resolve_alias_setitem d prefixes alias v Hb).
  destruct (ClimateData.resolve_alias d prefixes) as [a|] eqn:E; [|reflexivity].
  destruct (resolve_alias_Some _ _ E) as [Ha _].
  unfold Dict.getitem; rewrite lookup_setitem_other; [reflexivity|].
  intros ->; contradiction.
Qed.

End FrameFacts.

Section SameShape.
Local Open Scope R_scope.
Local Abbreviation rtensor := (tensor R).

Lemma binop_same_at (f : R -> R -> R) (t u : rtensor) (S : list nat) :
  shape t = S -> shape u = S ->
  exists r, Torch.binop f t u = Ok r /\ shape r = S /\
            forall c, in_bounds S c = true -> item r c = f (item t c) (item u c).
Proof.
  intros Ht Hu.
  rewrite (@binop_Ok f t u S) by (rewrite Ht, Hu; apply broadcast_shapes_same).
  eexists; split; [reflexivity|]; split; [reflexivity|].
  intros c Hc; cbn [item]; now rewrite Ht, Hu, (bindex_same _ _ Hc).
Qed.

End SameShape.

(** ** Stage 3: closing the moisture budget *)

Section MoistureBudget.
Local Open Scope R_scope.
Variable TIMESTEP_SECONDS : R.
Variable LATENT_HEAT_OF_VAPORIZATION : R.
Local Abbreviation rtensor := (tensor R).
Local Abbreviation dict := (Dict.dict rtensor).
Local Abbreviation ADV := "tendency_of_total_water_path_due_to_advection".
Local Abbreviation CD := ClimateData.__init__.
Local Abbreviation evaporation_rate :=
  (ClimateData.evaporation_rate LATENT_HEAT_OF_VAPORIZATION).
Local Abbreviation _force_conserve_moisture :=
  (Corrector._force_conserve_moisture TIMESTEP_SECONDS LATENT_HEAT_OF_VAPORIZATION).

(** The total water path reads the water levels and the surface pressure
    only. *)
Lemma total_water_path_frame (d : dict) (alias : string) (v : rtensor) sigma :
  Dict.lookup alias d <> None ->
  ClimateData.startswith alias "specific_total_water_" = false ->
  ~ In alias ["PRESsfc"; "PS"] ->
  ClimateData.total_water_path (CD (Dict.setitem alias v d)) sigma
  = ClimateData.total_water_path (CD d) sigma.
Proof.
  intros Hb Hp Hnin; unfold ClimateData.total_water_path, ClimateData.surface_pressure.
  rewrite (specific_total_water_setitem d alias v Hb Hp).
  now rewrite (_get_setitem_other d alias v "surface_pressure" _ eq_refl Hb Hnin).
Qed.

Lemma dry_air_frame (d : dict) (alias : string) (v : rtensor) sigma :
  Dict.lookup alias d <> None ->
  ClimateData.startswith alias "specific_total_water_" = false ->
  ~ In alias ["PRESsfc"; "PS"] ->
  ClimateData.surface_pressure_due_to_dry_air (CD (Dict.setitem alias v d)) sigma
  = ClimateData.surface_pressure_due_to_dry_air (CD d) sigma.
Proof.
  intros Hb Hp Hnin.
  unfold ClimateData.surface_pressure_due_to_dry_air, ClimateData.surface_pressure.
  rewrite (specific_total_water_setitem d alias v Hb Hp).
  now rewrite (_get_setitem_other d alias v "surface_pressure" _ eq_refl Hb Hnin).
Qed.

Lemma total_water_path_at (d : dict) sigma (wat ps : rtensor) (S : list nat) (K : nat) :
  ClimateData.specific_total_water (CD d) = Ok wat ->
  ClimateData.surface_pressure (CD d) = Ok ps ->
  shape wat = S ++ [K] -> shape ps = S ->
  shape (ClimateData.ak sigma) = [Datatypes.S K] ->
  shape (ClimateData.bk sigma) = [Datatypes.S K] ->
  exists r, ClimateData.total_water_path (CD d) sigma = Ok r /\ shape r = S.
Proof.
  intros Hw Hp Hsw Hsp Hak Hbk; unfold ClimateData.total_water_path.
  rewrite Hw, Hp; cbn [bind].
  destruct (vertical_integral_at wat ps _ _ S K Hsw Hsp Hak Hbk) as (r & Hr & Hs & _).
  now exists r.
Qed.

(** What stage 3 computes in mode "advection_and_precipitation", field by
    field. *)
Lemma moisture_budget_pipeline
    (input gen : dict) (area : rtensor) (sigma : ClimateData.SigmaCoordinates)
    (L : list nat) (n m K : nat)
    (wat_in ps_in wat ps precip lhf adv : rtensor) :
  ClimateData.specific_total_water (CD input) = Ok wat_in ->
  ClimateData.surface_pressure (CD input) = Ok ps_in ->
  ClimateData.specific_total_water (CD gen) = Ok wat ->
  ClimateData.surface_pressure (CD gen) = Ok ps ->
  ClimateData.precipitation_rate (CD gen) = Ok precip ->
  ClimateData.latent_heat_flux (CD gen) = Ok lhf ->
  ClimateData.tendency_of_total_water_path_due_to_advection (CD gen) = Ok adv ->
  shape wat_in = (L ++ [n; m]) ++ [K] -> shape ps_in = L ++ [n; m] ->
  shape wat = (L ++ [n; m]) ++ [K] -> shape ps = L ++ [n; m] ->
  shape precip = L ++ [n; m] -> shape lhf = L ++ [n; m] ->
  shape area = [n; m] ->
  shape (ClimateData.ak sigma) = [S K] -> shape (ClimateData.bk sigma) = [S K] ->
  exists (gen' : dict) (twp_gen twp_in twp_diff evap precip' adv' : rtensor)
         (m_twp m_evap m_precip m_precip' : rtensor),
    _force_conserve_moisture input gen area sigma "advection_and_precipitation" = Ok gen' /\
    ClimateData.total_water_path (CD gen') sigma = Ok twp_gen /\
    ClimateData.total_water_path (CD input) sigma = Ok twp_in /\
    Torch.sub twp_gen twp_in = Ok twp_diff /\
    evaporation_rate (CD gen') = Ok evap /\
    ClimateData.precipitation_rate (CD gen') = Ok precip' /\
    ClimateData.tendency_of_total_water_path_due_to_advection (CD gen') = Ok adv' /\
    Metrics.weighted_mean (tmap (fun x => x / TIMESTEP_SECONDS) twp_diff) (Some area)
      = Ok m_twp /\
    Metrics.weighted_mean evap (Some area) = Ok m_evap /\
    Metrics.weighted_mean precip (Some area) = Ok m_precip /\
    Metrics.weighted_mean precip' (Some area) = Ok m_precip' /\
    shape adv' = L ++ [n; m] /\
    (forall l i j, in_bounds L l = true -> (i < n)%nat -> (j < m)%nat ->
       item precip' (l ++ [i; j]) =
       item precip (l ++ [i; j]) * ((item m_evap l - item m_twp l) / item m_precip l)) /\
    (forall c, in_bounds (L ++ [n; m]) c = true ->
       item adv' c =
       (item twp_gen c - item twp_in c) / TIMESTEP_SECONDS
       - (item evap c - item precip' c)) /\
    ClimateData.total_water_path (CD gen) sigma = Ok twp_gen /\
    evap = tmap (fun x => x / LATENT_HEAT_OF_VAPORIZATION) lhf /\
    (forall c, in_bounds (L ++ [n; m]) c = true ->
       item twp_diff c = item twp_gen c - item twp_in c) /\
    (forall l, in_bounds L l = true ->
       item m_twp l =
       Torch.rsum2 (fun i j => item twp_diff (l ++ [i; j]) / TIMESTEP_SECONDS
                               * item area [i; j]) n m
       / Torch.rsum2 (fun i j => item area [i; j]) n m) /\
    (forall l, in_bounds L l = true ->
       item m_evap l =
       Torch.rsum2 (fun i j => item evap (l ++ [i; j]) * item area [i; j]) n m
       / Torch.rsum2 (fun i j => item area [i; j]) n m) /\
    (forall l, in_bounds L l = true ->
       item m_precip l =
       Torch.rsum2 (fun i j => item precip (l ++ [i; j]) * item area [i; j]) n m
       / Torch.rsum2 (fun i j => item area [i; j]) n m) /\
    (forall l, in_bounds L l = true ->
       item m_precip' l =
       Torch.rsum2 (fun i j => item precip' (l ++ [i; j]) * item area [i; j]) n m
       / Torch.rsum2 (fun i j => item area [i; j]) n m).
Proof.
  intros Hwi Hpi Hw Hp Hpr Hlhf Hadv Swi Spi Sw Sp Spr Slhf Sarea Sak Sbk.
  set (F := L ++ [n; m]) in *.
  (* the aliases in use *)
  destruct (_get_Ok_inv gen "precipitation_rate" _ precip eq_refl Hpr)
    as (ap & Rap & Iap & Lap).
  destruct (_get_Ok_inv gen ADV _ adv eq_refl Hadv) as (aa & Raa & Iaa & Laa).
  destruct Iaa as [<-|[]].
  assert (Fap : ap <> ADV /\ ~ In ap ["LHTFLsfc"; "LHFLX"] /\ ~ In ap ["PRESsfc"; "PS"] /\
                ClimateData.startswith ap "specific_total_water_" = false).
  { destruct Iap as [<-|[<-|[]]]; repeat split; try discriminate; try reflexivity;
      simpl; intuition discriminate. }
  destruct Fap as (Fap1 & Fap2 & Fap3 & Fap4).
  (* the quantities of the generated and of the input state *)
  destruct (total_water_path_at gen sigma wat ps F K Hw Hp Sw Sp Sak Sbk) as (tg & Htg & Stg).
  destruct (total_water_path_at input sigma wat_in ps_in F K Hwi Hpi Swi Spi Sak Sbk)
    as (ti & Hti & Sti).
  destruct (binop_same_at Rminus tg ti F Stg Sti) as (td & Htd & Std & Itd).
  set (tend := tmap (fun x => x / TIMESTEP_SECONDS) td).
  assert (Stend : shape tend = L ++ [n; m]) by exact Std.
  destruct (@weighted_mean_at tend area L n m Stend Sarea) as (mt & Hmt & Smt & Imt).
  set (ev := tmap (fun x => x / LATENT_HEAT_OF_VAPORIZATION) lhf).
  assert (Hev : evaporation_rate (CD gen) = Ok ev).
  { unfold ClimateData.evaporation_rate; unfold ClimateData.latent_heat_flux in Hlhf.
    now rewrite Hlhf. }
  assert (Sev : shape ev = L ++ [n; m]) by exact Slhf.
  destruct (@weighted_mean_at ev area L n m Sev Sarea) as (me & Hme & Sme & Ime).
  destruct (@weighted_mean_at precip area L n m Spr Sarea) as (mp & Hmp & Smp & Imp).
  (* the new precipitation *)
  destruct (binop_same_at Rminus me mt L Sme Smt) as (npm & Hnpm & Snpm & Inpm).
  destruct (binop_same_at Rdiv npm mp L Snpm Smp) as (ratio & Hratio & Sratio & Iratio).
  destruct (@binop_none2_at Rmult precip ratio L n m Spr Sratio) as (new & Hnew & Snew & Inew).
  destruct (_set_Ok gen "precipitation_rate" _ ap new eq_refl Rap)
    as (Hset1 & Hget1 & Hkeys1 & Hframe1).
  set (gen1 := Dict.setitem ap new gen) in *.
  assert (Bap : Dict.lookup ap gen <> None) by congruence.
  assert (Hev1 : evaporation_rate (CD gen1) = Ok ev).
  { unfold ClimateData.evaporation_rate, gen1.
    rewrite (_get_setitem_other gen ap new "latent_heat_flux" _ eq_refl Bap Fap2).
    exact Hev. }
  (* the new advection *)
  destruct (binop_same_at Rminus ev new F Sev Snew) as (budget & Hbud & Sbud & Ibud).
  destruct (binop_same_at Rminus tend budget F Stend Sbud) as (nadv & Hnadv & Snadv & Inadv).
  assert (Laa1 : Dict.lookup ADV gen1 = Some adv).
  { unfold gen1; rewrite Hframe1; [exact Laa|congruence]. }
  destruct (advection_resolves gen1 adv Laa1) as [Raa1 _].
  destruct (_set_Ok gen1 ADV _ ADV nadv eq_refl Raa1) as (Hset2 & Hget2 & Hkeys2 & Hframe2).
  set (gen2 := Dict.setitem ADV nadv gen1) in *.
  assert (Baa1 : Dict.lookup ADV gen1 <> None) by congruence.
  (* what the final state holds *)
  assert (Htg2 : ClimateData.total_water_path (CD gen2) sigma = Ok tg).
  { unfold gen2; rewrite (total_water_path_frame gen1 ADV nadv sigma Baa1 eq_refl).
    2:{ simpl; intuition discriminate. }
    unfold gen1; now rewrite (total_water_path_frame gen ap new sigma Bap Fap4 Fap3). }
  assert (Hev2 : evaporation_rate (CD gen2) = Ok ev).
  { unfold ClimateData.evaporation_rate, gen2.
    rewrite (_get_setitem_other gen1 ADV nadv "latent_heat_flux" _ eq_refl Baa1).
    2:{ simpl; intuition discriminate. }
    exact Hev1. }
  assert (Hpr2 : ClimateData.precipitation_rate (CD gen2) = Ok new).
  { unfold ClimateData.precipitation_rate, gen2.
    rewrite (_get_setitem_other gen1 ADV nadv "precipitation_rate" _ eq_refl Baa1).
    2:{ simpl; intuition discriminate. }
    exact Hget1. }
  destruct (@weighted_mean_at new area L n m Snew Sarea) as (mp' & Hmp' & Smp' & Imp').
  exists gen2, tg, ti, td, ev, new, nadv, mt, me, mp, mp'.
  split.
  { unfold Corrector._force_conserve_moisture, Torch.sub, Torch.div, Torch.mul.
    unfold ClimateData.set_precipitation_rate,
      ClimateData.set_tendency_of_total_water_path_due_to_advection.
    replace (Corrector.endswith "advection_and_precipitation" "precipitation")
      with true by reflexivity.
    replace (ClimateData.startswith "advection_and_precipitation" "advection")
      with true by reflexivity.
    rewrite Htg, Hti; cbn [bind]; rewrite Htd; cbn [bind].
    fold tend; rewrite Hmt; cbn [bind]; rewrite Hev; cbn [bind]; fold ev.
    rewrite Hme; cbn [bind]; rewrite Hpr; cbn [bind]; rewrite Hmp; cbn [bind].
    rewrite Hnpm; cbn [bind]; rewrite Hratio; cbn [bind].
    rewrite Hnew; cbn [bind]; rewrite Hset1; cbn [bind].
    fold gen1; rewrite Hev1; cbn [bind].
    unfold ClimateData.precipitation_rate; rewrite Hget1; cbn [bind].
    rewrite Hbud; cbn [bind]; rewrite Hnadv; cbn [bind].
    rewrite Hset2; reflexivity. }
  split; [exact Htg2|]; split; [exact Hti|]; split; [exact Htd|].
  split; [exact Hev2|]; split; [exact Hpr2|]; split; [exact Hget2|].
  split; [exact Hmt|]; split; [exact Hme|]; split; [exact Hmp|]; split; [exact Hmp'|].
  split; [exact Snadv|].
  assert (Hscale : forall l i j, in_bounds L l = true -> (i < n)%nat -> (j < m)%nat ->
            item new (l ++ [i; j]) =
            item precip (l ++ [i; j]) * ((item me l - item mt l) / item mp l)).
  { intros l i j Hl Hi Hj.
    rewrite (Inew l i j Hl Hi Hj), (Iratio l Hl), (Inpm l Hl); reflexivity. }
  split; [exact Hscale|]; split.
  { intros c Hc; rewrite (Inadv c Hc), (Ibud c Hc).
    unfold tend; cbn [item tmap]; now rewrite (Itd c Hc). }
  split; [exact Htg|]; split; [reflexivity|]; split; [exact Itd|].
  split; [exact Imt|]; split; [exact Ime|]; split; [exact Imp|exact Imp'].
Qed.

(** The total water path the code computes is the one of the
    specification. *)
Lemma total_water_path_formula (d : dict) sigma (wat ps r : rtensor) (F : list nat) (K : nat) :
  ClimateData.specific_total_water (CD d) = Ok wat ->
  ClimateData.surface_pressure (CD d) = Ok ps ->
  shape wat = F ++ [K] -> shape ps = F ->
  shape (ClimateData.ak sigma) = [S K] ->
  shape (ClimateData.bk sigma) = [S K] ->
  ClimateData.total_water_path (CD d) sigma = Ok r ->
  forall c, in_bounds F c = true -> item r c = Formula.total_water_path sigma K ps wat c.
Proof.
  intros Hw Hp Hsw Hsp Hak Hbk; unfold ClimateData.total_water_path.
  rewrite Hw, Hp; cbn [bind].
  destruct (vertical_integral_at wat ps _ _ F K Hsw Hsp Hak Hbk) as (r' & Hr' & _ & Ir').
  rewrite Hr'; intros Hr c Hc; injection Hr as <-.
  rewrite (Ir' c Hc); unfold Formula.total_water_path; f_equal.
  apply rsum_ext; intros k _; ring.
Qed.

(** C2, as the code has it.  Take an input and a generated mapping in
    which water levels, surface pressure, precipitation, latent heat flux
    and advection tendency resolve, as fields over the grid of the area
    weights.  Let the time step and the latent heat of vaporization be
    non-zero, the area weights not sum to zero and the global mean of the
    old precipitation be non-zero: these are the divisors of the stage.
    With [twp_tendency = (total_water_path(gen) - total_water_path(input))
    / TIMESTEP_SECONDS] and [evaporation = latent_heat_flux /
    LATENT_HEAT_OF_VAPORIZATION], stage 3 in mode
    "advection_and_precipitation" returns a mapping [gen'] with the water
    path and the evaporation of [gen], in which
    - precipitation is the old field times
      [(global_mean(evaporation) - global_mean(twp_tendency))
       / global_mean(old precipitation)];
    - in every cell, the advection tendency equals
      [twp_tendency - (evaporation - precipitation)];
    - the global mean of [twp_tendency] equals the global mean of
      evaporation minus that of the new precipitation.
    Total water path and global mean are the formulas of the
    specification. *)
Theorem moisture_budget_closure
    (input gen : dict) (area : rtensor) (sigma : ClimateData.SigmaCoordinates)
    (L : list nat) (n m K : nat)
    (wat_in ps_in wat ps precip lhf adv : rtensor) :
  TIMESTEP_SECONDS <> 0 ->
  LATENT_HEAT_OF_VAPORIZATION <> 0 ->
  ClimateData.specific_total_water (CD input) = Ok wat_in ->
  ClimateData.surface_pressure (CD input) = Ok ps_in ->
  ClimateData.specific_total_water (CD gen) = Ok wat ->
  ClimateData.surface_pressure (CD gen) = Ok ps ->
  ClimateData.precipitation_rate (CD gen) = Ok precip ->
  ClimateData.latent_heat_flux (CD gen) = Ok lhf ->
  ClimateData.tendency_of_total_water_path_due_to_advection (CD gen) = Ok adv ->
  shape wat_in = (L ++ [n; m]) ++ [K] -> shape ps_in = L ++ [n; m] ->
  shape wat = (L ++ [n; m]) ++ [K] -> shape ps = L ++ [n; m] ->
  shape precip = L ++ [n; m] -> shape lhf = L ++ [n; m] ->
  shape area = [n; m] ->
  shape (ClimateData.ak sigma) = [S K] -> shape (ClimateData.bk sigma) = [S K] ->
  Torch.rsum2 (fun i j => item area [i; j]) n m <> 0 ->
  (forall l, in_bounds L l = true ->
     Formula.global_mean area n m (fun i j => item precip (l ++ [i; j])) <> 0) ->
  let twp_tendency := fun c =>
    (Formula.total_water_path sigma K ps wat c
     - Formula.total_water_path sigma K ps_in wat_in c) / TIMESTEP_SECONDS in
  let evaporation := fun c => item lhf c / LATENT_HEAT_OF_VAPORIZATION in
  exists (gen' : dict) (precip' adv' twp_gen evap : rtensor),
    _force_conserve_moisture input gen area sigma "advection_and_precipitation" = Ok gen' /\
    ClimateData.precipitation_rate (CD gen') = Ok precip' /\
    ClimateData.tendency_of_total_water_path_due_to_advection (CD gen') = Ok adv' /\
    shape adv' = L ++ [n; m] /\
    ClimateData.total_water_path (CD gen') sigma = Ok twp_gen /\
    (forall c, in_bounds (L ++ [n; m]) c = true ->
       item twp_gen c = Formula.total_water_path sigma K ps wat c) /\
    evaporation_rate (CD gen') = Ok evap /\
    (forall c, item evap c = evaporation c) /\
    (forall l i j, in_bounds L l = true -> (i < n)%nat -> (j < m)%nat ->
       item precip' (l ++ [i; j]) =
       item precip (l ++ [i; j])
       * ((Formula.global_mean area n m (fun i' j' => evaporation (l ++ [i'; j']))
           - Formula.global_mean area n m (fun i' j' => twp_tendency (l ++ [i'; j'])))
          / Formula.global_mean area n m (fun i' j' => item precip (l ++ [i'; j'])))) /\
    (forall c, in_bounds (L ++ [n; m]) c = true ->
       item adv' c = twp_tendency c - (evaporation c - item precip' c)) /\
    (forall l, in_bounds L l = true ->
       Formula.global_mean area n m (fun i j => twp_tendency (l ++ [i; j]))
       = Formula.global_mean area n m (fun i j => evaporation (l ++ [i; j]))
         - Formula.global_mean area n m (fun i j => item precip' (l ++ [i; j]))).
Proof.
  intros HTS HLH Hwi Hpi Hw Hp Hpr Hlhf Hadv Swi Spi Sw Sp Spr Slhf Sarea Sak Sbk HW HP
         twp_tendency evaporation.
  destruct (moisture_budget_pipeline input gen area sigma L n m K
              wat_in ps_in wat ps precip lhf adv
              Hwi Hpi Hw Hp Hpr Hlhf Hadv Swi Spi Sw Sp Spr Slhf Sarea Sak Sbk)
    as (gen' & tg & ti & td & ev & new & nadv & mt & me & mp & mp'
        & E1 & E2 & E3 & E4 & E5 & E6 & E7 & E8 & E9 & E10 & E11 & Sadv
        & Hscale & Hadv' & Etg & Eev & Itd & Imt & Ime & Imp & Imp').
  assert (Itg : forall c, in_bounds (L ++ [n; m]) c = true ->
            item tg c = Formula.total_water_path sigma K ps wat c)
    by (exact (total_water_path_formula gen sigma wat ps tg (L ++ [n; m]) K
                 Hw Hp Sw Sp Sak Sbk Etg)).
  assert (Iti : forall c, in_bounds (L ++ [n; m]) c = true ->
            item ti c = Formula.total_water_path sigma K ps_in wat_in c)
    by (exact (total_water_path_formula input sigma wat_in ps_in ti (L ++ [n; m]) K
                 Hwi Hpi Swi Spi Sak Sbk E3)).
  assert (Iev : forall c, item ev c = evaporation c) by (intros c; rewrite Eev; reflexivity).
  assert (Gt : forall l, in_bounds L l = true ->
            item mt l = Formula.global_mean area n m (fun i j => twp_tendency (l ++ [i; j]))).
  { intros l Hl; rewrite (Imt l Hl), global_mean_eq; f_equal.
    apply rsum2_ext; intros i j Hi Hj.
    pose proof (@in_bounds_field L n m l i j Hl Hi Hj) as Hc.
    now rewrite (Itd _ Hc), (Itg _ Hc), (Iti _ Hc). }
  assert (Ge : forall l, in_bounds L l = true ->
            item me l = Formula.global_mean area n m (fun i j => evaporation (l ++ [i; j]))).
  { intros l Hl; rewrite (Ime l Hl), global_mean_eq; f_equal.
    apply rsum2_ext; intros i j _ _; now rewrite Iev. }
  assert (Gp : forall l, in_bounds L l = true ->
            item mp l = Formula.global_mean area n m (fun i j => item precip (l ++ [i; j])))
    by (intros l Hl; now rewrite (Imp l Hl), global_mean_eq).
  assert (Gp' : forall l, in_bounds L l = true ->
            item mp' l = Formula.global_mean area n m (fun i j => item new (l ++ [i; j])))
    by (intros l Hl; now rewrite (Imp' l Hl), global_mean_eq).
  exists gen', new, nadv, tg, ev.
  split; [exact E1|split; [exact E6|split; [exact E7|split; [exact Sadv|]]]].
  split; [exact E2|split; [exact Itg|split; [exact E5|split; [exact Iev|]]]].
  split.
  { intros l i j Hl Hi Hj.
    now rewrite (Hscale l i j Hl Hi Hj), (Ge l Hl), (Gt l Hl), (Gp l Hl). }
  split.
  { intros c Hc; now rewrite (Hadv' c Hc), (Itg c Hc), (Iti c Hc), Iev. }
  intros l Hl.
  rewrite <- (Gt l Hl), <- (Ge l Hl), <- (Gp' l Hl).
  assert (Hmp0 : item mp l <> 0) by (rewrite (Gp l Hl); now apply HP).
  rewrite (Imp' l Hl).
  rewrite (@rsum2_ext _ (fun i j => (item precip (l ++ [i; j]) * item area [i; j])
                                    * ((item me l - item mt l) / item mp l)) n m).
  2:{ intros i j Hi Hj; rewrite (Hscale l i j Hl Hi Hj); ring. }
  rewrite rsum2_scal_r.
  pose proof (Imp l Hl) as Emp.
  set (P := Torch.rsum2 (fun i j => item precip (l ++ [i; j]) * item area [i; j]) n m) in *.
  set (W := Torch.rsum2 (fun i j => item area [i; j]) n m) in *.
  replace (P * ((item me l - item mt l) / item mp l) / W)
    with ((P / W) * ((item me l - item mt l) / item mp l)) by (field; split; assumption).
  rewrite <- Emp; field; exact Hmp0.
Qed.

End MoistureBudget.

(** ** Stage 1: conservation of dry air *)

Section DryAir.
Local Open Scope R_scope.
Local Abbreviation rtensor := (tensor R).
Local Abbreviation dict := (Dict.dict rtensor).
Local Abbreviation CD := ClimateData.__init__.

(** [(v.diff() * wat).sum(-1)]: the level differences of [v] weighted by
    the water of each level, per column. *)
Lemma level_sum_at (v wat : rtensor) (F : list nat) (K : nat) :
  shape v = [S K] -> shape wat = F ++ [K] ->
  exists dv r,
    Torch.diff_last v = Ok dv /\ Torch.mul dv wat = Ok r /\
    shape (Torch.sum_last r) = F /\
    forall c, in_bounds F c = true ->
      item (Torch.sum_last r) c =
      Torch.rsum (fun k => (item v [S k] - item v [k]) * item wat (c ++ [k])) K.
Proof.
  intros Hv Hw; unfold Torch.diff_last, Torch.mul; rewrite Hv.
  eexists; eexists; split; [reflexivity|].
  cbn [removelast last app].
  replace (S K - 1)%nat with K by lia.
  rewrite (@binop_Ok Rmult _ wat (F ++ [K]))
    by (cbn [shape]; rewrite Hw; apply (broadcast_shapes_trailing_l F [K])).
  split; [reflexivity|].
  erewrite sum_last_snoc by reflexivity.
  split; [reflexivity|].
  intros c Hc; cbn [item shape]; apply rsum_ext; intros k Hk.
  rewrite Hw, (bindex_same (F ++ [K]) (c ++ [k])) by (now apply in_bounds_snoc).
  rewrite bindex_drop by reflexivity.
  rewrite bindex_same by (rewrite in_bounds_1; now apply Nat.ltb_lt).
  reflexivity.
Qed.

Lemma dry_air_at (d : dict) sigma (wat ps : rtensor) (F : list nat) (K : nat) :
  ClimateData.specific_total_water (CD d) = Ok wat ->
  ClimateData.surface_pressure (CD d) = Ok ps ->
  shape wat = F ++ [K] -> shape ps = F ->
  shape (ClimateData.ak sigma) = [S K] ->
  shape (ClimateData.bk sigma) = [S K] ->
  exists r, ClimateData.surface_pressure_due_to_dry_air (CD d) sigma = Ok r /\
    shape r = F /\
    forall c, in_bounds F c = true ->
      item r c =
      item ps c -
      Torch.rsum (fun k =>
                    ((item (ClimateData.ak sigma) [S k] - item (ClimateData.ak sigma) [k])
                     + (item (ClimateData.bk sigma) [S k] - item (ClimateData.bk sigma) [k])
                       * item ps c)
                    * item wat (c ++ [k])) K.
Proof.
  intros Hw Hp Hsw Hsp Hak Hbk; unfold ClimateData.surface_pressure_due_to_dry_air.
  rewrite Hw, Hp; cbn [bind].
  exact (metrics_dry_air_at wat ps _ _ F K Hsw Hsp Hak Hbk).
Qed.

(** What stage 1 computes, field by field. *)
Lemma dry_air_pipeline
    (input gen : dict) (area : rtensor) (sigma : ClimateData.SigmaCoordinates)
    (L : list nat) (n m K : nat) (wat_in ps_in wat ps : rtensor) :
  ClimateData.specific_total_water (CD input) = Ok wat_in ->
  ClimateData.surface_pressure (CD input) = Ok ps_in ->
  ClimateData.specific_total_water (CD gen) = Ok wat ->
  ClimateData.surface_pressure (CD gen) = Ok ps ->
  shape wat_in = (L ++ [n; m]) ++ [K] -> shape ps_in = L ++ [n; m] ->
  shape wat = (L ++ [n; m]) ++ [K] -> shape ps = L ++ [n; m] ->
  shape area = [n; m] ->
  shape (ClimateData.ak sigma) = [S K] -> shape (ClimateData.bk sigma) = [S K] ->
  exists (gen' : dict) (gda mg dry_in mi ps' dry' m' : rtensor),
    Corrector._force_conserve_dry_air input gen area sigma = Ok gen' /\
    ClimateData.surface_pressure_due_to_dry_air (CD gen) sigma = Ok gda /\
    Metrics.weighted_mean gda (Some area) = Ok mg /\
    ClimateData.surface_pressure_due_to_dry_air (CD input) sigma = Ok dry_in /\
    Metrics.weighted_mean dry_in (Some area) = Ok mi /\
    ClimateData.surface_pressure (CD gen') = Ok ps' /\
    ClimateData.specific_total_water (CD gen') = Ok wat /\
    (forall l i j, in_bounds L l = true -> (i < n)%nat -> (j < m)%nat ->
       item ps' (l ++ [i; j]) =
       (item gda (l ++ [i; j]) - (item mg l - item mi l)
        + Torch.rsum (fun k => (item (ClimateData.ak sigma) [S k]
                                - item (ClimateData.ak sigma) [k])
                               * item wat ((l ++ [i; j]) ++ [k])) K)
       / (1 - Torch.rsum (fun k => (item (ClimateData.bk sigma) [S k]
                                    - item (ClimateData.bk sigma) [k])
                                   * item wat ((l ++ [i; j]) ++ [k])) K)) /\
    ClimateData.surface_pressure_due_to_dry_air (CD gen') sigma = Ok dry' /\
    Metrics.weighted_mean dry' (Some area) = Ok m' /\
    shape m' = L /\
    (forall c, in_bounds (L ++ [n; m]) c = true ->
       item gda c =
       item ps c -
       Torch.rsum (fun k =>
                     ((item (ClimateData.ak sigma) [S k] - item (ClimateData.ak sigma) [k])
                      + (item (ClimateData.bk sigma) [S k] - item (ClimateData.bk sigma) [k])
                        * item ps c)
                     * item wat (c ++ [k])) K) /\
    (forall c, in_bounds (L ++ [n; m]) c = true ->
       item dry_in c =
       item ps_in c -
       Torch.rsum (fun k =>
                     ((item (ClimateData.ak sigma) [S k] - item (ClimateData.ak sigma) [k])
                      + (item (ClimateData.bk sigma) [S k] - item (ClimateData.bk sigma) [k])
                        * item ps_in c)
                     * item wat_in (c ++ [k])) K) /\
    (forall c, in_bounds (L ++ [n; m]) c = true ->
       item dry' c =
       item ps' c -
       Torch.rsum (fun k =>
                     ((item (ClimateData.ak sigma) [S k] - item (ClimateData.ak sigma) [k])
                      + (item (ClimateData.bk sigma) [S k] - item (ClimateData.bk sigma) [k])
                        * item ps' c)
                     * item wat (c ++ [k])) K) /\
    (forall l, in_bounds L l = true ->
       item mg l =
       Torch.rsum2 (fun i j => item gda (l ++ [i; j]) * item area [i; j]) n m
       / Torch.rsum2 (fun i j => item area [i; j]) n m) /\
    (forall l, in_bounds L l = true ->
       item mi l =
       Torch.rsum2 (fun i j => item dry_in (l ++ [i; j]) * item area [i; j]) n m
       / Torch.rsum2 (fun i j => item area [i; j]) n m) /\
    (forall l, in_bounds L l = true ->
       item m' l =
       Torch.rsum2 (fun i j => item dry' (l ++ [i; j]) * item area [i; j]) n m
       / Torch.rsum2 (fun i j => item area [i; j]) n m) /\
    Dict.keys gen' = Dict.keys gen /\
    (forall k, k <> "PRESsfc" -> k <> "PS" -> Dict.lookup k gen' = Dict.lookup k gen).
Proof.
  intros Hwi Hpi Hw Hp Swi Spi Sw Sp Sarea Sak Sbk.
  set (F := L ++ [n; m]) in *.
  destruct (_get_Ok_inv gen "surface_pressure" _ ps eq_refl Hp) as (aps & Raps & Iaps & Laps).
  assert (Faps : ClimateData.startswith aps "specific_total_water_" = false)
    by (destruct Iaps as [<-|[<-|[]]]; reflexivity).
  assert (Baps : Dict.lookup aps gen <> None) by congruence.
  destruct (dry_air_at gen sigma wat ps F K Hw Hp Sw Sp Sak Sbk) as (gda & Hgda & Sgda & Igda).
  destruct (dry_air_at input sigma wat_in ps_in F K Hwi Hpi Swi Spi Sak Sbk)
    as (ida & Hida & Sida & Iida).
  destruct (@weighted_mean_at gda area L n m Sgda Sarea) as (mg & Hmg & Smg & Img).
  destruct (@weighted_mean_at ida area L n m Sida Sarea) as (mi & Hmi & Smi & Imi).
  destruct (binop_same_at Rminus mg mi L Smg Smi) as (err & Herr & Serr & Ierr).
  destruct (@binop_none2_at Rminus gda err L n m Sgda Serr) as (ngda & Hngda & Sngda & Ingda).
  destruct (level_sum_at (ClimateData.ak sigma) wat F K Sak Sw)
    as (akd & akw & Hakd & Hakw & Sakw & Iakw).
  destruct (level_sum_at (ClimateData.bk sigma) wat F K Sbk Sw)
    as (bkd & bkw & Hbkd & Hbkw & Sbkw & Ibkw).
  destruct (binop_same_at Rplus ngda (Torch.sum_last akw) F Sngda Sakw)
    as (num & Hnum & Snum & Inum).
  set (den := tmap (fun x => 1 - x) (Torch.sum_last bkw)).
  assert (Sden : shape den = F) by exact Sbkw.
  destruct (binop_same_at Rdiv num den F Snum Sden) as (np & Hnp & Snp & Inp).
  destruct (_set_Ok gen "surface_pressure" _ aps np eq_refl Raps)
    as (Hset & Hget' & Hkeys & Hframe).
  set (gen' := Dict.setitem aps np gen) in *.
  assert (Hw' : ClimateData.specific_total_water (CD gen') = Ok wat).
  { unfold gen'; now rewrite (specific_total_water_setitem gen aps np Baps Faps). }
  destruct (dry_air_at gen' sigma wat np F K Hw' Hget' Sw Snp Sak Sbk)
    as (dry' & Hdry' & Sdry' & Idry').
  destruct (@weighted_mean_at dry' area L n m Sdry' Sarea) as (m' & Hm' & Sm' & Im').
  exists gen', gda, mg, ida, mi, np, dry', m'.
  split.
  { unfold Corrector._force_conserve_dry_air, Torch.sub, Torch.add, Torch.div.
    unfold ClimateData.set_surface_pressure.
    rewrite Hpi; cbn [bind Corrector.is_None].
    rewrite Hgda; cbn [bind]; rewrite Hmg; cbn [bind].
    rewrite Hida; cbn [bind]; rewrite Hmi; cbn [bind].
    rewrite Herr; cbn [bind]; rewrite Hngda; cbn [bind].
    rewrite Hw; cbn [bind]; rewrite Hakd; cbn [bind]; rewrite Hbkd; cbn [bind].
    rewrite Hakw; cbn [bind]; rewrite Hnum; cbn [bind].
    rewrite Hbkw; cbn [bind]; fold den; rewrite Hnp; cbn [bind].
    unfold ClimateData.surface_pressure in Hset; rewrite Hset; reflexivity. }
  split; [exact Hgda|]; split; [exact Hmg|]; split; [exact Hida|]; split; [exact Hmi|].
  split; [exact Hget'|]; split; [exact Hw'|].
  assert (Hps' : forall c, in_bounds F c = true ->
            item np c =
            (item gda c
             - item err (firstn (List.length L) c)
             + Torch.rsum (fun k => (item (ClimateData.ak sigma) [S k]
                                     - item (ClimateData.ak sigma) [k])
                                    * item wat (c ++ [k])) K)
            / (1 - Torch.rsum (fun k => (item (ClimateData.bk sigma) [S k]
                                         - item (ClimateData.bk sigma) [k])
                                        * item wat (c ++ [k])) K) /\
            item ngda c = item gda c - item err (firstn (List.length L) c)).
  { intros c Hc.
    destruct (in_bounds_app_inv L [n; m] c Hc) as (l & ij & -> & Hl & Hij).
    pose proof (in_bounds_length _ _ Hij) as Hlen.
    destruct ij as [|i [|j [|? ?]]]; try discriminate Hlen; clear Hlen.
    rewrite in_bounds_2 in Hij; apply andb_true_iff in Hij; destruct Hij as [Hi Hj].
    apply Nat.ltb_lt in Hi, Hj.
    rewrite <- (in_bounds_length _ _ Hl), firstn_app, Nat.sub_diag, firstn_all, app_nil_r.
    rewrite (Inp _ Hc), (Inum _ Hc), (Iakw _ Hc), (Ingda l i j Hl Hi Hj).
    unfold den; cbn [item tmap]; rewrite (Ibkw _ Hc); split; reflexivity. }
  split.
  { intros l i j Hl Hi Hj.
    assert (Hc : in_bounds F (l ++ [i; j]) = true) by (now apply in_bounds_field).
    destruct (Hps' _ Hc) as [-> _].
    rewrite <- (in_bounds_length _ _ Hl), firstn_app, Nat.sub_diag, firstn_all, app_nil_r.
    now rewrite (Ierr l Hl). }
  split; [exact Hdry'|]; split; [exact Hm'|]; split; [exact Sm'|].
  split; [exact Igda|]; split; [exact Iida|]; split; [exact Idry'|].
  split; [exact Img|]; split; [exact Imi|]; split; [exact Im'|].
  split; [exact Hkeys|].
  intros k Hk1 Hk2; apply Hframe.
    destruct Iaps as [<-|[<-|[]]]; congruence.
Qed.

(** The dry air of the specification is what the code computes for a
    column. *)
Lemma dry_air_formula (sigma : ClimateData.SigmaCoordinates) (K : nat)
    (ps wat : rtensor) (c : list nat) :
  Formula.dry_air sigma K ps wat c =
  item ps c -
  Torch.rsum (fun k =>
                ((item (ClimateData.ak sigma) [S k] - item (ClimateData.ak sigma) [k])
                 + (item (ClimateData.bk sigma) [S k] - item (ClimateData.bk sigma) [k])
                   * item ps c)
                * item wat (c ++ [k])) K.
Proof.
  unfold Formula.dry_air, Formula.total_water_path; field; apply GRAVITY_neq_0.
Qed.

(** The global mean of a field the code holds as a tensor. *)
Lemma global_mean_of_field (area f : rtensor) (L : list nat) (n m : nat) (l : list nat)
    (x : list nat -> R) :
  in_bounds L l = true ->
  (forall c, in_bounds (L ++ [n; m]) c = true -> item f c = x c) ->
  Torch.rsum2 (fun i j => item f (l ++ [i; j]) * item area [i; j]) n m
  / Torch.rsum2 (fun i j => item area [i; j]) n m
  = Formula.global_mean area n m (fun i j => x (l ++ [i; j])).
Proof.
  intros Hl Hf; rewrite global_mean_eq; f_equal.
  apply rsum2_ext; intros i j Hi Hj.
  now rewrite (Hf _ (@in_bounds_field L n m l i j Hl Hi Hj)).
Qed.

(** C1, as the code has it.  Take an input and a generated mapping in
    which surface pressure and the water levels resolve, as fields over the
    grid of the area weights with [K] levels, and sigma coordinates of
    length [K + 1].  Let the area weights not sum to zero and let
    [1 - sum_k (bk_diff_k * wat_k)] be non-zero in every column of the
    generated state.  Then stage 1 returns a mapping [gen'] with the same
    keys, in which only surface pressure is bound anew, to
    [(dry_air - error + sum_k (ak_diff_k * wat_k)) / (1 - sum_k (bk_diff_k * wat_k))]
    with [error] the difference of the global means of the dry air of the
    generated and of the input state; and the global mean of the dry air of
    [gen'] equals that of the input.  Dry air and global mean are the
    formulas of the specification, [ps - g * total_water_path] and
    [sum_ij (w_ij * x_ij) / sum_ij w_ij]; the functions of the code measure
    the same. *)
Theorem dry_air_conservation
    (input gen : dict) (area : rtensor) (sigma : ClimateData.SigmaCoordinates)
    (L : list nat) (n m K : nat) (wat_in ps_in wat ps : rtensor) :
  ClimateData.specific_total_water (CD input) = Ok wat_in ->
  ClimateData.surface_pressure (CD input) = Ok ps_in ->
  ClimateData.specific_total_water (CD gen) = Ok wat ->
  ClimateData.surface_pressure (CD gen) = Ok ps ->
  shape wat_in = (L ++ [n; m]) ++ [K] -> shape ps_in = L ++ [n; m] ->
  shape wat = (L ++ [n; m]) ++ [K] -> shape ps = L ++ [n; m] ->
  shape area = [n; m] ->
  shape (ClimateData.ak sigma) = [S K] -> shape (ClimateData.bk sigma) = [S K] ->
  Torch.rsum2 (fun i j => item area [i; j]) n m <> 0 ->
  (forall c, in_bounds (L ++ [n; m]) c = true ->
     1 - Torch.rsum (fun k => (item (ClimateData.bk sigma) [S k]
                               - item (ClimateData.bk sigma) [k])
                              * item wat (c ++ [k])) K <> 0) ->
  exists (gen' : dict) (ps' dry_in mi dry' m' : rtensor),
    Corrector._force_conserve_dry_air input gen area sigma = Ok gen' /\
    ClimateData.surface_pressure (CD gen') = Ok ps' /\
    ClimateData.specific_total_water (CD gen') = Ok wat /\
    (forall l i j, in_bounds L l = true -> (i < n)%nat -> (j < m)%nat ->
       item ps' (l ++ [i; j]) =
       (Formula.dry_air sigma K ps wat (l ++ [i; j])
        - (Formula.global_mean area n m
             (fun i' j' => Formula.dry_air sigma K ps wat (l ++ [i'; j']))
           - Formula.global_mean area n m
               (fun i' j' => Formula.dry_air sigma K ps_in wat_in (l ++ [i'; j'])))
        + Torch.rsum (fun k => (item (ClimateData.ak sigma) [S k]
                                - item (ClimateData.ak sigma) [k])
                               * item wat ((l ++ [i; j]) ++ [k])) K)
       / (1 - Torch.rsum (fun k => (item (ClimateData.bk sigma) [S k]
                                    - item (ClimateData.bk sigma) [k])
                                   * item wat ((l ++ [i; j]) ++ [k])) K)) /\
    (forall l, in_bounds L l = true ->
       Formula.global_mean area n m
         (fun i j => Formula.dry_air sigma K ps' wat (l ++ [i; j]))
       = Formula.global_mean area n m
           (fun i j => Formula.dry_air sigma K ps_in wat_in (l ++ [i; j]))) /\
    ClimateData.surface_pressure_due_to_dry_air (CD input) sigma = Ok dry_in /\
    Metrics.weighted_mean dry_in (Some area) = Ok mi /\
    ClimateData.surface_pressure_due_to_dry_air (CD gen') sigma = Ok dry' /\
    Metrics.weighted_mean dry' (Some area) = Ok m' /\
    shape m' = L /\
    (forall l, in_bounds L l = true -> item m' l = item mi l) /\
    Dict.keys gen' = Dict.keys gen /\
    (forall k, k <> "PRESsfc" -> k <> "PS" -> Dict.lookup k gen' = Dict.lookup k gen).
Proof.
  intros Hwi Hpi Hw Hp Swi Spi Sw Sp Sarea Sak Sbk HW Hden.
  destruct (dry_air_pipeline input gen area sigma L n m K wat_in ps_in wat ps
              Hwi Hpi Hw Hp Swi Spi Sw Sp Sarea Sak Sbk)
    as (gen' & gda & mg & ida & mi & np & dry' & m'
        & E1 & E2 & E3 & E4 & E5 & E6 & E7 & Inp & E8 & E9 & Sm'
        & Igda & Iida & Idry' & Img & Imi & Im' & Hkeys & Hframe).
  assert (Fgda : forall c, in_bounds (L ++ [n; m]) c = true ->
            item gda c = Formula.dry_air sigma K ps wat c)
    by (intros c Hc; rewrite dry_air_formula; now apply Igda).
  assert (Fida : forall c, in_bounds (L ++ [n; m]) c = true ->
            item ida c = Formula.dry_air sigma K ps_in wat_in c)
    by (intros c Hc; rewrite dry_air_formula; now apply Iida).
  assert (Fdry' : forall c, in_bounds (L ++ [n; m]) c = true ->
            item dry' c = Formula.dry_air sigma K np wat c)
    by (intros c Hc; rewrite dry_air_formula; now apply Idry').
  assert (Hmean : forall l, in_bounds L l = true -> item m' l = item mi l).
  { intros l Hl; rewrite (Im' l Hl).
    assert (Hcell : forall i j, (i < n)%nat -> (j < m)%nat ->
              item dry' (l ++ [i; j]) = item gda (l ++ [i; j]) - (item mg l - item mi l)).
    { intros i j Hi Hj.
      assert (Hc : in_bounds (L ++ [n; m]) (l ++ [i; j]) = true)
        by (now apply in_bounds_field).
      rewrite (Idry' _ Hc).
      pose proof (Inp l i j Hl Hi Hj) as Hnp'.
      specialize (Hden _ Hc).
      set (A := Torch.rsum (fun k => (item (ClimateData.ak sigma) [S k]
                                      - item (ClimateData.ak sigma) [k])
                                     * item wat ((l ++ [i; j]) ++ [k])) K) in *.
      set (B := Torch.rsum (fun k => (item (ClimateData.bk sigma) [S k]
                                      - item (ClimateData.bk sigma) [k])
                                     * item wat ((l ++ [i; j]) ++ [k])) K) in *.
      rewrite (@rsum_ext _ (fun k => (item (ClimateData.ak sigma) [S k]
                                      - item (ClimateData.ak sigma) [k])
                                     * item wat ((l ++ [i; j]) ++ [k])
                                     + item np (l ++ [i; j])
                                       * ((item (ClimateData.bk sigma) [S k]
                                           - item (ClimateData.bk sigma) [k])
                                          * item wat ((l ++ [i; j]) ++ [k]))) K)
        by (intros; ring).
      rewrite rsum_plus, rsum_scal_l; fold A B.
      rewrite Hnp'; field; exact Hden. }
    rewrite (@rsum2_ext _ (fun i j => item gda (l ++ [i; j]) * item area [i; j]
                                      - (item mg l - item mi l) * item area [i; j]) n m).
    2:{ intros i j Hi Hj; rewrite (Hcell i j Hi Hj); ring. }
    rewrite rsum2_minus, rsum2_scal_l, (Img l Hl).
    field; exact HW. }
  exists gen', np, ida, mi, dry', m'.
  split; [exact E1|split; [exact E6|split; [exact E7|]]].
  split.
  { intros l i j Hl Hi Hj; rewrite (Inp l i j Hl Hi Hj).
    rewrite (Fgda _ (@in_bounds_field L n m l i j Hl Hi Hj)).
    rewrite (Img l Hl), (Imi l Hl).
    rewrite (@global_mean_of_field area gda L n m l _ Hl Fgda).
    rewrite (@global_mean_of_field area ida L n m l _ Hl Fida).
    reflexivity. }
  split.
  { intros l Hl.
    rewrite <- (@global_mean_of_field area dry' L n m l _ Hl Fdry').
    rewrite <- (@global_mean_of_field area ida L n m l _ Hl Fida).
    rewrite <- (Im' l Hl), <- (Imi l Hl); now apply Hmean. }
  split; [exact E4|split; [exact E5|split; [exact E8|split; [exact E9|]]]].
  split; [exact Sm'|split; [exact Hmean|split; [exact Hkeys|exact Hframe]]].
Qed.

End DryAir.

(** *** Stage 3 on one cell *)

Section MoistureBudgetExamples.
Local Open Scope R_scope.

Lemma moisture_budget_closure_witness :
  exists gen' precip' adv',
    Corrector._force_conserve_moisture 21600 2501000 budget_in budget_gen unit_area one_level
      "advection_and_precipitation" = Ok gen' /\
    ClimateData.precipitation_rate (ClimateData.__init__ gen') = Ok precip' /\
    ClimateData.tendency_of_total_water_path_due_to_advection (ClimateData.__init__ gen')
      = Ok adv' /\
    item precip' [0; 0]%nat = 1 * ((3 - budget_tendency) / 2) /\
    item precip' [0; 1]%nat = 3 * ((3 - budget_tendency) / 2) /\
    item adv' [0; 0]%nat = budget_tendency - (2 - 1 * ((3 - budget_tendency) / 2)) /\
    item adv' [0; 1]%nat = budget_tendency - (4 - 3 * ((3 - budget_tendency) / 2)) /\
    Formula.global_mean unit_area 1 2 (fun i j => item precip' [i; j])
      = 3 - budget_tendency.
Proof.
  assert (Hg : Metrics.GRAVITY <> 0) by apply GRAVITY_neq_0.
  edestruct (moisture_budget_closure 21600 2501000 budget_in budget_gen unit_area one_level
               [] 1%nat 2%nat 1%nat)
    as (gen' & precip' & adv' & tg & ev
        & E1 & E2 & E3 & _ & _ & _ & _ & _ & Hscale & Hadv & Hglobal).
  1-2: lra.
  1-16: reflexivity.
  - unfold Torch.rsum2, Torch.rsum; simpl; lra.
  - intros l Hl; destruct l; [|discriminate Hl].
    unfold Formula.global_mean, Torch.rsum2, Torch.rsum; simpl.
    intros H; field_simplify in H; lra.
  - pose proof (Hscale [] 0%nat 0%nat eq_refl ltac:(lia) ltac:(lia)) as P0.
    pose proof (Hscale [] 0%nat 1%nat eq_refl ltac:(lia) ltac:(lia)) as P1.
    pose proof (Hadv [0; 0]%nat eq_refl) as A0.
    pose proof (Hadv [0; 1]%nat eq_refl) as A1.
    pose proof (Hglobal [] eq_refl) as G.
    cbn [app] in P0, P1, G.
    assert (Q0 : item precip' [0; 0]%nat = 1 * ((3 - budget_tendency) / 2)).
    { rewrite P0.
      unfold budget_tendency, Formula.global_mean, Formula.total_water_path,
        Torch.rsum2, Torch.rsum; simpl; field; exact Hg. }
    assert (Q1 : item precip' [0; 1]%nat = 3 * ((3 - budget_tendency) / 2)).
    { rewrite P1.
      unfold budget_tendency, Formula.global_mean, Formula.total_water_path,
        Torch.rsum2, Torch.rsum; simpl; field; exact Hg. }
    exists gen', precip', adv'.
    split; [exact E1|split; [exact E2|split; [exact E3|]]].
    split; [exact Q0|split; [exact Q1|]].
    split; [|split].
    + rewrite A0, Q0.
      unfold budget_tendency, Formula.total_water_path, Torch.rsum; simpl; field; exact Hg.
    + rewrite A1, Q1.
      unfold budget_tendency, Formula.total_water_path, Torch.rsum; simpl; field; exact Hg.
    + unfold Formula.global_mean at 1, Torch.rsum2, Torch.rsum; simpl.
      rewrite Q0, Q1; field.
Defined.

(** C2 as stated fails where there is no precipitation to scale: the
    global-mean precipitation is zero and stays zero, so with evaporation 1
    and an unchanged water path the budget of the global means does not
    close. *)
Lemma moisture_budget_no_precipitation_counterexample :
  exists gen' twp_gen twp_in twp_diff evap precip' m_twp m_evap m_precip',
    Corrector._force_conserve_moisture 21600 2501000 dry_state dry_state (cell 1) one_level
      "advection_and_precipitation" = Ok gen' /\
    ClimateData.total_water_path (ClimateData.__init__ gen') one_level = Ok twp_gen /\
    ClimateData.total_water_path (ClimateData.__init__ dry_state) one_level = Ok twp_in /\
    Torch.sub twp_gen twp_in = Ok twp_diff /\
    ClimateData.evaporation_rate 2501000 (ClimateData.__init__ gen') = Ok evap /\
    ClimateData.precipitation_rate (ClimateData.__init__ gen') = Ok precip' /\
    Metrics.weighted_mean (tmap (fun x => x / 21600) twp_diff) (Some (cell 1)) = Ok m_twp /\
    Metrics.weighted_mean evap (Some (cell 1)) = Ok m_evap /\
    Metrics.weighted_mean precip' (Some (cell 1)) = Ok m_precip' /\
    item m_twp [] <> item m_evap [] - item m_precip' [].
Proof.
  edestruct (moisture_budget_pipeline 21600 2501000 dry_state dry_state (cell 1) one_level
               [] 1%nat 1%nat 1%nat)
    as (gen' & tg & ti & td & ev & new & nadv & mt & me & mp & mp'
        & E1 & E2 & E3 & E4 & E5 & E6 & E7 & E8 & E9 & E10 & E11 & Sadv
        & Hscale & Hadv' & Htg & Hev & Itd & Imt & Ime & Imp & Imp').
  1-16: reflexivity.
  exists gen', tg, ti, td, ev, new, mt, me, mp'.
  repeat (split; [assumption|]).
  rewrite (Imt [] eq_refl), (Ime [] eq_refl), (Imp' [] eq_refl).
  unfold Torch.rsum2, Torch.rsum; cbn [app].
  rewrite (Itd [0%nat; 0%nat] eq_refl).
  pose proof (Hscale [] 0%nat 0%nat eq_refl ltac:(lia) ltac:(lia)) as Hnew.
  cbn [app] in Hnew; rewrite Hnew.
  rewrite E3 in Htg; injection Htg as ->.
  rewrite Hev; cbn [item tmap cell].
  lra.
Qed.

End MoistureBudgetExamples.

(** *** Stage 1 on two columns *)

Section DryAirExamples.
Local Open Scope R_scope.

Lemma dry_air_conservation_witness :
  exists gen' ps' wat,
    Corrector._force_conserve_dry_air col_in col_gen_off unit_area one_level = Ok gen' /\
    ClimateData.surface_pressure (ClimateData.__init__ gen') = Ok ps' /\
    ClimateData.specific_total_water (ClimateData.__init__ gen') = Ok wat /\
    Formula.global_mean unit_area 1 2
      (fun i j => Formula.dry_air one_level 1 (grid_1x2 1000 1020) wat [i; j]) = 1005 /\
    item ps' [0; 0]%nat = 985 / (1 - 1 / 100) /\
    item ps' [0; 1]%nat = 1015 /\
    Formula.global_mean unit_area 1 2
      (fun i j => Formula.dry_air one_level 1 ps' wat [i; j]) = 1000.
Proof.
  edestruct (dry_air_conservation col_in col_gen_off unit_area one_level
               [] 1%nat 2%nat 1%nat)
    as (gen' & ps' & ida & mi & dry' & m'
        & E1 & E2 & E3 & Hps & Hmean & _).
  1-11: reflexivity.
  - unfold Torch.rsum2, Torch.rsum; simpl; lra.
  - intros c Hc.
    pose proof (in_bounds_length _ _ Hc) as Hlen.
    destruct c as [|i [|j [|? ?]]]; try discriminate Hlen; clear Hlen.
    destruct i as [|i]; [|simpl in Hc; discriminate].
    destruct j as [|[|j]]; [| |simpl in Hc; discriminate];
      unfold Torch.rsum; simpl; lra.
  - eexists gen', ps', _.
    split; [exact E1|split; [exact E2|split; [exact E3|]]].
    split.
    { unfold Formula.global_mean, Formula.dry_air, Formula.total_water_path,
        Torch.rsum2, Torch.rsum, Metrics.GRAVITY; simpl; field. }
    pose proof (Hps [] 0%nat 0%nat eq_refl ltac:(lia) ltac:(lia)) as H0.
    pose proof (Hps [] 0%nat 1%nat eq_refl ltac:(lia) ltac:(lia)) as H1.
    cbn [app] in H0, H1.
    split; [|split].
    + rewrite H0.
      unfold Formula.global_mean, Formula.dry_air, Formula.total_water_path,
        Torch.rsum2, Torch.rsum, Metrics.GRAVITY; simpl; field.
    + rewrite H1.
      unfold Formula.global_mean, Formula.dry_air, Formula.total_water_path,
        Torch.rsum2, Torch.rsum, Metrics.GRAVITY; simpl; field.
    + etransitivity; [exact (Hmean [] eq_refl)|].
      unfold Formula.global_mean, Formula.dry_air, Formula.total_water_path,
        Torch.rsum2, Torch.rsum, Metrics.GRAVITY; simpl; field.
Defined.

(** C1 as stated fails where a column of the generated state makes
    [1 - sum_k (bk_diff_k * wat_k)] vanish: its dry air is zero whatever its
    surface pressure, so no surface pressure gives it the corrected dry air,
    and the global mean of dry air after the stage (752.5 here) differs from
    that of the input (1000). *)
Lemma dry_air_saturated_column_counterexample :
  exists gen' dry' m' dry_in mi,
    Corrector._force_conserve_dry_air col_in col_gen unit_area one_level = Ok gen' /\
    ClimateData.surface_pressure_due_to_dry_air (ClimateData.__init__ gen') one_level
      = Ok dry' /\
    Metrics.weighted_mean dry' (Some unit_area) = Ok m' /\
    ClimateData.surface_pressure_due_to_dry_air (ClimateData.__init__ col_in) one_level
      = Ok dry_in /\
    Metrics.weighted_mean dry_in (Some unit_area) = Ok mi /\
    item m' [] <> item mi [].
Proof.
  edestruct (dry_air_pipeline col_in col_gen unit_area one_level [] 1%nat 2%nat 1%nat)
    as (gen' & gda & mg & ida & mi & np & dry' & m'
        & E1 & E2 & E3 & E4 & E5 & E6 & E7 & Inp & E8 & E9 & Sm'
        & Igda & Iida & Idry' & Img & Imi & Im' & Hkeys & Hframe).
  1-11: reflexivity.
  exists gen', dry', m', ida, mi.
  repeat (split; [assumption|]).
  rewrite (Im' [] eq_refl), (Imi [] eq_refl).
  unfold Torch.rsum2, Torch.rsum; cbn [app].
  rewrite (Idry' [0; 0]%nat eq_refl), (Idry' [0; 1]%nat eq_refl).
  rewrite (Iida [0; 0]%nat eq_refl), (Iida [0; 1]%nat eq_refl).
  pose proof (Inp [] 0%nat 1%nat eq_refl ltac:(lia) ltac:(lia)) as Hnp.
  cbn [app] in Hnp; rewrite Hnp, (Img [] eq_refl).
  unfold Torch.rsum2, Torch.rsum; cbn [app].
  rewrite (Igda [0; 0]%nat eq_refl), (Igda [0; 1]%nat eq_refl).
  rewrite (Imi [] eq_refl).
  unfold Torch.rsum2, Torch.rsum; cbn [app].
  rewrite (Iida [0; 0]%nat eq_refl), (Iida [0; 1]%nat eq_refl).
  unfold Torch.rsum; simpl; lra.
Qed.

End DryAirExamples.
(* ================================================================== *)
(** * Further properties of the code *)


(** ** The packer: what [pack] and [unpack] accept, and the round trip
    from a packed tensor *)

Section PackerMore.
Variable T : Type.
Local Abbreviation tensor := (Tensor.tensor T).
Local Abbreviation dict := (Dict.dict tensor).

Lemma insert_remove_at (A : Type) (a : nat) (d : A) (l : list A) :
  a < List.length l -> insert_at a (nth a l d) (remove_at a l) = l.
Proof.
  intros H; unfold insert_at, remove_at.
  assert (Hl : List.length (firstn a l) = a) by (rewrite length_firstn; lia).
  rewrite firstn_app, skipn_app, Hl, Nat.sub_diag.
  rewrite (firstn_all2 (n := a) (firstn a l)) by lia.
  rewrite (skipn_all2 (n := a) (firstn a l)) by lia.
  rewrite firstn_O, skipn_O, !app_nil_r.
  rewrite <- (firstn_skipn a l) at 4.
  f_equal.
  rewrite <- (firstn_skipn a l) at 1.
  rewrite app_nth2 by lia; rewrite Hl, Nat.sub_diag.
  destruct (skipn a l) as [|x r] eqn:E.
  - exfalso; apply (f_equal (@List.length A)) in E.
    rewrite length_skipn in E; simpl in E; lia.
  - cbn [nth]; f_equal.
    change (S a) with (1 + a); rewrite <- skipn_skipn, E; reflexivity.
Qed.

Lemma remove_at_length (A : Type) (a : nat) (l : list A) :
  a < List.length l -> List.length (remove_at a l) = List.length l - 1.
Proof.
  intros H; unfold remove_at.
  rewrite length_app, length_firstn, length_skipn; lia.
Qed.

(** What a successful [select] returns. *)
Lemma select_inv (t u : tensor) (dim index : Z) :
  select t dim index = Ok u ->
  exists a i, wrap_index (rank t) dim = Some a /\
              wrap_index (nth a (shape t) 0) index = Some i /\
              shape u = remove_at a (shape t) /\
              forall idx, item u idx = item t (insert_at a i idx).
Proof.
  unfold select; destruct (wrap_index (rank t) dim) as [a|] eqn:Ea; [|discriminate].
  destruct (wrap_index (nth a (shape t) 0) index) as [i|] eqn:Ei; [|discriminate].
  intros H; inversion H; subst u; exists a, i.
  split; [reflexivity|split; [exact Ei|split; reflexivity]].
Qed.

(** The comprehension of [_unpack], read backwards. *)
Lemma _unpack_inv (t : tensor) (names : list string) (axis : Z) (d : dict) :
  Packer._unpack t names axis = Ok d ->
  exists items,
    d = Dict.of_items items /\
    map fst items = names /\
    forall j, j < List.length names ->
      exists u, select t axis (Z.of_nat j) = Ok u /\
                forall di, nth j items di = (nth j names "", u).
Proof.
  unfold Packer._unpack, enumerate.
  intros H; apply scripted_Ok_inv in H; revert H.
  match goal with |- bind (mapM ?f0 _) _ = _ -> _ => set (f := f0) end.
  destruct (mapM f (enumerate_from 0 names)) as [items|e] eqn:Hitems; simpl; [|discriminate].
  intros H; inversion H; subst d; clear H.
  exists items; split; [reflexivity|].
  pose proof (mapM_length _ _ Hitems) as Hlen; rewrite enumerate_from_length in Hlen.
  assert (Hnth : forall j, j < List.length names ->
            exists u, select t axis (Z.of_nat j) = Ok u /\
                      forall di, nth j items di = (nth j names "", u)).
  { intros j Hj.
    destruct (select t axis (Z.of_nat j)) as [u|e] eqn:Es.
    - exists u; split; [reflexivity|]; intros di.
      pose proof (@mapM_nth _ _ f (enumerate_from 0 names) items (0, "") di j Hitems) as Hn.
      rewrite enumerate_from_length in Hn; specialize (Hn Hj).
      rewrite enumerate_from_nth in Hn by assumption.
      cbn in Hn; rewrite Es in Hn; cbn in Hn; now inversion Hn.
    - exfalso.
      pose proof (@mapM_nth _ _ f (enumerate_from 0 names) items (0, "") (EmptyString, t) j
                    Hitems) as Hn.
      rewrite enumerate_from_length in Hn; specialize (Hn Hj).
      rewrite enumerate_from_nth in Hn by assumption.
      cbn in Hn; rewrite Es in Hn; discriminate. }
  split; [|exact Hnth].
  apply nth_ext with (d := "") (d' := "").
  - now rewrite length_map.
  - intros j Hj; rewrite length_map, Hlen in Hj.
    destruct (Hnth j Hj) as (u & _ & Hu).
    change "" with (fst (EmptyString, t)) at 1; rewrite map_nth, Hu; reflexivity.
Qed.

(** The binding of a key in [dict(items)] is the value of its last item. *)
Lemma lookup_of_items_last (V : Type) (items : list (string * V)) (j : nat)
    (k : string) (v : V) :
  j < List.length items ->
  (forall di, nth j items di = (k, v)) ->
  (forall j', j < j' -> j' < List.length items -> fst (nth j' items (k, v)) <> k) ->
  Dict.lookup k (Dict.of_items items) = Some v.
Proof.
  intros Hj Hjv Hlast.
  unfold Dict.of_items; rewrite lookup_fold_setitem; cbn [Dict.lookup].
  rewrite <- (firstn_skipn (S j) items), rev_app_distr, lookup_app.
  assert (Hnone : Dict.lookup k (rev (skipn (S j) items)) = None).
  { apply lookup_None_keys; unfold Dict.keys; rewrite map_rev, <- in_rev.
    intros Hin; apply in_map_iff in Hin; destruct Hin as ([k' v'] & Hk' & Hin).
    cbn in Hk'; subst k'.
    destruct (In_nth _ _ (k, v) Hin) as (i & Hi & Hn).
    rewrite length_skipn in Hi; rewrite nth_skipn in Hn.
    apply (Hlast (S j + i)); [lia|lia|now rewrite Hn]. }
  rewrite Hnone.
  assert (Hfirst : firstn (S j) items = firstn j items ++ [(k, v)]).
  { rewrite <- (firstn_skipn j items) at 1.
    assert (Hl : List.length (firstn j items) = j) by (rewrite length_firstn; lia).
    rewrite firstn_app, Hl, (firstn_all2 (n := S j) (firstn j items)) by lia.
    replace (S j - j) with 1 by lia; f_equal.
    destruct (skipn j items) as [|x r] eqn:E.
    - exfalso; apply (f_equal (@List.length _)) in E.
      rewrite length_skipn in E; simpl in E; lia.
    - cbn; f_equal.
      rewrite <- (Hjv x), <- (firstn_skipn j items) at 1.
      rewrite app_nth2, Hl, Nat.sub_diag, E by lia; reflexivity. }
  rewrite Hfirst, rev_app_distr; cbn.
  now rewrite String.eqb_refl.
Qed.

(** What [unpack] binds to a declared name: the slice of the last position
    at which the name is declared. *)
Lemma unpack_lookup_last (p : Packer.Packer) (t : tensor) (axis : Z)
    (td : Packer.TensorDict T) (j : nat) :
  Packer.unpack p t (Some axis) = Ok td ->
  j < List.length (Packer.names p) ->
  (forall j', j < j' -> j' < List.length (Packer.names p) ->
     nth j' (Packer.names p) "" <> nth j (Packer.names p) "") ->
  exists u, select t axis (Z.of_nat j) = Ok u /\
            Dict.lookup (nth j (Packer.names p) "") (Packer.td_items td) = Some u.
Proof.
  unfold Packer.unpack; intros H Hj Hlast.
  destruct (Packer.pop_shape (shape t) axis) as [ps|e]; cbn [bind] in H; [|discriminate].
  destruct (Packer._unpack t (Packer.names p) axis) as [d|e] eqn:Hu; cbn [bind] in H;
    [|discriminate].
  inversion H; subst td; clear H; cbn [Packer.td_items].
  destruct (_unpack_inv _ _ _ _ Hu) as (items & -> & Hfst & Hnth).
  destruct (Hnth j Hj) as (u & Hsel & Hju).
  exists u; split; [exact Hsel|].
  assert (Hlen : List.length items = List.length (Packer.names p))
    by (now rewrite <- Hfst, length_map).
  apply lookup_of_items_last with (j := j); [lia|exact Hju|].
  intros j' Hlt Hj'; rewrite Hlen in Hj'.
  destruct (Hnth j' Hj') as (u' & _ & Hu'); rewrite Hu'; cbn.
  now apply Hlast.
Qed.

(** Slices exist up to the length of the axis. *)
Lemma select_of_nat_Ok (t u : tensor) (axis : Z) (a j : nat) :
  wrap_index (rank t) axis = Some a ->
  select t axis (Z.of_nat j) = Ok u ->
  j < nth a (shape t) 0.
Proof.
  intros Ha H; destruct (select_inv _ _ _ _ H) as (a' & i & Ha' & Hi & _).
  rewrite Ha in Ha'; injection Ha' as <-.
  apply wrap_index_nonneg in Hi; [|lia].
  destruct Hi as [-> Hi]; now rewrite Nat2Z.id in Hi.
Qed.

(** X1.  [unpack] returns exactly when the axis exists and is at least as long
    as the name list.  It does not ask for more: slices beyond the last
    declared name are dropped, and a name declared twice is bound to the
    slice of its last position. *)
Theorem unpack_takes_leading_slices (p : Packer.Packer) (t : tensor) (axis : Z) :
  match Packer.unpack p t (Some axis) with
  | Ok td =>
      exists a, wrap_index (rank t) axis = Some a /\
        List.length (Packer.names p) <= nth a (shape t) 0 /\
        Packer.batch_size td = remove_at a (shape t) /\
        (forall k, In k (Packer.names p) <-> Dict.lookup k (Packer.td_items td) <> None) /\
        (forall j, j < List.length (Packer.names p) ->
           (forall j', j < j' -> j' < List.length (Packer.names p) ->
              nth j' (Packer.names p) "" <> nth j (Packer.names p) "") ->
           exists u, select t axis (Z.of_nat j) = Ok u /\
                     shape u = remove_at a (shape t) /\
                     (forall idx, item u idx = item t (insert_at a j idx)) /\
                     Dict.lookup (nth j (Packer.names p) "") (Packer.td_items td) = Some u)
  | Raise _ =>
      wrap_index (rank t) axis = None \/
      exists a, wrap_index (rank t) axis = Some a /\
                nth a (shape t) 0 < List.length (Packer.names p)
  end.
Proof.
  destruct (Packer.unpack p t (Some axis)) as [td|e] eqn:Hun.
  - pose proof Hun as Hkeys; apply unpack_keys in Hkeys; destruct Hkeys as [_ Hkeys].
    pose proof Hun as H; unfold Packer.unpack, Packer.pop_shape in H.
    change (List.length (shape t)) with (rank t) in H.
    destruct (wrap_index (rank t) axis) as [a|] eqn:Ha; cbn [bind] in H; [|discriminate].
    destruct (Packer._unpack t (Packer.names p) axis) as [d|e] eqn:Hu; cbn [bind] in H;
      [|discriminate].
    injection H as <-; cbn [Packer.batch_size Packer.td_items] in *.
    destruct (_unpack_inv _ _ _ _ Hu) as (items & _ & _ & Hnth).
    exists a; split; [reflexivity|]; split; [|split; [reflexivity|split; [exact Hkeys|]]].
    + destruct (List.length (Packer.names p)) as [|n] eqn:En; [lia|].
      destruct (Hnth n) as (u & Hsel & _); [lia|].
      pose proof (select_of_nat_Ok _ _ _ _ _ Ha Hsel); lia.
    + intros j Hj Hlast.
      destruct (unpack_lookup_last p t axis _ j Hun Hj Hlast) as (u & Hsel & Hlook).
      exists u; split; [exact Hsel|].
      destruct (select_inv _ _ _ _ Hsel) as (a' & i & Ha' & Hi & Hsh & Hitem).
      rewrite Ha in Ha'; injection Ha' as <-.
      apply wrap_index_nonneg in Hi; [|lia].
      destruct Hi as [-> _]; rewrite Nat2Z.id in Hitem.
      split; [exact Hsh|split; [exact Hitem|exact Hlook]].
  - destruct (wrap_index (rank t) axis) as [a|] eqn:Ha; [right|now left].
    exists a; split; [reflexivity|].
    destruct (Nat.lt_ge_cases (nth a (shape t) 0) (List.length (Packer.names p)))
      as [Hlt|Hge]; [exact Hlt|exfalso].
    destruct (@unpack_returns T p t axis a Ha Hge) as (td & Htd & _).
    rewrite Htd in Hun; discriminate.
Qed.

(** X2.  [unpack_simple] returns the mapping [unpack] returns, whenever [unpack]
    returns.  It is more lenient when no name is declared: it returns the
    empty mapping for any axis, where [unpack] raises [IndexError] from
    [packed_shape.pop(axis)] on an axis the tensor does not have. *)
Theorem unpack_simple_agrees_with_unpack (p : Packer.Packer) (t : tensor) (axis : Z) :
  (forall td, Packer.unpack p t (Some axis) = Ok td ->
              Packer.unpack_simple p t (Some axis) = Ok (Packer.td_items td)) /\
  (forall d, Packer.unpack_simple p t (Some axis) = Ok d ->
             wrap_index (rank t) axis <> None ->
             exists td, Packer.unpack p t (Some axis) = Ok td /\ Packer.td_items td = d) /\
  (Packer.names p = [] ->
   Packer.unpack_simple p t (Some axis) = Ok [] /\
   (wrap_index (rank t) axis = None ->
    exists msg, Packer.unpack p t (Some axis) = Raise (IndexError msg))).
Proof.
  unfold Packer.unpack, Packer.unpack_simple, Packer.pop_shape.
  change (List.length (shape t)) with (rank t).
  split; [|split].
  - intros td H.
    destruct (wrap_index (rank t) axis); cbn [bind] in H; [|discriminate].
    destruct (Packer._unpack t (Packer.names p) axis); cbn [bind] in H; [|discriminate].
    now injection H as <-.
  - intros d Hd Hax.
    destruct (wrap_index (rank t) axis); [|congruence].
    rewrite Hd; cbn [bind]; eexists; split; reflexivity.
  - intros ->; split; [reflexivity|].
    intros ->; eexists; reflexivity.
Qed.

(** X3.  [pack] returns exactly when at least one name is declared, every
    declared name is bound, the bound tensors have one shape, and the axis
    is valid for a tensor of one more dimension.  The packed tensor has the
    new axis, as long as the name list, at that position. *)
Theorem pack_returns_exactly_when (p : Packer.Packer) (d : dict) (axis : Z) :
  (forall t, Packer.pack p d (Some axis) = Ok t ->
     exists sh a,
       Packer.names p <> [] /\
       (forall k, In k (Packer.names p) ->
          exists u, Dict.lookup k d = Some u /\ shape u = sh) /\
       wrap_index (S (List.length sh)) axis = Some a /\
       shape t = insert_at a (List.length (Packer.names p)) sh) /\
  (forall sh a,
     Packer.names p <> [] ->
     (forall k, In k (Packer.names p) ->
        exists u, Dict.lookup k d = Some u /\ shape u = sh) ->
     wrap_index (S (List.length sh)) axis = Some a ->
     exists t, Packer.pack p d (Some axis) = Ok t).
Proof.
  split.
  - intros t H; unfold Packer.pack, Packer._pack in H; apply scripted_Ok_inv in H.
    destruct (mapM (fun n => Dict.getitem n d) (Packer.names p)) as [ts|e] eqn:Hts;
      cbn [bind] in H; [|discriminate].
    destruct (stack_inv _ _ H) as (t0 & a & Hhd & Ha & Hsh & Hshape).
    pose proof (mapM_length _ _ Hts) as Hlen.
    exists (shape t0), a; split; [|split; [|split; [exact Ha|now rewrite Hshape, Hlen]]].
    + intros Hnil; rewrite Hnil in Hlen; destruct ts; [discriminate Hhd|discriminate Hlen].
    + intros k Hk; destruct (In_nth _ _ "" Hk) as (j & Hj & Hjk).
      pose proof (@mapM_nth _ _ (fun n => Dict.getitem n d) (Packer.names p) ts "" t0 j
                    Hts Hj) as Hn.
      rewrite Hjk in Hn; apply getitem_Ok in Hn.
      exists (nth j ts t0); split; [exact Hn|].
      apply Hsh, nth_In; lia.
  - intros sh a Hne Hd Ha.
    destruct (@pack_returns T p d sh axis a Hne Hd Ha) as (t & Ht & _); eauto.
Qed.

(** X4.  [pack] reads the declared names only: two mappings that agree on them
    are packed alike, whatever else they hold. *)
Theorem pack_reads_declared_names_only (p : Packer.Packer) (d d' : dict) (axis : option Z) :
  (forall k, In k (Packer.names p) -> Dict.lookup k d = Dict.lookup k d') ->
  Packer.pack p d axis = Packer.pack p d' axis.
Proof.
  intros H; unfold Packer.pack, Packer._pack.
  replace (mapM (fun n => Dict.getitem n d') (Packer.names p))
    with (mapM (fun n => Dict.getitem n d) (Packer.names p)); [reflexivity|].
  induction (Packer.names p) as [|n ns IH]; [reflexivity|].
  cbn [mapM]; unfold Dict.getitem at 1 3.
  rewrite (H n (or_introl eq_refl)), IH; [reflexivity|].
  intros k Hk; apply H; now right.
Qed.

(** X5.  The round trip from a packed tensor: for distinct names and a tensor
    whose axis is as long as the name list, [unpack] followed by [pack]
    along the same axis gives the tensor back. *)
Theorem pack_after_unpack (p : Packer.Packer) (t : tensor) (axis : Z) (a : nat) :
  NoDup (Packer.names p) ->
  Packer.names p <> [] ->
  wrap_index (rank t) axis = Some a ->
  nth a (shape t) 0 = List.length (Packer.names p) ->
  exists td packed,
    Packer.unpack p t (Some axis) = Ok td /\
    Packer.pack p (Packer.td_items td) (Some axis) = Ok packed /\
    teq packed t.
Proof.
  intros Hnd Hne Ha Hlen.
  pose proof (wrap_index_lt _ _ Ha) as Halt; unfold rank in Halt.
  destruct (@unpack_returns T p t axis a Ha) as (td & Htd & Hfields); [lia|].
  exists td.
  assert (Hslice : forall j, j < List.length (Packer.names p) ->
            exists u, Dict.lookup (nth j (Packer.names p) "") (Packer.td_items td) = Some u /\
                      shape u = remove_at a (shape t) /\
                      forall idx, item u idx = item t (insert_at a j idx)).
  { intros j Hj.
    destruct (unpack_lookup_last p t axis td j Htd Hj) as (u & Hsel & Hlook).
    - intros j' Hlt Hj' Heq.
      apply (proj1 (NoDup_nth (Packer.names p) "") Hnd) in Heq; lia.
    - exists u; split; [exact Hlook|].
      destruct (select_inv _ _ _ _ Hsel) as (a' & i & Ha' & Hi & Hsh & Hitem).
      rewrite Ha in Ha'; injection Ha' as <-.
      apply wrap_index_nonneg in Hi; [|lia].
      destruct Hi as [-> _]; rewrite Nat2Z.id in Hitem; auto. }
  assert (Ha' : wrap_index (S (List.length (remove_at a (shape t)))) axis = Some a).
  { rewrite remove_at_length by exact Halt.
    replace (S (List.length (shape t) - 1)) with (rank t) by (unfold rank; lia).
    exact Ha. }
  unfold Packer.pack, Packer._pack.
  destruct (@gather_Ok T (Packer.names p) (Packer.td_items td)) as (ts & Hts & Hlts & Hnth).
  { intros k Hk; destruct (Hfields k Hk) as (u & Hu & _); congruence. }
  rewrite Hts; cbn [bind].
  destruct (@stack_Ok T ts (remove_at a (shape t)) axis a) as (s & Hs & Hshape & Hitem).
  - destruct ts; [|discriminate].
    destruct (Packer.names p); [now elim Hne|discriminate].
  - intros u Hu; destruct (In_nth _ _ u Hu) as (j & Hj & Hju).
    rewrite Hlts in Hj; destruct (Hslice j Hj) as (u' & Hlook & Hsh & _).
    rewrite (Hnth j u Hj), Hju in Hlook; injection Hlook as <-; exact Hsh.
  - exact Ha'.
  - exists s; split; [exact Htd|split; [now rewrite Hs|]].
    assert (Hshape' : shape s = shape t).
    { rewrite Hshape, Hlts, <- Hlen; now apply insert_remove_at. }
    split; [exact Hshape'|].
    intros idx Hidx; rewrite Hshape' in Hidx.
    assert (Hil : List.length idx = List.length (shape t)) by now apply in_bounds_length.
    assert (Hi : nth a idx 0 < List.length (Packer.names p)).
    { rewrite <- Hlen; clear - Hidx Halt.
      revert a idx Hidx Halt; induction (shape t) as [|n sh IH]; intros a idx Hidx Halt;
        [simpl in Halt; lia|].
      destruct idx as [|i idx]; [discriminate|].
      cbn in Hidx; apply andb_true_iff in Hidx; destruct Hidx as [Hi Hidx].
      destruct a as [|a]; cbn; [now apply Nat.ltb_lt|].
      apply IH; [exact Hidx|simpl in Halt; lia]. }
    destruct (Hslice _ Hi) as (u & Hlook & _ & Hu).
    destruct (Hitem idx t) as [->|Hbad]; [|lia].
    rewrite (Hnth _ t Hi) in Hlook; injection Hlook as ->.
    rewrite Hu; f_equal.
    apply insert_remove_at; lia.
Qed.

End PackerMore.

(** ** ClimateData: field access through aliases *)

Section FieldAccess.
Local Open Scope R_scope.
Local Abbreviation rtensor := (tensor R).
Local Abbreviation dict := (Dict.dict rtensor).
Local Abbreviation CD := ClimateData.__init__.

(** The alias a field resolves to is the first of its aliases bound in the
    mapping. *)
Lemma resolve_alias_first (d : dict) (prefixes : list string) (alias : string) :
  ClimateData.resolve_alias d prefixes = Some alias ->
  exists before after,
    prefixes = before ++ alias :: after /\
    (forall p, In p before -> Dict.lookup p d = None) /\
    Dict.lookup alias d <> None.
Proof.
  induction prefixes as [|p ps IH]; cbn; [discriminate|].
  unfold Dict.contains; destruct (Dict.lookup p d) as [t|] eqn:E.
  - intros H; injection H as <-; exists [], ps.
    split; [reflexivity|split; [intros ? []|congruence]].
  - intros H; destruct (IH H) as (before & after & -> & Hb & Ha).
    exists (p :: before), after; split; [reflexivity|split; [|exact Ha]].
    intros q [<-|Hq]; auto.
Qed.

(** X6.  A setter writes where the getter reads.  It returns exactly when the
    getter does, and raises the same [KeyError] otherwise: it never creates
    a field.  When it returns, the value is bound to the first alias of the
    field present in the mapping, in place; the keys and their order are
    unchanged, every other key is bound as before, and the getter reads the
    value written. *)
Theorem setter_writes_where_getter_reads (d : dict) (name : string) (value : rtensor) :
  match ClimateData._set (CD d) name value with
  | Ok cd' =>
      exists prefixes before alias after old,
        Dict.lookup name ClimateData.CLIMATE_FIELD_NAME_PREFIXES = Some prefixes /\
        prefixes = before ++ alias :: after /\
        (forall p, In p before -> Dict.lookup p d = None) /\
        ClimateData._get (CD d) name = Ok old /\
        Dict.lookup alias d = Some old /\
        ClimateData.data cd' = Dict.setitem alias value d /\
        Dict.keys (ClimateData.data cd') = Dict.keys d /\
        (forall k, k <> alias -> Dict.lookup k (ClimateData.data cd') = Dict.lookup k d) /\
        ClimateData._get cd' name = Ok value
  | Raise e =>
      e = KeyError name /\ ClimateData._get (CD d) name = Raise (KeyError name)
  end.
Proof.
  destruct (Dict.lookup name ClimateData.CLIMATE_FIELD_NAME_PREFIXES) as [prefixes|] eqn:Hp.
  - rewrite (_set_resolve d name prefixes value Hp), (_get_resolve d name prefixes Hp).
    destruct (ClimateData.resolve_alias d prefixes) as [alias|] eqn:E; [|split; reflexivity].
    destruct (resolve_alias_first _ _ _ E) as (before & after & Hsplit & Hbefore & Hbound).
    destruct (Dict.lookup alias d) as [old|] eqn:Hold; [|congruence].
    destruct (_set_Ok d name prefixes alias value Hp E) as (_ & Hget & Hkeys & Hother).
    exists prefixes, before, alias, after, old.
    split; [reflexivity|]; split; [exact Hsplit|]; split; [exact Hbefore|].
    split; [unfold Dict.getitem; now rewrite Hold|].
    split; [exact Hold|]; split; [reflexivity|]; split; [exact Hkeys|].
    split; [exact Hother|exact Hget].
  - unfold ClimateData._set, ClimateData._get, ClimateData.__init__, Dict.getitem.
    cbn [ClimateData._prefixes]; rewrite Hp; split; reflexivity.
Qed.

(** X7.  Setting the evaporation rate and reading it back: the setter
    stores [value * LATENT_HEAT_OF_VAPORIZATION] under the alias of the
    latent heat flux that the getter reads, and the getter divides by the
    same constant, so it returns [value * L / L] element by element.  That
    is the value set in exact arithmetic; floating-point numbers give it
    back to rounding only. *)
Theorem evaporation_rate_roundtrip (LH : R) (d : dict) (value : rtensor)
    (cd' : ClimateData.ClimateData) :
  LH <> 0 ->
  ClimateData.set_evaporation_rate LH (CD d) value = Ok cd' ->
  exists e,
    ClimateData.evaporation_rate LH cd' = Ok e /\
    shape e = shape value /\
    (forall idx, item e idx = item value idx * LH / LH) /\
    ClimateData.latent_heat_flux cd' = Ok (tmap (fun x => x * LH) value).
Proof.
  intros HLH Hset; unfold ClimateData.set_evaporation_rate in Hset.
  pose proof (setter_spec := _set_spec (CD d) "latent_heat_flux" _ Hset).
  cbv zeta in setter_spec.
  destruct setter_spec as (prefixes & alias & _ & _ & _ & Hget).
  unfold ClimateData.evaporation_rate, ClimateData.latent_heat_flux.
  rewrite Hget; cbn [bind].
  eexists; split; [reflexivity|split; [reflexivity|split; [|reflexivity]]].
  intros idx; reflexivity.
Qed.

End FieldAccess.

(** ** natural_sort *)

(** Any function on two lists that compares them position by position with
    [cmp], a shorter list first, is a total order when [cmp] is. *)
Section Lexicographic.
Variable A : Type.
Variable cmp : A -> A -> comparison.
Variable lex : list A -> list A -> comparison.
Hypothesis lex_nil_nil : lex [] [] = Eq.
Hypothesis lex_nil_cons : forall y b, lex [] (y :: b) = Lt.
Hypothesis lex_cons_nil : forall x a, lex (x :: a) [] = Gt.
Hypothesis lex_cons_cons : forall x a y b,
  lex (x :: a) (y :: b) = match cmp x y with Eq => lex a b | c => c end.
Hypothesis cmp_refl : forall x, cmp x x = Eq.
Hypothesis cmp_eq : forall x y, cmp x y = Eq -> x = y.
Hypothesis cmp_antisym : forall x y, cmp y x = CompOpp (cmp x y).
Hypothesis cmp_trans : forall x y z, cmp x y = Lt -> cmp y z = Lt -> cmp x z = Lt.

Lemma lex_refl (a : list A) : lex a a = Eq.
Proof.
  induction a as [|x a IH]; [exact lex_nil_nil|].
  now rewrite lex_cons_cons, cmp_refl.
Qed.

Lemma lex_eq (a b : list A) : lex a b = Eq -> a = b.
Proof.
  revert b; induction a as [|x a IH]; intros [|y b].
  - reflexivity.
  - rewrite lex_nil_cons; discriminate.
  - rewrite lex_cons_nil; discriminate.
  - rewrite lex_cons_cons; destruct (cmp x y) eqn:E; try discriminate.
    intros H; f_equal; [now apply cmp_eq|now apply IH].
Qed.

Lemma lex_antisym (a b : list A) : lex b a = CompOpp (lex a b).
Proof.
  revert b; induction a as [|x a IH]; intros [|y b].
  - now rewrite lex_nil_nil.
  - now rewrite lex_cons_nil, lex_nil_cons.
  - now rewrite lex_cons_nil, lex_nil_cons.
  - rewrite !lex_cons_cons, (cmp_antisym x y).
    destruct (cmp x y); cbn; [apply IH|reflexivity|reflexivity].
Qed.

Lemma lex_trans (a b c : list A) : lex a b = Lt -> lex b c = Lt -> lex a c = Lt.
Proof.
  revert b c; induction a as [|x a IH]; intros [|y b] [|z c];
    rewrite ?lex_nil_nil, ?lex_nil_cons, ?lex_cons_nil, ?lex_cons_cons;
    try discriminate; try reflexivity.
  destruct (cmp x y) eqn:Exy; try discriminate;
    destruct (cmp y z) eqn:Eyz; try discriminate; intros Hab Hbc.
  - apply cmp_eq in Exy, Eyz; subst; rewrite cmp_refl; eapply IH; eassumption.
  - apply cmp_eq in Exy; subst; now rewrite Eyz.
  - apply cmp_eq in Eyz; subst; now rewrite Exy.
  - now rewrite (cmp_trans _ _ _ Exy Eyz).
Qed.

End Lexicographic.

Section NaturalSort.
Local Abbreviation key := ClimateData.alphanum_key.
Local Abbreviation key_compare := ClimateData.key_compare.

Lemma nat_of_ascii_inj (x y : ascii) : nat_of_ascii x = nat_of_ascii y -> x = y.
Proof.
  intros H; rewrite <- (ascii_nat_embedding x), <- (ascii_nat_embedding y); now f_equal.
Qed.

Local Abbreviation ascii_compare :=
  (fun x y : ascii => Nat.compare (nat_of_ascii x) (nat_of_ascii y)).

Lemma ascii_compare_eq (x y : ascii) : ascii_compare x y = Eq -> x = y.
Proof. intros H; apply Nat.compare_eq in H; now apply nat_of_ascii_inj. Qed.

Lemma ascii_compare_trans (x y z : ascii) :
  ascii_compare x y = Lt -> ascii_compare y z = Lt -> ascii_compare x z = Lt.
Proof. rewrite !Nat.compare_lt_iff; lia. Qed.

Lemma str_compare_refl a : ClimateData.str_compare a a = Eq.
Proof.
  apply (lex_refl _ ascii_compare ClimateData.str_compare); try reflexivity.
  intros x; apply Nat.compare_refl.
Qed.

Lemma str_compare_eq a b : ClimateData.str_compare a b = Eq -> a = b.
Proof.
  apply (lex_eq _ ascii_compare ClimateData.str_compare); try reflexivity.
  exact ascii_compare_eq.
Qed.

Lemma str_compare_antisym a b :
  ClimateData.str_compare b a = CompOpp (ClimateData.str_compare a b).
Proof.
  apply (lex_antisym _ ascii_compare ClimateData.str_compare); try reflexivity.
  intros x y; apply Nat.compare_antisym.
Qed.

Lemma str_compare_trans a b c :
  ClimateData.str_compare a b = Lt -> ClimateData.str_compare b c = Lt ->
  ClimateData.str_compare a c = Lt.
Proof.
  apply (lex_trans _ ascii_compare ClimateData.str_compare); try reflexivity.
  - intros x; apply Nat.compare_refl.
  - exact ascii_compare_eq.
  - exact ascii_compare_trans.
Qed.

Lemma part_compare_refl x : ClimateData.part_compare x x = Eq.
Proof. destruct x; cbn; [apply N.compare_refl|apply str_compare_refl]. Qed.

Lemma part_compare_eq x y : ClimateData.part_compare x y = Eq -> x = y.
Proof.
  destruct x, y; cbn; try discriminate; intros H; f_equal.
  - now apply N.compare_eq.
  - now apply str_compare_eq.
Qed.

Lemma part_compare_antisym x y :
  ClimateData.part_compare y x = CompOpp (ClimateData.part_compare x y).
Proof.
  destruct x, y; cbn; try reflexivity;
    [apply N.compare_antisym|apply str_compare_antisym].
Qed.

Lemma part_compare_trans x y z :
  ClimateData.part_compare x y = Lt -> ClimateData.part_compare y z = Lt ->
  ClimateData.part_compare x z = Lt.
Proof.
  destruct x, y, z; cbn; try discriminate; try reflexivity.
  - rewrite !N.compare_lt_iff; lia.
  - apply str_compare_trans.
Qed.

Lemma key_compare_refl a : key_compare a a = Eq.
Proof.
  apply (lex_refl _ ClimateData.part_compare key_compare); try reflexivity.
  exact part_compare_refl.
Qed.

Lemma key_compare_eq a b : key_compare a b = Eq -> a = b.
Proof.
  apply (lex_eq _ ClimateData.part_compare key_compare); try reflexivity.
  exact part_compare_eq.
Qed.

Lemma key_compare_antisym a b : key_compare b a = CompOpp (key_compare a b).
Proof.
  apply (lex_antisym _ ClimateData.part_compare key_compare); try reflexivity.
  exact part_compare_antisym.
Qed.

Lemma key_compare_trans a b c :
  key_compare a b = Lt -> key_compare b c = Lt -> key_compare a c = Lt.
Proof.
  apply (lex_trans _ ClimateData.part_compare key_compare); try reflexivity.
  - exact part_compare_refl.
  - exact part_compare_eq.
  - exact part_compare_trans.
Qed.

(** [x] is placed no later than [y]: its key is not greater. *)
Local Abbreviation key_le :=
  (fun x y : string => key_compare (key x) (key y) <> Gt).
(** [y] has the key of [x]. *)
Local Abbreviation same_key x :=
  (fun y : string => match key_compare (key x) (key y) with Eq => true | _ => false end).

Lemma key_le_trans (x y z : string) : key_le x y -> key_le y z -> key_le x z.
Proof.
  cbv beta; intros Hxy Hyz.
  destruct (key_compare (key x) (key y)) eqn:Exy; [| |congruence].
  - apply key_compare_eq in Exy; now rewrite Exy.
  - destruct (key_compare (key y) (key z)) eqn:Eyz; [| |congruence].
    + apply key_compare_eq in Eyz; rewrite <- Eyz, Exy; discriminate.
    + rewrite (key_compare_trans _ _ _ Exy Eyz); discriminate.
Qed.

Lemma insert_sorted_Permutation (x : string) (l : list string) :
  Permutation (ClimateData.insert_sorted x l) (x :: l).
Proof.
  induction l as [|y l IH]; cbn; [reflexivity|].
  destruct (key_compare (key x) (key y)); try reflexivity;
    (etransitivity; [apply perm_skip, IH|apply perm_swap]).
Qed.

Lemma insert_sorted_StronglySorted (x : string) (l : list string) :
  StronglySorted key_le l -> StronglySorted key_le (ClimateData.insert_sorted x l).
Proof.
  induction 1 as [|y l Hl IH Hy]; cbn.
  - constructor; [constructor|constructor].
  - destruct (key_compare (key x) (key y)) eqn:E.
    + constructor; [exact IH|].
      apply Forall_forall; intros z Hz.
      apply (Permutation_in _ (insert_sorted_Permutation x l)) in Hz.
      destruct Hz as [<-|Hz]; [|now apply (proj1 (Forall_forall _ _) Hy)].
      rewrite key_compare_antisym, E; discriminate.
    + constructor; [now constructor|].
      constructor; [rewrite E; discriminate|].
      apply Forall_forall; intros z Hz.
      apply key_le_trans with (y := y); [rewrite E; discriminate|].
      now apply (proj1 (Forall_forall _ _) Hy).
    + constructor; [exact IH|].
      apply Forall_forall; intros z Hz.
      apply (Permutation_in _ (insert_sorted_Permutation x l)) in Hz.
      destruct Hz as [<-|Hz]; [|now apply (proj1 (Forall_forall _ _) Hy)].
      rewrite key_compare_antisym, E; discriminate.
Qed.

(** An element goes behind the elements of its key that are there already. *)
Lemma filter_insert_sorted (k x : string) (l : list string) :
  StronglySorted key_le l ->
  filter (same_key k) (ClimateData.insert_sorted x l) =
  filter (same_key k) l ++ (if same_key k x then [x] else []).
Proof.
  induction 1 as [|y l Hl IH Hy]; cbn [ClimateData.insert_sorted filter app].
  - destruct (same_key k x); reflexivity.
  - destruct (key_compare (key x) (key y)) eqn:E.
    + cbn [filter]; rewrite IH; destruct (same_key k y); reflexivity.
    + cbn [filter].
      destruct (key_compare (key k) (key x)) eqn:Ekx;
        [|destruct (same_key k y); now rewrite app_nil_r ..].
      apply key_compare_eq in Ekx.
      assert (Hnone : forall z, In z (y :: l) -> same_key k z = false).
      { intros z Hz; rewrite Ekx.
        assert (Hyz : key_le y z).
        { destruct Hz as [<-|Hz]; [rewrite key_compare_refl; discriminate|].
          now apply (proj1 (Forall_forall _ _) Hy). }
        cbv beta in Hyz.
        destruct (key_compare (key y) (key z)) eqn:Eyz; [| |congruence].
        - apply key_compare_eq in Eyz; now rewrite <- Eyz, E.
        - now rewrite (key_compare_trans _ _ _ E Eyz). }
      rewrite (Hnone y (or_introl eq_refl)).
      replace (filter (same_key k) l) with (@nil string); [reflexivity|].
      symmetry; clear - Hnone; induction l as [|z l IH]; [reflexivity|].
      cbn [filter]; rewrite (Hnone z) by (right; now left).
      apply IH; intros w Hw; apply Hnone; destruct Hw as [<-|Hw]; [now left|right; now right].
    + cbn [filter]; rewrite IH; destruct (same_key k y); reflexivity.
Qed.

Lemma natural_sort_fold (k : string) (l acc : list string) :
  StronglySorted key_le acc ->
  let out := fold_left (fun acc x => ClimateData.insert_sorted x acc) l acc in
  Permutation out (acc ++ l) /\
  StronglySorted key_le out /\
  filter (same_key k) out = filter (same_key k) acc ++ filter (same_key k) l.
Proof.
  revert acc; induction l as [|x l IH]; intros acc Hacc; cbn [fold_left].
  - rewrite !app_nil_r; cbv zeta; auto.
  - destruct (IH (ClimateData.insert_sorted x acc)
                 (insert_sorted_StronglySorted x acc Hacc)) as (Hp & Hs & Hf).
    cbv zeta in *; split; [|split; [exact Hs|]].
    + rewrite Hp, (insert_sorted_Permutation x acc).
      now rewrite <- Permutation_middle.
    + rewrite Hf, (filter_insert_sorted k x acc Hacc), <- app_assoc.
      cbn [filter]; destruct (same_key k x); reflexivity.
Qed.

Lemma natural_sort_is_a_stable_sort_lemma (alist : list string) :
  Permutation (ClimateData.natural_sort alist) alist /\
  StronglySorted key_le (ClimateData.natural_sort alist).
Proof.
  unfold ClimateData.natural_sort.
  destruct (natural_sort_fold "" alist [] (SSorted_nil _)) as (Hp & Hs & _); auto.
Qed.

(** X8.  [natural_sort] returns its argument rearranged, in the order of the
    keys (text compared in lower case, runs of digits compared as numbers),
    and it is stable: names of one key keep the order they came in.  Names
    are ASCII text, as field names are. *)
Theorem natural_sort_is_a_stable_sort (alist : list string) :
  Permutation (ClimateData.natural_sort alist) alist /\
  StronglySorted
    (fun x y => ClimateData.key_compare (ClimateData.alphanum_key x)
                                        (ClimateData.alphanum_key y) <> Gt)
    (ClimateData.natural_sort alist) /\
  (forall x,
     filter (fun y => match ClimateData.key_compare (ClimateData.alphanum_key x)
                                                    (ClimateData.alphanum_key y)
                      with Eq => true | _ => false end)
            (ClimateData.natural_sort alist) =
     filter (fun y => match ClimateData.key_compare (ClimateData.alphanum_key x)
                                                    (ClimateData.alphanum_key y)
                      with Eq => true | _ => false end)
            alist).
Proof.
  unfold ClimateData.natural_sort.
  destruct (natural_sort_fold "" alist [] (SSorted_nil _)) as (Hp & Hs & _).
  split; [exact Hp|split; [exact Hs|]].
  intros x; now destruct (natural_sort_fold x alist [] (SSorted_nil _)) as (_ & _ & Hf).
Qed.

End NaturalSort.

(** ** Vertical levels are gathered in numeric order *)

Section LevelNames.
Local Abbreviation chars := list_ascii_of_string.
Local Abbreviation key := ClimateData.alphanum_key.

Lemma chars_append (s1 s2 : string) : chars (s1 ++ s2) = chars s1 ++ chars s2.
Proof. induction s1 as [|c s1 IH]; cbn; [reflexivity|now rewrite IH]. Qed.

Lemma startswith_append (prefix s : string) :
  ClimateData.startswith (prefix ++ s) prefix = true.
Proof.
  unfold ClimateData.startswith; induction prefix as [|c prefix IH]; cbn.
  - now destruct s.
  - destruct (ascii_dec c c); [exact IH|congruence].
Qed.

(** The decimal numeral of a number: digits only, at least one, and read
    back by [int] as the number. *)
Local Abbreviation numeral n := (NilZero.string_of_uint (Nat.to_uint n)).

Lemma digits_NilEmpty (d : Decimal.uint) :
  forallb ClimateData.is_digit (chars (NilEmpty.string_of_uint d)) = true.
Proof. induction d; cbn; auto. Qed.

Lemma numeral_digits (n : nat) : forallb ClimateData.is_digit (chars (numeral n)) = true.
Proof.
  unfold NilZero.string_of_uint.
  destruct (Nat.to_uint n) eqn:E; try (rewrite <- E; apply digits_NilEmpty); reflexivity.
Qed.

Lemma numeral_nonempty (n : nat) : chars (numeral n) <> [].
Proof.
  unfold NilZero.string_of_uint; destruct (Nat.to_uint n); cbn; discriminate.
Qed.

Lemma int_of_digits_NilEmpty (d : Decimal.uint) (acc : nat) :
  fold_left (fun acc c => (10 * acc + N.of_nat (nat_of_ascii c - 48))%N)
            (chars (NilEmpty.string_of_uint d)) (N.of_nat acc)
  = N.of_nat (Nat.of_uint_acc d acc).
Proof.
  revert acc; induction d; intros acc; cbn [NilEmpty.string_of_uint chars fold_left
                                             Nat.of_uint_acc]; [reflexivity|..];
    rewrite Nat.tail_mul_spec, <- IHd; f_equal;
    match goal with
    | |- context [nat_of_ascii ?c - 48] =>
        let v := eval vm_compute in (nat_of_ascii c - 48) in
        change (nat_of_ascii c - 48) with v
    end; lia.
Qed.

Lemma int_of_digits_numeral (n : nat) :
  ClimateData.int_of_digits (chars (numeral n)) = N.of_nat n.
Proof.
  rewrite <- (Unsigned.of_to n) at 2.
  unfold ClimateData.int_of_digits, NilZero.string_of_uint, Nat.of_uint.
  destruct (Nat.to_uint n) eqn:E; [reflexivity|..];
    rewrite <- E; apply (int_of_digits_NilEmpty _ 0).
Qed.

Lemma split_convert_text (text rest cur : list ascii) :
  (forall c, In c text -> ClimateData.is_digit c = false) ->
  ClimateData.split_convert (text ++ rest) cur false =
  ClimateData.split_convert rest (rev text ++ cur) false.
Proof.
  revert cur; induction text as [|c text IH]; intros cur Htext; [reflexivity|].
  cbn [app ClimateData.split_convert].
  rewrite (Htext c (or_introl eq_refl)); cbn [Bool.eqb].
  rewrite IH by (intros c' Hc'; apply Htext; now right).
  cbn [rev]; now rewrite <- app_assoc.
Qed.

Lemma split_convert_digits (ds cur : list ascii) :
  forallb ClimateData.is_digit ds = true ->
  ClimateData.split_convert ds cur true =
  [ClimateData.KInt (ClimateData.int_of_digits (rev cur ++ ds)); ClimateData.KStr []].
Proof.
  revert cur; induction ds as [|c ds IH]; intros cur Hds; cbn [ClimateData.split_convert].
  - now rewrite app_nil_r.
  - cbn [forallb] in Hds; apply andb_true_iff in Hds; destruct Hds as [Hc Hds].
    rewrite Hc; cbn [Bool.eqb]; rewrite (IH _ Hds); cbn [rev].
    now rewrite <- app_assoc.
Qed.

Variable prefix : string.
Hypothesis prefix_text : forall c, In c (chars prefix) -> ClimateData.is_digit c = false.

(** The name of level [k]: the prefix followed by the numeral of [k]. *)
Local Abbreviation level k := (prefix ++ numeral k)%string.

Lemma key_level (k : nat) :
  key (level k) =
  [ClimateData.KStr (map ClimateData.lower_ascii (chars prefix));
   ClimateData.KInt (N.of_nat k); ClimateData.KStr []].
Proof.
  unfold ClimateData.alphanum_key; rewrite chars_append.
  rewrite split_convert_text by exact prefix_text.
  rewrite app_nil_r.
  pose proof (numeral_digits k) as Hd; pose proof (numeral_nonempty k) as Hne.
  pose proof (int_of_digits_numeral k) as Hint.
  destruct (chars (numeral k)) as [|c ds]; [congruence|].
  cbn [forallb] in Hd; apply andb_true_iff in Hd; destruct Hd as [Hc Hds].
  cbn [ClimateData.split_convert]; rewrite Hc; cbn [Bool.eqb].
  rewrite rev_involutive, (split_convert_digits ds [c] Hds); cbn [rev app].
  now rewrite Hint.
Qed.

Lemma key_compare_level (i j : nat) :
  ClimateData.key_compare (key (level i)) (key (level j)) = Nat.compare i j.
Proof.
  rewrite !key_level; cbn [ClimateData.key_compare ClimateData.part_compare].
  rewrite !str_compare_refl.
  replace (N.compare (N.of_nat i) (N.of_nat j)) with (Nat.compare i j).
  - now destruct (Nat.compare i j).
  - symmetry; destruct (Nat.compare_spec i j);
      [apply N.compare_eq_iff|apply N.compare_lt_iff|apply N.compare_gt_iff]; lia.
Qed.

Lemma level_inj (i j : nat) : level i = level j -> i = j.
Proof.
  intros H; apply Nat.compare_eq; rewrite <- key_compare_level, H.
  apply key_compare_refl.
Qed.

(** Two arrangements of the level names in the order of their keys
    coincide. *)
Lemma sorted_levels_unique (l1 l2 : list nat) :
  StronglySorted le l1 -> StronglySorted le l2 -> Permutation l1 l2 -> l1 = l2.
Proof.
  revert l2; induction l1 as [|x l1 IH]; intros l2 H1 H2 Hp.
  - now apply Permutation_nil in Hp.
  - destruct l2 as [|y l2]; [now apply Permutation_sym, Permutation_nil in Hp|].
    inversion H1 as [|? ? H1' Hx]; inversion H2 as [|? ? H2' Hy]; subst.
    assert (Hxy : x = y).
    { assert (Hin1 : In x (y :: l2)) by (apply (Permutation_in _ Hp); now left).
      assert (Hin2 : In y (x :: l1))
        by (apply (Permutation_in _ (Permutation_sym Hp)); now left).
      destruct Hin1 as [->|Hin1]; [reflexivity|].
      destruct Hin2 as [->|Hin2]; [reflexivity|].
      rewrite Forall_forall in Hx, Hy.
      specialize (Hx y Hin2); specialize (Hy x Hin1); lia. }
    subst y; f_equal; apply IH; try assumption.
    now apply Permutation_cons_inv in Hp.
Qed.

(** Whatever the order in which the level names come, [natural_sort] puts
    them in the order of the level numbers. *)
Lemma natural_sort_levels (names : list string) (K : nat) :
  Permutation names (map (fun k => level k) (seq 0 K)) ->
  ClimateData.natural_sort names = map (fun k => level k) (seq 0 K).
Proof.
  intros Hp.
  destruct (natural_sort_is_a_stable_sort_lemma names) as (Hperm & Hsorted).
  assert (Hout : Permutation (ClimateData.natural_sort names)
                             (map (fun k => level k) (seq 0 K)))
    by (etransitivity; eassumption).
  destruct (Permutation_map_inv _ _ Hout) as (js & Hjs & Hpjs).
  rewrite Hjs in Hsorted |- *; f_equal.
  apply sorted_levels_unique; [| |now apply Permutation_sym].
  - clear - Hsorted prefix_text; induction js as [|j js IH]; [constructor|].
    cbn [map] in Hsorted; inversion Hsorted as [|? ? Hs Hj]; subst.
    constructor; [now apply IH|].
    rewrite Forall_forall in *; intros i Hi.
    specialize (Hj (level i) (in_map _ _ _ Hi)); cbv beta in Hj.
    rewrite key_compare_level in Hj.
    destruct (Nat.compare j i) eqn:E; [| |congruence].
    + apply Nat.compare_eq in E; lia.
    + apply Nat.compare_lt_iff in E; lia.
  - clear; generalize 0; induction K as [|K IH]; intros s; cbn [seq]; constructor.
    + apply IH.
    + apply Forall_forall; intros i Hi; apply in_seq in Hi; lia.
Qed.

Lemma wrap_index_last (n : nat) : wrap_index (S n) (-1) = Some n.
Proof.
  unfold wrap_index.
  replace ((- Z.of_nat (S n) <=? -1)%Z && (-1 <? Z.of_nat (S n))%Z) with true
    by (symmetry; apply andb_true_iff; split; [apply Z.leb_le|apply Z.ltb_lt]; lia).
  cbn [Z.ltb Z.compare]; f_equal; lia.
Qed.

Lemma insert_at_end (A : Type) (x : A) (l : list A) :
  insert_at (List.length l) x l = l ++ [x].
Proof. unfold insert_at; now rewrite firstn_all, skipn_all. Qed.

Lemma remove_at_end (A : Type) (x : A) (l : list A) :
  remove_at (List.length l) (l ++ [x]) = l.
Proof.
  unfold remove_at.
  rewrite firstn_app, firstn_all, Nat.sub_diag, skipn_all2, !app_nil_r;
    [reflexivity|rewrite length_app; cbn; lia].
Qed.

Lemma nth_levels (K j : nat) (dflt : string) :
  j < K -> nth j (map (fun k => level k) (seq 0 K)) dflt = level j.
Proof.
  intros Hj.
  rewrite (nth_indep _ dflt (level 0)) by (now rewrite length_map, length_seq).
  now rewrite (map_nth (fun k => level k)), seq_nth.
Qed.

(** The levels of a prefix, for a mapping that holds levels [0 .. K-1] under
    that prefix, in any order of insertion. *)
Lemma _extract_prefix_levels_in_order (d : Dict.dict (tensor R)) (K : nat) (sh : list nat) :
  NoDup (Dict.keys d) ->
  0 < K ->
  (forall name, In name (Dict.keys d) -> ClimateData.startswith name prefix = true ->
     exists k, k < K /\ name = level k) ->
  (forall k, k < K -> exists t, Dict.lookup (level k) d = Some t /\ shape t = sh) ->
  exists wat,
    ClimateData._extract_prefix_levels (ClimateData.__init__ d) prefix = Ok wat /\
    shape wat = sh ++ [K] /\
    forall k t idx, k < K -> Dict.lookup (level k) d = Some t ->
      List.length idx = List.length sh ->
      item wat (idx ++ [k]) = item t idx.
Proof.
  intros Hnd HK Honly Hall.
  unfold ClimateData._extract_prefix_levels, ClimateData.__init__; cbn [ClimateData._data].
  set (names := filter (fun field_name => ClimateData.startswith field_name prefix)
                       (Dict.keys d)).
  assert (Hperm : Permutation names (map (fun k => level k) (seq 0 K))).
  { apply NoDup_Permutation.
    - now apply NoDup_filter.
    - apply Injective_map_NoDup; [intros i j; apply level_inj|apply seq_NoDup].
    - intros x; unfold names; rewrite filter_In, in_map_iff; split.
      + intros [Hin Hsw]; destruct (Honly x Hin Hsw) as (k & Hk & ->).
        exists k; split; [reflexivity|apply in_seq; lia].
      + intros (k & <- & Hk); apply in_seq in Hk.
        destruct (Hall k) as (t & Ht & _); [lia|].
        split; [|apply startswith_append].
        apply lookup_Some_In in Ht; unfold Dict.keys.
        change (level k) with (fst (level k, t)); now apply in_map. }
  assert (Hlen : List.length names = K)
    by (now rewrite (Permutation_length Hperm), length_map, length_seq).
  rewrite Hlen; destruct (Nat.eqb_spec K 0) as [->|_]; [lia|].
  rewrite (natural_sort_levels names K Hperm).
  destruct (@gather_Ok R (map (fun k => level k) (seq 0 K)) d) as (ts & Hts & Hlts & Hnth).
  { intros name Hname; apply in_map_iff in Hname; destruct Hname as (k & <- & Hk).
    apply in_seq in Hk; destruct (Hall k) as (t & Ht & _); [lia|congruence]. }
  rewrite length_map, length_seq in Hlts, Hnth.
  rewrite Hts; cbn [bind].
  assert (Hlevel : forall k t, k < K -> Dict.lookup (level k) d = Some t ->
                     forall dflt, nth k ts dflt = t).
  { intros k t Hk Ht dflt; specialize (Hnth k dflt Hk).
    rewrite (nth_levels K k "" Hk), Ht in Hnth; now injection Hnth. }
  destruct (@stack_Ok R ts sh (-1) (List.length sh)) as (wat & Hwat & Hshape & Hitem).
  - destruct ts; [cbn in Hlts; lia|discriminate].
  - intros t Ht; destruct (In_nth _ _ t Ht) as (k & Hk & Hkt).
    rewrite Hlts in Hk; destruct (Hall k Hk) as (t' & Ht' & Hsh).
    now rewrite <- Hkt, (Hlevel k t' Hk Ht').
  - apply wrap_index_last.
  - exists wat; split; [exact Hwat|split].
    + now rewrite Hshape, Hlts, insert_at_end.
    + intros k t idx Hk Ht Hidx.
      destruct (Hitem (idx ++ [k]) t) as [->|Hbad]; rewrite <- Hidx in *.
      * rewrite app_nth2, Nat.sub_diag, remove_at_end by lia; cbn [nth].
        now rewrite (Hlevel k t Hk Ht).
      * rewrite app_nth2, Nat.sub_diag in Hbad by lia; cbn [nth] in Hbad; lia.
Qed.

End LevelNames.

(** X9.  [specific_total_water] of a mapping that holds the levels
    [specific_total_water_0 .. specific_total_water_(K-1)], inserted in any
    order and next to any other fields: the levels are stacked along a new
    last axis in the order of their numbers (level 10 after level 9, not
    after level 1). *)
Theorem specific_total_water_in_level_order
    (d : Dict.dict (tensor R)) (K : nat) (sh : list nat) :
  NoDup (Dict.keys d) ->
  0 < K ->
  (forall name, In name (Dict.keys d) ->
     ClimateData.startswith name "specific_total_water_" = true ->
     exists k, k < K /\
       name = ("specific_total_water_" ++ NilZero.string_of_uint (Nat.to_uint k))%string) ->
  (forall k, k < K ->
     exists t,
       Dict.lookup ("specific_total_water_" ++ NilZero.string_of_uint (Nat.to_uint k))%string
                   d = Some t /\
       shape t = sh) ->
  exists wat,
    ClimateData.specific_total_water (ClimateData.__init__ d) = Ok wat /\
    shape wat = sh ++ [K] /\
    forall k t idx, k < K ->
      Dict.lookup ("specific_total_water_" ++ NilZero.string_of_uint (Nat.to_uint k))%string
                  d = Some t ->
      List.length idx = List.length sh ->
      item wat (idx ++ [k]) = item t idx.
Proof.
  intros Hnd HK Honly Hall.
  destruct (_extract_prefix_levels_in_order "specific_total_water_") with (d := d) (K := K)
    (sh := sh) as (wat & Hwat & Hrest); try assumption.
  { intros c Hc; cbn in Hc.
    repeat (destruct Hc as [<-|Hc]; [reflexivity|]); destruct Hc. }
  exists wat; split; [|exact Hrest].
  unfold ClimateData.specific_total_water, ClimateData._extract_levels.
  change (Dict.getitem "specific_total_water" _)
    with (@Ok (list string) ["specific_total_water_"]).
  cbn [bind ClimateData._extract_levels_loop]; now rewrite Hwat.
Qed.

(** ** The corrector: what it leaves alone, what it never raises *)

Ltac inv_bind H :=
  match type of H with
  | bind ?c _ = Ok _ =>
      let E := fresh "E" in
      destruct c eqn:E; [cbn [bind] in H|discriminate H]
  end.

Ltac inv_binds :=
  repeat match goal with H : bind _ _ = Ok _ |- _ => inv_bind H end.

Section CorrectorFrame.
Local Open Scope R_scope.
Variable TIMESTEP_SECONDS : R.
Variable LATENT_HEAT_OF_VAPORIZATION : R.
Local Abbreviation rtensor := (tensor R).
Local Abbreviation dict := (Dict.dict rtensor).
Local Abbreviation CD := ClimateData.__init__.
Local Abbreviation ADV := "tendency_of_total_water_path_due_to_advection".

(** The keys under which the stages of the corrector write. *)
Local Abbreviation budget_aliases :=
  ["PRESsfc"; "PS"; ADV; "LHTFLsfc"; "LHFLX"; "PRATEsfc"; "surface_precipitation_rate"].

(** [d'] has the keys of [d], in their order, and differs from it under the
    budget aliases at most. *)
Local Abbreviation same_but_budget d d' :=
  (Dict.keys d' = Dict.keys d /\
   forall k : string, ~ In k budget_aliases -> Dict.lookup k d' = Dict.lookup k d).

Lemma same_but_budget_trans (d1 d2 d3 : dict) :
  same_but_budget d1 d2 -> same_but_budget d2 d3 -> same_but_budget d1 d3.
Proof.
  intros [K1 L1] [K2 L2]; split; [congruence|].
  intros k Hk; rewrite (L2 k Hk); now apply L1.
Qed.

Lemma _set_frame (d : dict) (name : string) (v : rtensor) (cd' : ClimateData.ClimateData) :
  In name ["surface_pressure"; ADV; "latent_heat_flux"; "precipitation_rate"] ->
  ClimateData._set (CD d) name v = Ok cd' ->
  exists d', cd' = CD d' /\ same_but_budget d d'.
Proof.
  intros Hname Hset.
  assert (Hp : exists prefixes,
            Dict.lookup name ClimateData.CLIMATE_FIELD_NAME_PREFIXES = Some prefixes /\
            incl prefixes budget_aliases).
  { destruct Hname as [<-|[<-|[<-|[<-|[]]]]]; eexists; (split; [reflexivity|]);
      intros p Hp; cbn in Hp |- *; intuition. }
  destruct Hp as (prefixes & Hp & Hincl).
  rewrite (_set_resolve d name prefixes v Hp) in Hset.
  destruct (ClimateData.resolve_alias d prefixes) as [alias|] eqn:E; [|discriminate].
  injection Hset as <-.
  destruct (_set_Ok d name prefixes alias v Hp E) as (_ & _ & Hkeys & Hother).
  destruct (resolve_alias_Some _ _ E) as [Hin _].
  exists (Dict.setitem alias v d); split; [reflexivity|]; split; [exact Hkeys|].
  intros k Hk; apply Hother; intros ->; apply Hk, Hincl, Hin.
Qed.

Lemma _force_conserve_dry_air_frame (input gen gen' : dict) (area : rtensor)
    (sigma : ClimateData.SigmaCoordinates) :
  Corrector._force_conserve_dry_air input gen area sigma = Ok gen' ->
  same_but_budget gen gen'.
Proof.
  unfold Corrector._force_conserve_dry_air; intros H.
  inv_bind H; cbn [Corrector.is_None] in H.
  repeat inv_bind H.
  injection H as <-.
  match goal with
  | E : ClimateData.set_surface_pressure _ _ = Ok _ |- _ =>
      apply _set_frame in E; [|cbn; auto]; destruct E as (d' & -> & Hd')
  end.
  exact Hd'.
Qed.

Lemma _force_zero_advection_frame (gen gen' : dict) (area : rtensor) :
  Corrector._force_zero_global_mean_moisture_advection gen area = Ok gen' ->
  same_but_budget gen gen'.
Proof.
  unfold Corrector._force_zero_global_mean_moisture_advection; intros H.
  repeat inv_bind H.
  injection H as <-.
  match goal with
  | E : ClimateData.set_tendency_of_total_water_path_due_to_advection _ _ = Ok _ |- _ =>
      apply _set_frame in E; [|cbn; auto]; destruct E as (d' & -> & Hd')
  end.
  exact Hd'.
Qed.

Lemma _force_conserve_moisture_frame (input gen gen' : dict) (area : rtensor)
    (sigma : ClimateData.SigmaCoordinates) (terms_to_modify : string) :
  Corrector._force_conserve_moisture TIMESTEP_SECONDS LATENT_HEAT_OF_VAPORIZATION
    input gen area sigma terms_to_modify = Ok gen' ->
  same_but_budget gen gen'.
Proof.
  unfold Corrector._force_conserve_moisture; intros H.
  do 8 inv_bind H.
  match type of H with
  | bind ?c _ = _ =>
      assert (H1 : exists d1, c = Ok (CD d1) /\ same_but_budget gen d1)
  end.
  { destruct (Corrector.endswith terms_to_modify "precipitation");
      [|destruct (Corrector.endswith terms_to_modify "evaporation")].
    - match goal with
      | |- exists d1, ?c = _ /\ _ => destruct c as [cd1|e] eqn:Hbranch; [|discriminate H]
      end.
      repeat inv_bind Hbranch.
      apply _set_frame in Hbranch; [|cbn; auto]; destruct Hbranch as (d1 & -> & Hd1).
      exists d1; split; [reflexivity|exact Hd1].
    - match goal with
      | |- exists d1, ?c = _ /\ _ => destruct c as [cd1|e] eqn:Hbranch; [|discriminate H]
      end.
      repeat inv_bind Hbranch.
      apply _set_frame in Hbranch; [|cbn; auto]; destruct Hbranch as (d1 & -> & Hd1).
      exists d1; split; [reflexivity|exact Hd1].
    - exists gen; split; [reflexivity|split; [reflexivity|intros; reflexivity]]. }
  destruct H1 as (d1 & Hstep & Hd1); rewrite Hstep in H; cbn [bind] in H.
  apply same_but_budget_trans with (d2 := d1); [exact Hd1|].
  destruct (ClimateData.startswith terms_to_modify "advection").
  - clear Hstep; inv_binds.
    injection H as <-.
    match goal with
    | E : ClimateData.set_tendency_of_total_water_path_due_to_advection _ _ = Ok _ |- _ =>
        apply _set_frame in E; [|cbn; auto]; destruct E as (d' & -> & Hd')
    end.
    exact Hd'.
  - cbn [bind] in H; injection H as <-.
    split; [reflexivity|intros; reflexivity].
Qed.

(** X11.  Whatever its configuration, a corrector that returns has neither added
    nor removed nor reordered a key, and has changed no binding other than
    those of surface pressure, advection tendency, latent heat flux and
    precipitation (under the aliases of these fields). *)
Theorem corrector_changes_budget_fields_only
    (self : Corrector.Corrector) (input_data gen_data gen' : dict) :
  Corrector.__call__ TIMESTEP_SECONDS LATENT_HEAT_OF_VAPORIZATION self input_data gen_data
    = Ok gen' ->
  Dict.keys gen' = Dict.keys gen_data /\
  forall k,
    ~ In k ["PRESsfc"; "PS"; "tendency_of_total_water_path_due_to_advection";
            "LHTFLsfc"; "LHFLX"; "PRATEsfc"; "surface_precipitation_rate"] ->
    Dict.lookup k gen' = Dict.lookup k gen_data.
Proof.
  unfold Corrector.__call__; intros H.
  match type of H with bind ?c _ = _ =>
    destruct c as [g1|e] eqn:E1; cbn [bind] in H; [|discriminate H] end.
  match type of H with bind ?c _ = _ =>
    destruct c as [g2|e] eqn:E2; cbn [bind] in H; [|discriminate H] end.
  assert (H1 : same_but_budget gen_data g1).
  { destruct (Corrector.conserve_dry_air _).
    - eapply _force_conserve_dry_air_frame; eassumption.
    - injection E1 as <-; split; [reflexivity|intros; reflexivity]. }
  assert (H2 : same_but_budget g1 g2).
  { destruct (Corrector.zero_global_mean_moisture_advection _).
    - eapply _force_zero_advection_frame; eassumption.
    - injection E2 as <-; split; [reflexivity|intros; reflexivity]. }
  assert (H3 : same_but_budget g2 gen').
  { destruct (Corrector.moisture_budget_correction _).
    - eapply _force_conserve_moisture_frame; eassumption.
    - injection H as <-; split; [reflexivity|intros; reflexivity]. }
  exact (same_but_budget_trans _ _ _ H1 (same_but_budget_trans _ _ _ H2 H3)).
Qed.

End CorrectorFrame.

Section WaterCheck.
Local Open Scope R_scope.
Local Abbreviation rtensor := (tensor R).
Local Abbreviation dict := (Dict.dict rtensor).
Local Abbreviation CD := ClimateData.__init__.
Local Abbreviation water_msg := "specific_total_water is required for conservation".
Local Abbreviation e0 := (ValueError water_msg).

Lemma other_than_bind_eq (A B : Type) (c : result A) (k : A -> result B) :
  other_than e0 c -> (forall a, c = Ok a -> other_than e0 (k a)) ->
  other_than e0 (bind c k).
Proof. destruct c; cbn; auto. Qed.

(** X12.  [_force_conserve_dry_air] catches a [KeyError] of
    [gen.specific_total_water] to raise [ValueError("specific_total_water is
    required for conservation")], but it has read the same property before,
    unguarded, to compute the dry air of the generated state: the
    [ValueError] is never raised, and generated data without water levels
    make the stage raise the [KeyError] itself. *)
Theorem water_levels_check_is_unreachable
    (input gen : dict) (area : rtensor) (sigma : ClimateData.SigmaCoordinates) :
  Corrector._force_conserve_dry_air input gen area sigma
    <> Raise (ValueError "specific_total_water is required for conservation") /\
  (forall sp msg,
     ClimateData.surface_pressure (CD input) = Ok sp ->
     ClimateData.specific_total_water (CD gen) = Raise (KeyError msg) ->
     Corrector._force_conserve_dry_air input gen area sigma = Raise (KeyError msg)).
Proof.
  split.
  - assert (H : other_than e0 (Corrector._force_conserve_dry_air input gen area sigma)).
    { unfold Corrector._force_conserve_dry_air.
      apply other_than_bind; [apply other_than__get|intros sp].
      cbn [Corrector.is_None].
      apply other_than_bind_eq; [apply other_than_dry_air; discriminate|intros gda Hgda].
      assert (Hwat : exists wat, ClimateData.specific_total_water (CD gen) = Ok wat).
      { unfold ClimateData.surface_pressure_due_to_dry_air in Hgda.
        destruct (ClimateData.specific_total_water (CD gen)) as [wat|e]; [eauto|discriminate]. }
      destruct Hwat as (wat & Hwat); rewrite Hwat.
      apply other_than_bind; [apply other_than_weighted_mean|intros ggda].
      apply other_than_bind; [apply other_than_dry_air; discriminate|intros ida].
      apply other_than_bind; [apply other_than_weighted_mean|intros gtda].
      apply other_than_bind; [apply other_than_binop|intros err].
      apply other_than_bind; [apply other_than_binop|intros ngda].
      cbn [bind].
      apply other_than_bind; [apply other_than_diff_last|intros akd].
      apply other_than_bind; [apply other_than_diff_last|intros bkd].
      apply other_than_bind; [apply other_than_binop|intros akw].
      apply other_than_bind; [apply other_than_binop|intros num].
      apply other_than_bind; [apply other_than_binop|intros bkw].
      apply other_than_bind; [apply other_than_binop|intros np].
      apply other_than_bind; [apply other_than__get|intros sp'].
      apply other_than_bind; [apply other_than__set|intros gen'].
      exact I. }
    intros Heq; rewrite Heq in H; cbn in H; now apply H.
  - intros sp msg Hsp Hwat; unfold Corrector._force_conserve_dry_air.
    rewrite Hsp; cbn [bind Corrector.is_None].
    unfold ClimateData.surface_pressure_due_to_dry_air; rewrite Hwat; reflexivity.
Qed.

End WaterCheck.

(** ** The corrector: what stage 2 computes, and the advection of stage 3 *)

Section ZeroAdvectionStep.
Local Open Scope R_scope.
Local Abbreviation rtensor := (tensor R).
Local Abbreviation dict := (Dict.dict rtensor).
Local Abbreviation ADV := "tendency_of_total_water_path_due_to_advection".

(** What stage 2 computes. *)
Lemma zero_advection_step (gen : dict) (area adv : rtensor) (L : list nat) (n m : nat) :
  Dict.lookup ADV gen = Some adv ->
  shape adv = L ++ [n; m] ->
  shape area = [n; m] ->
  exists new mean,
    Corrector._force_zero_global_mean_moisture_advection gen area
      = Ok (Dict.setitem ADV new gen) /\
    shape new = L ++ [n; m] /\
    (forall l i j, in_bounds L l = true -> (i < n)%nat -> (j < m)%nat ->
       item new (l ++ [i; j]) = item adv (l ++ [i; j]) - item mean l) /\
    (forall l, in_bounds L l = true ->
       item mean l =
       Torch.rsum2 (fun i j => item adv (l ++ [i; j]) * item area [i; j]) n m
       / Torch.rsum2 (fun i j => item area [i; j]) n m).
Proof.
  intros Hadv Hshape Harea.
  destruct (advection_resolves gen adv Hadv) as [Hres Hget].
  destruct (@weighted_mean_at adv area L n m Hshape Harea) as (mean & Hmean & Hmsh & Hmitem).
  destruct (@binop_none2_at Rminus adv mean L n m Hshape Hmsh) as (new & Hnew & Hnsh & Hnitem).
  destruct (_set_Ok gen ADV [ADV] ADV new eq_refl Hres) as (Hset & _).
  exists new, mean; split; [|split; [exact Hnsh|split; [exact Hnitem|exact Hmitem]]].
  unfold Corrector._force_zero_global_mean_moisture_advection.
  rewrite Hget; cbn [bind]; rewrite Hmean; cbn [bind].
  unfold Torch.sub; rewrite Hnew; cbn [bind].
  unfold ClimateData.set_tendency_of_total_water_path_due_to_advection.
  rewrite Hset; reflexivity.
Qed.

End ZeroAdvectionStep.

Section RecomputedAdvection.
Local Open Scope R_scope.
Variable TIMESTEP_SECONDS : R.
Variable LATENT_HEAT_OF_VAPORIZATION : R.
Local Abbreviation rtensor := (tensor R).
Local Abbreviation dict := (Dict.dict rtensor).
Local Abbreviation CD := ClimateData.__init__.

(** X14.  In mode "advection_and_precipitation" the advection tendency [x]
    recomputed as the residual of the budget has global mean zero,
    [sum_ij (w_ij * x_ij) / sum_ij w_ij = 0], because the precipitation was
    rescaled first: this is why the source corrects the global-mean budget
    before it recomputes the advection.  The equality is one of exact
    arithmetic (floating-point numbers give zero to rounding); the time
    step and the latent heat are not zero, the area weights do not sum to
    zero, and the old precipitation does not have global mean zero. *)
Theorem recomputed_advection_has_zero_global_mean
    (input gen : dict) (area : rtensor) (sigma : ClimateData.SigmaCoordinates)
    (L : list nat) (n m K : nat)
    (wat_in ps_in wat ps precip lhf adv : rtensor) :
  TIMESTEP_SECONDS <> 0 ->
  LATENT_HEAT_OF_VAPORIZATION <> 0 ->
  ClimateData.specific_total_water (CD input) = Ok wat_in ->
  ClimateData.surface_pressure (CD input) = Ok ps_in ->
  ClimateData.specific_total_water (CD gen) = Ok wat ->
  ClimateData.surface_pressure (CD gen) = Ok ps ->
  ClimateData.precipitation_rate (CD gen) = Ok precip ->
  ClimateData.latent_heat_flux (CD gen) = Ok lhf ->
  ClimateData.tendency_of_total_water_path_due_to_advection (CD gen) = Ok adv ->
  shape wat_in = (L ++ [n; m]) ++ [K] -> shape ps_in = L ++ [n; m] ->
  shape wat = (L ++ [n; m]) ++ [K] -> shape ps = L ++ [n; m] ->
  shape precip = L ++ [n; m] -> shape lhf = L ++ [n; m] ->
  shape area = [n; m] ->
  shape (ClimateData.ak sigma) = [S K] -> shape (ClimateData.bk sigma) = [S K] ->
  Torch.rsum2 (fun i j => item area [i; j]) n m <> 0 ->
  (forall l, in_bounds L l = true ->
     Formula.global_mean area n m (fun i j => item precip (l ++ [i; j])) <> 0) ->
  exists (gen' : dict) (adv' mean : rtensor),
    Corrector._force_conserve_moisture TIMESTEP_SECONDS LATENT_HEAT_OF_VAPORIZATION
      input gen area sigma "advection_and_precipitation" = Ok gen' /\
    ClimateData.tendency_of_total_water_path_due_to_advection (CD gen') = Ok adv' /\
    shape adv' = L ++ [n; m] /\
    (forall l, in_bounds L l = true ->
       Formula.global_mean area n m (fun i j => item adv' (l ++ [i; j])) = 0) /\
    Metrics.weighted_mean adv' (Some area) = Ok mean /\
    shape mean = L /\
    forall l, in_bounds L l = true -> item mean l = 0.
Proof.
  intros _ _ Hwi Hpi Hw Hp Hpr Hlhf Hadv Swi Spi Sw Sp Spr Slhf Sarea Sak Sbk HW HP.
  destruct (moisture_budget_pipeline TIMESTEP_SECONDS LATENT_HEAT_OF_VAPORIZATION
              input gen area sigma L n m K
              wat_in ps_in wat ps precip lhf adv
              Hwi Hpi Hw Hp Hpr Hlhf Hadv Swi Spi Sw Sp Spr Slhf Sarea Sak Sbk)
    as (gen' & tg & ti & td & ev & new & nadv & mt & me & mp & mp'
        & E1 & _ & _ & _ & _ & _ & E7 & _ & _ & _ & _ & Sadv
        & Hscale & Hadv' & _ & _ & Itd & Imt & Ime & Imp & Imp').
  destruct (@weighted_mean_at nadv area L n m Sadv Sarea) as (mean & Hmean & Hmsh & Imean).
  assert (Hzero : forall l, in_bounds L l = true ->
            Torch.rsum2 (fun i j => item nadv (l ++ [i; j]) * item area [i; j]) n m
            / Torch.rsum2 (fun i j => item area [i; j]) n m = 0).
  { intros l Hl.
    set (W := Torch.rsum2 (fun i j => item area [i; j]) n m) in *.
    set (P := Torch.rsum2 (fun i j => item precip (l ++ [i; j]) * item area [i; j]) n m).
    set (E := Torch.rsum2 (fun i j => item ev (l ++ [i; j]) * item area [i; j]) n m).
    set (D := Torch.rsum2 (fun i j => item td (l ++ [i; j]) / TIMESTEP_SECONDS
                                      * item area [i; j]) n m).
    assert (Emp : item mp l = P / W) by (apply Imp; exact Hl).
    assert (HP' : P <> 0).
    { intros HP0; apply (HP l Hl); rewrite global_mean_eq; fold P W.
      rewrite HP0; unfold Rdiv; ring. }
    assert (Eme : item me l = E / W) by (apply Ime; exact Hl).
    assert (Emt : item mt l = D / W) by (apply Imt; exact Hl).
    rewrite (@rsum2_ext _
               (fun i j => item td (l ++ [i; j]) / TIMESTEP_SECONDS * item area [i; j]
                           - item ev (l ++ [i; j]) * item area [i; j]
                           + (item precip (l ++ [i; j]) * item area [i; j])
                             * ((item me l - item mt l) / item mp l)) n m).
    2:{ intros i j Hi Hj.
        rewrite (Hadv' _ (@in_bounds_field L n m l i j Hl Hi Hj)).
        rewrite <- (Itd _ (@in_bounds_field L n m l i j Hl Hi Hj)).
        rewrite (Hscale l i j Hl Hi Hj); ring. }
    unfold Torch.rsum2.
    rewrite rsum_ext with
      (g := fun i => Torch.rsum (fun j => item td (l ++ [i; j]) / TIMESTEP_SECONDS
                                          * item area [i; j]) m
                     - Torch.rsum (fun j => item ev (l ++ [i; j]) * item area [i; j]) m
                     + Torch.rsum (fun j => item precip (l ++ [i; j]) * item area [i; j]) m
                       * ((item me l - item mt l) / item mp l)).
    2:{ intros i Hi; rewrite rsum_plus, rsum_minus, rsum_scal_r; reflexivity. }
    rewrite rsum_plus, rsum_minus, rsum_scal_r.
    fold (Torch.rsum2 (fun i j => item td (l ++ [i; j]) / TIMESTEP_SECONDS
                                  * item area [i; j]) n m).
    fold (Torch.rsum2 (fun i j => item ev (l ++ [i; j]) * item area [i; j]) n m).
    fold (Torch.rsum2 (fun i j => item precip (l ++ [i; j]) * item area [i; j]) n m).
    fold D E P.
    rewrite Eme, Emt, Emp; fold W; field; split; assumption. }
  exists gen', nadv, mean.
  split; [exact E1|split; [exact E7|split; [exact Sadv|]]].
  split; [intros l Hl; rewrite global_mean_eq; now apply Hzero|].
  split; [exact Hmean|split; [exact Hmsh|]].
  intros l Hl; rewrite (Imean l Hl); now apply Hzero.
Qed.

End RecomputedAdvection.

(** ** Area-weighted metrics *)

Section WeightedMetrics.
Local Open Scope R_scope.
Local Abbreviation rtensor := (tensor R).

Lemma rsum_nonneg (f : nat -> R) (n : nat) :
  (forall k, (k < n)%nat -> 0 <= f k) -> 0 <= Torch.rsum f n.
Proof.
  induction n as [|n IH]; cbn; intros H; [lra|].
  assert (0 <= Torch.rsum f n) by (apply IH; intros; apply H; lia).
  assert (0 <= f n) by (apply H; lia); lra.
Qed.

Lemma rsum2_nonneg (f : nat -> nat -> R) (n m : nat) :
  (forall i j, (i < n)%nat -> (j < m)%nat -> 0 <= f i j) -> 0 <= Torch.rsum2 f n m.
Proof.
  intros H; unfold Torch.rsum2; apply rsum_nonneg; intros i Hi.
  apply rsum_nonneg; intros j Hj; now apply H.
Qed.

Lemma rsum_pos (f : nat -> R) (n : nat) :
  (0 < n)%nat -> (forall k, (k < n)%nat -> 0 < f k) -> 0 < Torch.rsum f n.
Proof.
  intros Hn H; destruct n as [|n]; [lia|]; cbn.
  assert (0 <= Torch.rsum f n) by (apply rsum_nonneg; intros; apply Rlt_le, H; lia).
  assert (0 < f n) by (apply H; lia); lra.
Qed.

Lemma rsum_const (c : R) (n : nat) : Torch.rsum (fun _ => c) n = INR n * c.
Proof.
  induction n as [|n IH]; [cbn; lra|].
  rewrite S_INR; cbn [Torch.rsum]; rewrite IH; lra.
Qed.

Lemma in_bounds_cell (L : list nat) (n m : nat) (idx : list nat) :
  in_bounds (L ++ [n; m]) idx = true ->
  exists l i j, idx = l ++ [i; j] /\ in_bounds L l = true /\ (i < n)%nat /\ (j < m)%nat.
Proof.
  intros Hidx.
  destruct (in_bounds_app_inv _ _ _ Hidx) as (l & c & -> & Hl & Hc).
  pose proof (in_bounds_length _ _ Hc) as Hlen.
  destruct c as [|i [|j [|? ?]]]; try discriminate Hlen.
  rewrite in_bounds_2 in Hc; apply andb_true_iff in Hc; destruct Hc as [Hi Hj].
  apply Nat.ltb_lt in Hi, Hj; exists l, i, j; auto.
Qed.

(** The difference of two fields of one shape. *)
Lemma sub_same_shape (t u : rtensor) (sh : list nat) :
  shape t = sh -> shape u = sh ->
  exists r, Torch.sub t u = Ok r /\ shape r = sh /\
            forall idx, in_bounds sh idx = true -> item r idx = item t idx - item u idx.
Proof.
  intros Ht Hu; unfold Torch.sub.
  rewrite (@binop_Ok Rminus t u sh) by (rewrite Ht, Hu; apply broadcast_shapes_same).
  eexists; split; [reflexivity|split; [reflexivity|]].
  intros idx Hidx; cbn [item]; rewrite Ht, Hu, (bindex_same _ _ Hidx); reflexivity.
Qed.

(** X15.  [weighted_mean] with weights over the last two dimensions returns,
    for each index of the leading dimensions, the global mean of the
    specification, [sum_ij (w_ij * x_ij) / sum_ij w_ij] (to rounding in
    floating-point numbers).  Weights that do not broadcast against the
    tensor make it raise a [RuntimeError]. *)
Theorem weighted_mean_is_the_global_mean (t w : rtensor) (L : list nat) (n m : nat) :
  (shape t = L ++ [n; m] ->
   shape w = [n; m] ->
   exists r,
     Metrics.weighted_mean t (Some w) = Ok r /\
     shape r = L /\
     forall l, in_bounds L l = true ->
       item r l = Formula.global_mean w n m (fun i j => item t (l ++ [i; j]))) /\
  (Torch.broadcast_shapes (shape t) (shape w) = None ->
   exists msg, Metrics.weighted_mean t (Some w) = Raise (RuntimeError msg)).
Proof.
  split.
  - intros Ht Hw.
    destruct (@weighted_mean_at t w L n m Ht Hw) as (r & Hr & Hrs & Ir).
    exists r; split; [exact Hr|split; [exact Hrs|]].
    intros l Hl; now rewrite (Ir l Hl), global_mean_eq.
  - intros Hb; unfold Metrics.weighted_mean, Torch.mul, Torch.binop.
    rewrite Hb; cbn [bind]; eexists; reflexivity.
Qed.

(** X16.  Without weights, [weighted_mean] is the mean over the grid, which is
    what unit weights give.  The grid is not empty. *)
Theorem unweighted_mean_is_mean_with_unit_weights
    (t : rtensor) (L : list nat) (n m : nat) :
  shape t = L ++ [n; m] ->
  (0 < n)%nat ->
  (0 < m)%nat ->
  exists r r',
    Metrics.weighted_mean t None = Ok r /\
    Metrics.weighted_mean t (Some (mkTensor [n; m] (fun _ => 1))) = Ok r' /\
    teq r r' /\
    forall l, in_bounds L l = true ->
      item r l = Torch.rsum2 (fun i j => item t (l ++ [i; j])) n m / INR (n * m).
Proof.
  intros Ht _ _.
  destruct (@weighted_mean_at t (mkTensor [n; m] (fun _ => 1)) L n m Ht eq_refl)
    as (r' & Hr' & Hrs' & Ir').
  unfold Metrics.weighted_mean at 1; unfold Torch.mean_last2.
  rewrite (@sum_last2_snoc t L n m Ht); cbn [bind].
  assert (Hn : last (removelast (shape t)) 0%nat = n).
  { rewrite Ht; change [n; m] with ([n] ++ [m]).
    now rewrite app_assoc, removelast_last, last_last. }
  assert (Hm : last (shape t) 0%nat = m).
  { rewrite Ht; change [n; m] with ([n] ++ [m]).
    now rewrite app_assoc, last_last. }
  rewrite Hn, Hm.
  eexists; exists r'; split; [reflexivity|split; [exact Hr'|]].
  assert (Hitem : forall l, in_bounds L l = true ->
            Torch.rsum2 (fun i j => item t ((l ++ [i]) ++ [j])) n m / INR (n * m) =
            Torch.rsum2 (fun i j => item t (l ++ [i; j])) n m / INR (n * m)).
  { intros l _; f_equal; apply rsum2_ext; intros i j _ _.
    now rewrite <- app_assoc. }
  split; [split; [cbn [shape tmap]; congruence|]|].
  - intros l Hl; cbn [shape tmap] in Hl; cbn [item tmap].
    rewrite (Hitem l Hl), (Ir' l Hl); cbn [item].
    rewrite (@rsum2_ext (fun i j => item t (l ++ [i; j]) * 1)
               (fun i j => item t (l ++ [i; j])) n m)
      by (intros; ring).
    f_equal; unfold Torch.rsum2.
    rewrite (@rsum_ext _ (fun _ => INR m * 1) n) by (intros; apply rsum_const).
    rewrite rsum_const, mult_INR; ring.
  - intros l Hl; cbn [item tmap]; now apply Hitem.
Qed.

(** X17.  For truth and prediction of one shape, [weighted_mean_bias]
    returns the global mean of the difference [predicted - truth],
    [sum_ij (w_ij * (p_ij - t_ij)) / sum_ij w_ij] (to rounding in
    floating-point numbers); operands of different shapes fail its
    assertion. *)
Theorem weighted_mean_bias_is_mean_of_difference
    (truth predicted w : rtensor) (L : list nat) (n m : nat) :
  (shape truth = L ++ [n; m] ->
   shape predicted = L ++ [n; m] ->
   shape w = [n; m] ->
   exists bias,
     Metrics.weighted_mean_bias truth predicted (Some w) = Ok bias /\
     shape bias = L /\
     forall l, in_bounds L l = true ->
       item bias l =
       Formula.global_mean w n m
         (fun i j => item predicted (l ++ [i; j]) - item truth (l ++ [i; j]))) /\
  (shape truth <> shape predicted ->
   Metrics.weighted_mean_bias truth predicted (Some w)
   = Raise (AssertionError "Truth and predicted should have the same shape.")).
Proof.
  split.
  - intros Ht Hp Hw.
    destruct (sub_same_shape predicted truth _ Hp Ht) as (d & Hd & Hds & Id).
    destruct (@weighted_mean_at d w L n m Hds Hw) as (b & Hb & Hbs & Ib).
    exists b; split; [|split; [exact Hbs|]].
    + unfold Metrics.weighted_mean_bias, shape_eqb; rewrite Ht, Hp.
      destruct (list_eq_dec Nat.eq_dec (L ++ [n; m]) (L ++ [n; m])); [|congruence].
      cbn [negb]; rewrite Hd; cbn [bind]; exact Hb.
    + intros l Hl; rewrite (Ib l Hl), global_mean_eq; f_equal.
      apply rsum2_ext; intros i j Hi Hj.
      now rewrite (Id _ (@in_bounds_field L n m l i j Hl Hi Hj)).
  - intros Hne; unfold Metrics.weighted_mean_bias, shape_eqb.
    destruct (list_eq_dec Nat.eq_dec (shape truth) (shape predicted)); [contradiction|].
    reflexivity.
Qed.

(** X18.  The root-mean-squared error, for non-negative weights of positive sum:
    the mean squared error under the root is not negative, the error is
    the same whichever argument is called the truth, and it is zero for a
    prediction equal to the truth. *)
Theorem root_mean_squared_error_is_a_distance
    (truth predicted w : rtensor) (L : list nat) (n m : nat) :
  shape truth = L ++ [n; m] ->
  shape predicted = L ++ [n; m] ->
  shape w = [n; m] ->
  (forall i j, (i < n)%nat -> (j < m)%nat -> 0 <= item w [i; j]) ->
  0 < Torch.rsum2 (fun i j => item w [i; j]) n m ->
  exists mse rmse rmse_swapped rmse_self,
    Metrics.mean_squared_error truth predicted (Some w) = Ok mse /\
    Metrics.root_mean_squared_error truth predicted (Some w) = Ok rmse /\
    Metrics.root_mean_squared_error predicted truth (Some w) = Ok rmse_swapped /\
    Metrics.root_mean_squared_error truth truth (Some w) = Ok rmse_self /\
    shape rmse = L /\
    forall l, in_bounds L l = true ->
      0 <= item mse l /\
      item rmse l * item rmse l = item mse l /\
      item rmse_swapped l = item rmse l /\
      item rmse_self l = 0.
Proof.
  intros Ht Hp Hw Hw0 HW.
  assert (Hmse : forall a b' : rtensor, shape a = L ++ [n; m] -> shape b' = L ++ [n; m] ->
            exists r, Metrics.mean_squared_error a b' (Some w) = Ok r /\ shape r = L /\
              forall l, in_bounds L l = true ->
                item r l =
                Torch.rsum2 (fun i j => (item b' (l ++ [i; j]) - item a (l ++ [i; j]))
                                        * (item b' (l ++ [i; j]) - item a (l ++ [i; j]))
                                        * item w [i; j]) n m
                / Torch.rsum2 (fun i j => item w [i; j]) n m).
  { intros a b' Ha Hb.
    destruct (sub_same_shape b' a _ Hb Ha) as (d & Hd & Hds & Id).
    destruct (@weighted_mean_at (tmap (fun x => x * x) d) w L n m Hds Hw)
      as (r & Hr & Hrs & Ir).
    exists r; split; [|split; [exact Hrs|]].
    - unfold Metrics.mean_squared_error, shape_eqb; rewrite Ha, Hb.
      destruct (list_eq_dec Nat.eq_dec (L ++ [n; m]) (L ++ [n; m])); [|congruence].
      cbn [negb]; rewrite Hd; cbn [bind]; exact Hr.
    - intros l Hl; rewrite (Ir l Hl); f_equal.
      apply rsum2_ext; intros i j Hi Hj; cbn [item tmap].
      now rewrite (Id _ (@in_bounds_field L n m l i j Hl Hi Hj)). }
  destruct (Hmse truth predicted Ht Hp) as (mse & Emse & Smse & Imse).
  destruct (Hmse predicted truth Hp Ht) as (mse' & Emse' & _ & Imse').
  destruct (Hmse truth truth Ht Ht) as (mse0 & Emse0 & _ & Imse0).
  exists mse, (tmap sqrt mse), (tmap sqrt mse'), (tmap sqrt mse0).
  unfold Metrics.root_mean_squared_error; rewrite Emse, Emse', Emse0; cbn [bind].
  repeat (split; [reflexivity|]).
  split; [exact Smse|].
  intros l Hl; cbn [item tmap].
  assert (Hpos : 0 <= item mse l).
  { rewrite (Imse l Hl); apply Rmult_le_pos; [|apply Rlt_le, Rinv_0_lt_compat, HW].
    apply rsum2_nonneg; intros i j Hi Hj.
    apply Rmult_le_pos; [apply Rle_0_sqr|now apply Hw0]. }
  split; [exact Hpos|split; [now apply sqrt_sqrt|split]].
  - f_equal; rewrite (Imse l Hl), (Imse' l Hl); f_equal.
    apply rsum2_ext; intros; ring.
  - rewrite (Imse0 l Hl).
    rewrite (@rsum2_ext _ (fun _ _ => 0 * 0) n m) by (intros; ring).
    unfold Torch.rsum2; rewrite (@rsum_ext _ (fun _ => INR m * (0 * 0)) n)
      by (intros; apply rsum_const).
    rewrite rsum_const.
    replace (INR n * (INR m * (0 * 0)) / Torch.rsum (fun i => Torch.rsum (fun j => item w [i; j]) m) n)
      with 0 by (unfold Rdiv; ring).
    apply sqrt_0.
Qed.

End WeightedMetrics.

(** ** Water levels that are not there *)

Section MissingLevels.
Local Open Scope R_scope.
Local Abbreviation rtensor := (tensor R).
Local Abbreviation dict := (Dict.dict rtensor).
Local Abbreviation CD := ClimateData.__init__.
Local Abbreviation water_prefix := "specific_total_water_".

(** X10.  [specific_total_water] raises a [KeyError] exactly when no field name
    of the data starts with [specific_total_water_]; its argument is then
    the list of prefixes, printed as a list.  Levels of different shapes
    make [torch.stack] fail with another error. *)
Theorem specific_total_water_KeyError_iff_no_level (d : dict) :
  ((forall k, In k (Dict.keys d) -> ClimateData.startswith k water_prefix = false) ->
   ClimateData.specific_total_water (CD d)
     = Raise (KeyError "['specific_total_water_']")) /\
  (forall msg,
     ClimateData.specific_total_water (CD d) = Raise (KeyError msg) ->
     forall k, In k (Dict.keys d) -> ClimateData.startswith k water_prefix = false).
Proof.
  unfold ClimateData.specific_total_water, ClimateData._extract_levels.
  change (Dict.getitem "specific_total_water" (ClimateData._prefixes (CD d)))
    with (@Ok (list string) [water_prefix]).
  cbn [bind ClimateData._extract_levels_loop].
  unfold ClimateData._extract_prefix_levels; cbn [ClimateData._data ClimateData.__init__].
  set (names := filter (fun field_name => ClimateData.startswith field_name water_prefix)
                       (Dict.keys d)).
  split.
  - intros Hnone.
    assert (Hnil : names = []).
    { unfold names; clear names.
      induction (Dict.keys d) as [|k ks IH]; [reflexivity|]; cbn [filter].
      rewrite (Hnone k (or_introl eq_refl)); apply IH.
      intros k' Hk'; apply Hnone; now right. }
    rewrite Hnil; reflexivity.
  - intros msg Hraise k Hk.
    destruct (ClimateData.startswith k water_prefix) eqn:Hpre; [exfalso|reflexivity].
    assert (Hin : In k names) by (apply filter_In; auto).
    destruct (List.length names =? 0)%nat eqn:Hlen.
    { apply Nat.eqb_eq in Hlen; destruct names; [destruct Hin|discriminate Hlen]. }
    destruct (natural_sort_is_a_stable_sort_lemma names) as (Hperm & _).
    destruct (@mapM_total string rtensor (fun name => Dict.getitem name d)
                (ClimateData.natural_sort names)) as (ts & Hts).
    { intros x Hx.
      apply (Permutation_in _ Hperm), filter_In in Hx; destruct Hx as [Hx _].
      destruct (Dict.lookup x d) as [v|] eqn:Hl.
      - exists v; now apply getitem_Ok.
      - now apply lookup_None_keys in Hl. }
    rewrite Hts in Hraise; cbn [bind] in Hraise.
    unfold stack in Hraise.
    destruct ts as [|t0 ts']; [discriminate|].
    destruct (wrap_index _ _); [|discriminate].
    destruct (forallb _ _); discriminate.
Qed.

End MissingLevels.

(** ** Pressure of the dry air, and the vertical integral *)

Section DryAirMetric.
Local Open Scope R_scope.
Local Abbreviation rtensor := (tensor R).

Lemma rsum_telescope (f : nat -> R) (K : nat) :
  Torch.rsum (fun k => f (S k) - f k) K = f K - f 0%nat.
Proof. induction K as [|K IH]; cbn [Torch.rsum]; [|rewrite IH]; lra. Qed.

Lemma rsum_zero (f : nat -> R) (K : nat) :
  (forall k, (k < K)%nat -> f k = 0) -> Torch.rsum f K = 0.
Proof.
  intros H; rewrite (@rsum_ext f (fun _ => 0) K H), rsum_const; ring.
Qed.

(** X19.  The vertical integral of a quantity that is the same in every level
    of a column is that quantity times the pressure difference between the
    lowest and the highest interface, over the gravity: the thicknesses of
    the levels add up. *)
Theorem vertical_integral_of_uniform_column
    (x ps ak bk : rtensor) (F : list nat) (K : nat) :
  shape x = F ++ [K] ->
  shape ps = F ->
  shape ak = [S K] ->
  shape bk = [S K] ->
  exists r, Metrics.vertical_integral x ps ak bk = Ok r /\ shape r = F /\
    forall c v, in_bounds F c = true ->
      (forall k, (k < K)%nat -> item x (c ++ [k]) = v) ->
      item r c =
      1 / Metrics.GRAVITY *
      (((item ak [K] + item ps c * item bk [K])
        - (item ak [0%nat] + item ps c * item bk [0%nat])) * v).
Proof.
  intros Hx Hps Hak Hbk.
  destruct (@vertical_integral_at x ps ak bk F K Hx Hps Hak Hbk) as (r & Hr & Hrs & Ir).
  exists r; split; [exact Hr|split; [exact Hrs|]].
  intros c v Hc Hv; rewrite (Ir c Hc); f_equal.
  rewrite (@rsum_ext _
             (fun k => v * ((item ak [S k] + item ps c * item bk [S k])
                            - (item ak [k] + item ps c * item bk [k]))) K)
    by (intros k Hk; rewrite (Hv k Hk); ring).
  rewrite rsum_scal_l.
  rewrite (rsum_telescope (fun k => item ak [k] + item ps c * item bk [k]) K); ring.
Qed.

(** X20.  [surface_pressure_due_to_dry_air] accepts interface coefficients [ak]
    and [bk] with one entry more than the water has levels, and nothing
    else: any other lengths give the [ValueError].  For accepted
    coefficients the result is the surface pressure less the weight of the
    water, [ps - sum_k (d ak_k + d bk_k * ps) * q_k], which is the surface
    pressure itself for a column without water. *)
Theorem dry_air_pressure_checks_levels
    (water ps ak bk : rtensor) (F : list nat) (K NA NB : nat) :
  shape water = F ++ [K] ->
  shape ps = F ->
  shape ak = [NA] ->
  shape bk = [NB] ->
  match Metrics.surface_pressure_due_to_dry_air water ps ak bk with
  | Ok r =>
      NA = S K /\ NB = S K /\ shape r = F /\
      forall c, in_bounds F c = true ->
        item r c =
        item ps c -
        Torch.rsum (fun k => ((item ak [S k] - item ak [k])
                              + (item bk [S k] - item bk [k]) * item ps c)
                             * item water (c ++ [k])) K /\
        ((forall k, (k < K)%nat -> item water (c ++ [k]) = 0) -> item r c = item ps c)
  | Raise e =>
      (NA <> S K \/ NB <> S K) /\
      e = ValueError "Number of vertical levels in ak, bk, and specific_total_water mustbe the same."
  end.
Proof.
  intros Hw Hps Hak Hbk.
  destruct (Nat.eq_dec NA (S K)) as [->|HNA];
    [destruct (Nat.eq_dec NB (S K)) as [->|HNB]|].
  - destruct (@metrics_dry_air_at water ps ak bk F K Hw Hps Hak Hbk)
      as (r & -> & Hrs & Ir).
    split; [reflexivity|split; [reflexivity|split; [exact Hrs|]]].
    intros c Hc; split; [now apply Ir|].
    intros Hz; rewrite (Ir c Hc), rsum_zero; [ring|].
    intros k Hk; rewrite (Hz k Hk); ring.
  - unfold Metrics.surface_pressure_due_to_dry_air, Torch.len.
    rewrite Hak, Hbk; cbn [bind].
    replace (Z.of_nat (S K) - 1 =? Z.of_nat NB - 1)%Z with false
      by (symmetry; apply Z.eqb_neq; lia).
    cbn [negb bind]; split; [now right|reflexivity].
  - unfold Metrics.surface_pressure_due_to_dry_air, Torch.len.
    rewrite Hak, Hbk, (@shape_last_snoc water F K Hw); cbn [bind].
    destruct (Z.of_nat NA - 1 =? Z.of_nat NB - 1)%Z; cbn [negb bind].
    + replace (Z.of_nat NA - 1 =? Z.of_nat K)%Z with false
        by (symmetry; apply Z.eqb_neq; lia).
      cbn [negb]; split; [now left|reflexivity].
    + split; [now left|reflexivity].
Qed.

End DryAirMetric.

(** ** Area weights of a latitude-longitude grid *)

Section AreaWeights.
Local Open Scope R_scope.
Local Abbreviation rtensor := (tensor R).

Lemma cos_deg_pos (lat : R) : -90 < lat < 90 -> 0 < cos (Metrics.deg2rad lat).
Proof.
  intros [Hlo Hhi]; unfold Metrics.deg2rad.
  pose proof PI_RGT_0 as Hpi.
  apply cos_gt_0; nra.
Qed.

(** X21.  For cell centres strictly between the poles, the weights of
    [spherical_area_weights] are positive, the same along a circle of
    latitude, and add up to one over the grid. *)
Theorem spherical_area_weights_sum_to_one (lats : list R) (num_lon : nat) :
  lats <> [] ->
  (0 < num_lon)%nat ->
  (forall lat, In lat lats -> -90 < lat < 90) ->
  let weights := Metrics.spherical_area_weights lats num_lon in
  shape weights = [List.length lats; num_lon] /\
  Torch.rsum2 (fun i j => item weights [i; j]) (List.length lats) num_lon = 1 /\
  forall i j, (i < List.length lats)%nat -> (j < num_lon)%nat ->
    0 < item weights [i; j] /\
    item weights [i; j] = item weights [i; 0%nat] /\
    item weights [i; j] * cos (Metrics.deg2rad (nth 0 lats 0))
      = item weights [0%nat; j] * cos (Metrics.deg2rad (nth i lats 0)).
Proof.
  intros Hne Hlon Hlat weights.
  set (n := List.length lats).
  set (total := Torch.rsum2 (fun i _ => cos (Metrics.deg2rad (nth i lats 0))) n num_lon).
  assert (Hn : (0 < n)%nat) by (unfold n; destruct lats; [congruence|cbn; lia]).
  assert (Hcos : forall i, (i < n)%nat -> 0 < cos (Metrics.deg2rad (nth i lats 0))).
  { intros i Hi; apply cos_deg_pos, Hlat, nth_In; exact Hi. }
  assert (Htotal : 0 < total).
  { unfold total, Torch.rsum2; apply rsum_pos; [exact Hn|]; intros i Hi.
    apply rsum_pos; [exact Hlon|]; intros _ _; now apply Hcos. }
  assert (Hitem : forall i j, item weights [i; j]
                              = cos (Metrics.deg2rad (nth i lats 0)) / total)
    by reflexivity.
  split; [reflexivity|split].
  - rewrite (@rsum2_ext _ (fun i _ => / total * cos (Metrics.deg2rad (nth i lats 0)))
               n num_lon)
      by (intros; rewrite Hitem; unfold Rdiv; ring).
    rewrite rsum2_scal_l; fold total; field; lra.
  - intros i j Hi Hj; rewrite !Hitem; split; [|split].
    + apply Rdiv_lt_0_compat; [now apply Hcos|exact Htotal].
    + reflexivity.
    + field; lra.
Qed.

End AreaWeights.

(* ================================================================== *)
(** * The further properties on small inputs *)

Lemma pack_reads_declared_names_only_witness :
  Packer.pack roundtrip_packer roundtrip_fields None
  = Packer.pack roundtrip_packer roundtrip_fields_more None.
Proof.
  apply pack_reads_declared_names_only.
  intros k [<-|[<-|[]]]; reflexivity.
Defined.

Lemma pack_after_unpack_witness :
  exists td packed,
    Packer.unpack roundtrip_packer roundtrip_packed (Some (-3)%Z) = Ok td /\
    Packer.pack roundtrip_packer (Packer.td_items td) (Some (-3)%Z) = Ok packed /\
    teq packed roundtrip_packed.
Proof.
  apply (pack_after_unpack nat roundtrip_packer roundtrip_packed (-3) 0).
  - repeat constructor; cbn; intuition discriminate.
  - discriminate.
  - reflexivity.
  - reflexivity.
Defined.

Lemma evaporation_rate_roundtrip_witness :
  exists cd' e,
    ClimateData.set_evaporation_rate 2501000 (ClimateData.__init__ wet_state) (cell 3)
      = Ok cd' /\
    ClimateData.latent_heat_flux cd' = Ok (tmap (fun x => x * 2501000)%R (cell 3)) /\
    ClimateData.evaporation_rate 2501000 cd' = Ok e /\
    item e [0; 0] = (3 * 2501000 / 2501000)%R.
Proof.
  edestruct (evaporation_rate_roundtrip 2501000 wet_state (cell 3))
    as (e & He & _ & Hitem & Hflux).
  - lra.
  - reflexivity.
  - eexists; exists e.
    split; [reflexivity|split; [exact Hflux|split; [exact He|exact (Hitem [0; 0])]]].
Defined.

Lemma specific_total_water_in_level_order_witness :
  exists wat,
    ClimateData.specific_total_water (ClimateData.__init__ levels_state) = Ok wat /\
    shape wat = [1; 1; 2] /\
    item wat [0; 0; 0] = 1%R /\
    item wat [0; 0; 1] = 2%R.
Proof.
  destruct (specific_total_water_in_level_order levels_state 2 [1; 1])
    as (wat & Hwat & Hshape & Hitem).
  - repeat constructor; cbn; intuition discriminate.
  - lia.
  - intros name [<-|[<-|[<-|[]]]] Hpre; try discriminate Hpre.
    + exists 1; split; [lia|reflexivity].
    + exists 0; split; [lia|reflexivity].
  - intros [|[|k]] Hk; [| |lia]; eexists; split; reflexivity.
  - exists wat; split; [exact Hwat|split; [exact Hshape|split]].
    + exact (Hitem 0 (cell 1) [0; 0] ltac:(lia) eq_refl eq_refl).
    + exact (Hitem 1 (cell 2) [0; 0] ltac:(lia) eq_refl eq_refl).
Defined.

Lemma corrector_changes_budget_fields_only_witness :
  exists gen',
    Corrector.__call__ 21600 2501000 advection_corrector wet_state wet_state = Ok gen' /\
    Dict.keys gen' = Dict.keys wet_state /\
    Dict.lookup "specific_total_water_0" gen'
      = Dict.lookup "specific_total_water_0" wet_state.
Proof.
  destruct (zero_advection_step wet_state (cell 1) (cell 0) [] 1 1 eq_refl eq_refl eq_refl)
    as (new & mean & Hstep & _).
  assert (Hcall : Corrector.__call__ 21600 2501000 advection_corrector wet_state wet_state
                  = Ok (Dict.setitem "tendency_of_total_water_path_due_to_advection"
                          new wet_state)).
  { unfold Corrector.__call__.
    cbn [advection_corrector Corrector._config Corrector._area bind
         Corrector.conserve_dry_air Corrector.zero_global_mean_moisture_advection
         Corrector.moisture_budget_correction].
    rewrite Hstep; reflexivity. }
  destruct (corrector_changes_budget_fields_only 21600 2501000 advection_corrector
              wet_state wet_state _ Hcall) as (Hkeys & Hother).
  eexists; split; [exact Hcall|split; [exact Hkeys|]].
  apply Hother; cbn; intuition discriminate.
Defined.

Lemma recomputed_advection_has_zero_global_mean_witness :
  exists gen' adv',
    Corrector._force_conserve_moisture 21600 2501000 budget_in budget_gen unit_area one_level
      "advection_and_precipitation" = Ok gen' /\
    ClimateData.tendency_of_total_water_path_due_to_advection (ClimateData.__init__ gen')
      = Ok adv' /\
    Formula.global_mean unit_area 1 2 (fun i j => item adv' [i; j]) = 0%R.
Proof.
  edestruct (recomputed_advection_has_zero_global_mean 21600 2501000
               budget_in budget_gen unit_area one_level [] 1%nat 2%nat 1%nat)
    as (gen' & adv' & mean & H1 & H2 & _ & Hzero & _).
  1-2: lra.
  1-16: reflexivity.
  - unfold Torch.rsum2, Torch.rsum; simpl; lra.
  - intros l Hl; destruct l; [|discriminate Hl].
    unfold Formula.global_mean, Torch.rsum2, Torch.rsum; simpl.
    intros H; field_simplify in H; lra.
  - exists gen', adv'.
    split; [exact H1|split; [exact H2|exact (Hzero [] eq_refl)]].
Defined.

Lemma weighted_mean_is_the_global_mean_witness :
  exists r,
    Metrics.weighted_mean (grid_1x2 3 5) (Some (grid_1x2 1 3)) = Ok r /\
    item r [] = ((1 * 3 + 3 * 5) / (1 + 3))%R.
Proof.
  destruct (weighted_mean_is_the_global_mean (grid_1x2 3 5) (grid_1x2 1 3) [] 1 2)
    as [Hmean _].
  destruct (Hmean eq_refl eq_refl) as (r & Hr & _ & Hitem).
  exists r; split; [exact Hr|].
  rewrite (Hitem [] eq_refl).
  unfold Formula.global_mean, Torch.rsum2, Torch.rsum; simpl; field.
Defined.

Lemma unweighted_mean_is_mean_with_unit_weights_witness :
  exists r r',
    Metrics.weighted_mean (grid_1x2 3 5) None = Ok r /\
    Metrics.weighted_mean (grid_1x2 3 5) (Some (mkTensor [1; 2] (fun _ => 1%R))) = Ok r' /\
    teq r r'.
Proof.
  destruct (unweighted_mean_is_mean_with_unit_weights (grid_1x2 3 5) [] 1 2 eq_refl)
    as (r & r' & H1 & H2 & H3 & _).
  - lia.
  - lia.
  - exists r, r'; auto.
Defined.

Lemma weighted_mean_bias_is_mean_of_difference_witness :
  exists bias,
    Metrics.weighted_mean_bias (grid_1x2 3 5) (grid_1x2 4 8) (Some (grid_1x2 1 3)) = Ok bias /\
    item bias [] = ((1 * (4 - 3) + 3 * (8 - 5)) / (1 + 3))%R.
Proof.
  destruct (weighted_mean_bias_is_mean_of_difference (grid_1x2 3 5) (grid_1x2 4 8)
              (grid_1x2 1 3) [] 1 2) as [Hbias _].
  destruct (Hbias eq_refl eq_refl eq_refl) as (bias & Hb & _ & Hitem).
  exists bias; split; [exact Hb|].
  rewrite (Hitem [] eq_refl).
  unfold Formula.global_mean, Torch.rsum2, Torch.rsum; simpl; field.
Defined.

Lemma root_mean_squared_error_is_a_distance_witness :
  exists mse rmse rmse_swapped,
    Metrics.mean_squared_error (grid_1x2 3 5) (grid_1x2 4 8) (Some unit_area) = Ok mse /\
    Metrics.root_mean_squared_error (grid_1x2 3 5) (grid_1x2 4 8) (Some unit_area) = Ok rmse /\
    Metrics.root_mean_squared_error (grid_1x2 4 8) (grid_1x2 3 5) (Some unit_area)
      = Ok rmse_swapped /\
    (item rmse [] * item rmse [])%R = item mse [] /\
    item rmse_swapped [] = item rmse [].
Proof.
  destruct (root_mean_squared_error_is_a_distance (grid_1x2 3 5) (grid_1x2 4 8)
              unit_area [] 1 2 eq_refl eq_refl eq_refl)
    as (mse & rmse & rmse' & rmse0 & H1 & H2 & H3 & _ & _ & H6).
  - intros i j _ _; unfold unit_area, grid_1x2; cbn [item nth].
    destruct j; lra.
  - unfold Torch.rsum2; simpl; lra.
  - destruct (H6 [] eq_refl) as (_ & Hsq & Hsym & _).
    exists mse, rmse, rmse'; auto.
Defined.

Lemma vertical_integral_of_uniform_column_witness :
  exists r,
    Metrics.vertical_integral (vec [1 / 100]%R) (scalar_field 1000)
      (vec [0; 0]%R) (vec [0; 1]%R) = Ok r /\
    item r [] = (1 / Metrics.GRAVITY * ((0 + 1000 * 1 - (0 + 1000 * 0)) * (1 / 100)))%R.
Proof.
  destruct (vertical_integral_of_uniform_column (vec [1 / 100]%R) (scalar_field 1000)
              (vec [0; 0]%R) (vec [0; 1]%R) [] 1 eq_refl eq_refl eq_refl eq_refl)
    as (r & Hr & _ & Hitem).
  exists r; split; [exact Hr|].
  apply (Hitem [] (1 / 100)%R eq_refl).
  intros [|k] Hk; [reflexivity|lia].
Defined.

Lemma dry_air_pressure_checks_levels_witness :
  match Metrics.surface_pressure_due_to_dry_air (vec [1 / 100]%R) (scalar_field 1000)
          (vec [0; 0; 0]%R) (vec [0; 1]%R) with
  | Ok _ => False
  | Raise e =>
      e = ValueError "Number of vertical levels in ak, bk, and specific_total_water mustbe the same."
  end.
Proof.
  pose proof (dry_air_pressure_checks_levels (vec [1 / 100]%R) (scalar_field 1000)
                (vec [0; 0; 0]%R) (vec [0; 1]%R) [] 1 3 2
                eq_refl eq_refl eq_refl eq_refl) as H.
  destruct (Metrics.surface_pressure_due_to_dry_air _ _ _ _) as [r|e].
  - destruct H as (H & _); discriminate H.
  - exact (proj2 H).
Defined.

Lemma spherical_area_weights_sum_to_one_witness :
  Torch.rsum2 (fun i j => item (Metrics.spherical_area_weights [-45; 45]%R 2) [i; j]) 2 2
  = 1%R.
Proof.
  destruct (spherical_area_weights_sum_to_one [-45; 45]%R 2) as (_ & Hsum & _).
  - discriminate.
  - lia.
  - intros lat [<-|[<-|[]]]; lra.
  - exact Hsum.
Defined.

Lemma run_on_batch_returns_witness : exists r, toy_run toy_out_packer 2 = Ok r.
Proof.
  unfold toy_run.
  apply run_on_batch_returns with (b := 1) (tm := 3) (h := 1) (w := 1).
  - discriminate.
  - discriminate.
  - intros name [<-|[<-|[<-|[]]]]; cbn; eauto.
  - intros x Hx; unfold toy_module, select, rank; rewrite Hx; cbn.
    eexists; split; reflexivity.
  - exact I.
  - exact I.
  - lia.
Defined.

Lemma rollout_beyond_batch_raises_IndexError_witness :
  exists msg, toy_run toy_out_packer 3 = Raise (IndexError msg).
Proof.
  unfold toy_run.
  apply rollout_beyond_batch_raises_IndexError with (b := 1) (tm := 3) (h := 1) (w := 1).
  - discriminate.
  - discriminate.
  - intros name [<-|[<-|[<-|[]]]]; cbn; eauto.
  - intros x Hx; unfold toy_module, select, rank; rewrite Hx; cbn.
    eexists; split; reflexivity.
  - exact I.
  - exact I.
  - lia.
  - lia.
Defined.

Lemma step_losses_compare_with_target_witness :
  exists (full : tensor Z) (stn : Stepper.loop_state Z (option Z)),
    Stepper._pack_data_if_available toy_out_packer
      (Stepper.normalize (fun _ x => (x + 1)%Z) toy_data) Stepper.channel_dim
      = Ok (Some full) /\
    Dict.lookup "loss" (Stepper.sd_metrics toy_result)
      = Some (toy_loss_add (Stepper.loss stn) (Some 0%Z)).
Proof.
  destruct (@step_losses_compare_with_target Z (option Z) (Some 0%Z) toy_loss_add None
              (fun _ x => (x + 1)%Z) (fun _ x => (x - 1)%Z)
              toy_module (fun _ _ => Some 0%Z) None None (fun _ => ([], Some 0%Z))
              toy_in_packer toy_out_packer toy_data 2 toy_result toy_run_returns)
    as (full & st0 & stn & Hfull & _ & _ & _ & Hloss).
  exists full, stn; split; [exact Hfull|exact Hloss].
Defined.

Lemma query_time_index_bounds_witness :
  Stepper.name_and_time_query_fn toy_data toy_data Stepper.time_dim ["a"; "f"] 3 Stepper.denorm
    = Raise (ValueError ("tensor " ++ Stepper.quote ++ "a" ++ Stepper.quote
                         ++ " does not have values at t=" ++ Stepper.str_of_Z 3)) /\
  Stepper.name_and_time_query_fn toy_data toy_data Stepper.time_dim ["a"; "f"] (-1)
    Stepper.denorm
    = Stepper.name_and_time_query_fn toy_data toy_data Stepper.time_dim ["a"; "f"] 2
        Stepper.denorm.
Proof.
  destruct (query_time_index_bounds toy_data toy_data (name := "a") (names := ["f"]) 3
              Stepper.denorm (b := 1) (tm := 3) (rest := [1; 1])) as (Hhigh & _).
  { intros name [<-|[<-|[]]]; cbn; eauto. }
  destruct (query_time_index_bounds toy_data toy_data (name := "a") (names := ["f"]) (-1)
              Stepper.denorm (b := 1) (tm := 3) (rest := [1; 1])) as (_ & Hneg).
  { intros name [<-|[<-|[]]]; cbn; eauto. }
  split; [apply Hhigh; lia|].
  apply Hneg; lia.
Defined.
